(** * TIM2 texture decoders: a shallow embedding and its properties

    The repository holds two decoders for PS2 "TIM2" textures:
    - [tim2.py]     the legacy single-picture decoder ([process_tm2_file]),
    - [tim2_eva.py] the chained multi-picture decoder (class [TIM2Parser])
                    with its column compositor.

    Python integers are modelled as [Z], the file contents as [list byte],
    Python lists as [list], exceptions as the [Raise] branch of [result],
    and console output as a list of [message]s.  The imaging and array
    libraries appear only through what the scripts use of them: a raster
    is its size and its row-major pixels, [Image.new] and [putdata] fill
    it, [paste] is recorded on the canvas, and writing a PNG is recorded
    as the image handed to [save]. *)

From Stdlib Require Import ZArith List Lia Strings.Byte String.
From stdpp Require Import base list gmap.

Open Scope Z_scope.

(* ================================================================== *)
(** * Python runtime fragments used by both scripts                    *)
(* ================================================================== *)

(** Exceptions that the two scripts can raise. *)
Inductive exn :=
  | IndexError                 (* sequence index out of range *)
  | StructError                (* struct.unpack on a buffer of the wrong size *)
  | ValueError_not_tim2        (* raise ValueError('...: not a TIM2 file') *)
  | ValueError_max_empty       (* max() of an empty sequence *)
  | ValueError_reshape         (* ndarray.reshape with a wrong element count *)
  | TypeError_too_many_data    (* Image.putdata with more items than pixels *)
  | SaveError_empty_image.     (* Image.save of an image of width or height 0 *)

Inductive result (A : Type) :=
  | Ok (a : A)
  | Raise (e : exn).
Arguments Ok {A} a.
Arguments Raise {A} e.

#[global] Instance result_ret : MRet result := fun _ a => Ok a.
#[global] Instance result_bind : MBind result := fun _ _ f m =>
  match m with
  | Ok a => f a
  | Raise e => Raise e
  end.

Definition raises {A} (m : result A) : Prop := exists e, m = Raise e.

(** Loops: [for x in xs: body], where the body may [break] or raise. *)
Inductive flow (S : Type) :=
  | Next (s : S)
  | Break (s : S).
Arguments Next {S} s.
Arguments Break {S} s.

Fixpoint for_loop {A S} (xs : list A) (body : A -> S -> result (flow S)) (s : S)
  : result S :=
  match xs with
  | [] => Ok s
  | x :: xs' =>
      match body x s with
      | Raise e => Raise e
      | Ok (Break s') => Ok s'
      | Ok (Next s') => for_loop xs' body s'
      end
  end.

(** [range(n)] and [range(start, stop, step)] for a positive step. *)
Definition range (n : Z) : list Z := seqZ 0 n.

Definition range3 (start stop step : Z) : list Z :=
  (fun k => start + k * step) <$> seqZ 0 ((stop - start + step - 1) / step).

(** Byte values, as Python yields them when indexing [bytes]. *)
Definition byte_val (b : byte) : Z := Z.of_N (Byte.to_N b).

(** [l[a:b]] for non-negative [a], [b]: silently clipped to the sequence. *)
Definition slice {A} (l : list A) (a b : Z) : list A :=
  take (Z.to_nat (b - a)) (drop (Z.to_nat a) l).

(** [l[a:]] for non-negative [a]. *)
Definition slice_from {A} (l : list A) (a : Z) : list A :=
  drop (Z.to_nat a) l.

(** [l[i]]: negative indices count from the end, anything else out of
    range raises [IndexError]. *)
Definition getitem {A} (l : list A) (i : Z) : result A :=
  let j := if i <? 0 then i + Z.of_nat (length l) else i in
  if j <? 0 then Raise IndexError
  else match l !! Z.to_nat j with
       | Some x => Ok x
       | None => Raise IndexError
       end.

Definition getbyte (l : list byte) (i : Z) : result Z :=
  b ← getitem l i; mret (byte_val b).

(** [struct.unpack('<H', bs)[0]] and [struct.unpack('<I', bs)[0]]. *)
Definition le_value (bs : list byte) : Z :=
  foldr (fun b acc => byte_val b + 256 * acc) 0 bs.

Definition unpack_H (bs : list byte) : result Z :=
  if decide (length bs = 2%nat) then Ok (le_value bs) else Raise StructError.

Definition unpack_I (bs : list byte) : result Z :=
  if decide (length bs = 4%nat) then Ok (le_value bs) else Raise StructError.

Definition len {A} (l : list A) : Z := Z.of_nat (length l).

Definition sum (l : list Z) : Z := foldl Z.add 0 l.

(* ================================================================== *)
(** * Images (the part of the imaging library the scripts rely on)    *)
(* ================================================================== *)

Definition pixel : Type := Z * Z * Z * Z.

Definition transparent : pixel := (0, 0, 0, 0).

(** A raster: its size and its pixels in row-major order. *)
Record image := Image {
  im_width : Z;
  im_height : Z;
  im_pixels : list pixel
}.

(** [Image.new('RGBA', (w, h))]: every pixel starts as (0,0,0,0). *)
Definition Image_new (w h : Z) : image :=
  Image w h (replicate (Z.to_nat (w * h)) transparent).

(** A channel value as the raster keeps it: one byte, values outside
    0..255 pulled to the nearest bound. *)
Definition clip8 (v : Z) : Z :=
  if v <=? 0 then 0 else if v <? 256 then v else 255.

Definition store_pixel (p : pixel) : pixel :=
  let '(r, g, b, a) := p in (clip8 r, clip8 g, clip8 b, clip8 a).

(** [img.putdata(seq)]: overwrites the leading pixels with the items of
    [seq], each channel stored as a byte; a sequence longer than the
    raster is refused. *)
Definition putdata (img : image) (seq : list pixel) : result image :=
  if len (im_pixels img) <? len seq then Raise TypeError_too_many_data
  else Ok (Image (im_width img) (im_height img)
                 ((store_pixel <$> seq) ++ drop (length seq) (im_pixels img))).

(** [img.save(path)] for a raster of [w] x [h] pixels: a raster without
    pixels cannot be written. *)
Definition save (w h : Z) : result unit :=
  if (0 <? w) && (0 <? h) then Ok tt else Raise SaveError_empty_image.

(** Console output of the two scripts. *)
Inductive message :=
  | Msg_file_too_small                       (* 文件过小 *)
  | Msg_converted                            (* 已转换 *)
  | Msg_file_error (e : exn)                 (* 处理文件 ... 时出错 *)
  | Msg_summary (count : Z)                  (* 转换完成! 共处理 n 个文件 *)
  | Msg_skip_unsupported (index fmt : Z)     (* Skip picture: unsupported format *)
  | Msg_data_overflow (index : Z)            (* Data overflow for picture *)
  | Msg_warn_width (canvas_w total_w : Z)
  | Msg_warn_height (canvas_h total_h : Z)
  | Msg_ok                                   (* [OK] *)
  | Msg_err (e : exn).                       (* [ERR] *)

(* ================================================================== *)
(** * tim2.py: the legacy single-picture decoder                      *)
(* ================================================================== *)

Module Legacy.

(** Line 40 / line 78: [min(a * 2 - 1, 255)]. *)
Definition alpha (a : Z) : Z := Z.min (a * 2 - 1) 255.

(** Lines 33-42: one iteration of the palette loop. *)
Definition palette_entry (palette_data : list byte) (i : Z)
    (original_palette : list pixel) : result (flow (list pixel)) :=
  let pos := i * 4 in
  r ← getbyte palette_data pos;
  g ← getbyte palette_data (pos + 1);
  b ← getbyte palette_data (pos + 2);
  a ← getbyte palette_data (pos + 3);
  let a := alpha a in
  mret (Next (original_palette ++ [(r, g, b, a)])).

Definition read_palette (palette_data : list byte) (cont : Z)
  : result (list pixel) :=
  for_loop (range cont) (palette_entry palette_data) [].

(** Lines 47-54: the reorder applied to 256-entry palettes. *)
Definition reorder_major_group {A} (major_group : list A) : list A :=
  let subgroup1 := slice major_group 0 8 in
  let subgroup2 := slice major_group 8 16 in
  let subgroup3 := slice major_group 16 24 in
  let subgroup4 := slice major_group 24 32 in
  subgroup1 ++ subgroup3 ++ subgroup2 ++ subgroup4.

Definition reorder_palette {A} (original_palette : list A) : list A :=
  foldl (fun palette major_group_start =>
           let major_group :=
             slice original_palette major_group_start (major_group_start + 32) in
           palette ++ reorder_major_group major_group)
        [] (range3 0 256 32).

(** Lines 45-56. *)
Definition resolve_palette (cont : Z) (original_palette : list pixel)
  : list pixel :=
  if cont =? 256 then reorder_palette original_palette else original_palette.

(** Lines 63-67: the 256-colour loop body. *)
Definition body256 (width height : Z) (pixels : list byte) (palette : list pixel)
    (i : Z) (img_data : list pixel) : result (flow (list pixel)) :=
  if i =? width * height then Ok (Break img_data)
  else
    color_idx ← getbyte pixels i;
    p ← getitem palette color_idx;
    mret (Next (img_data ++ [p])).

(** Lines 69-74: the 16-colour loop body. *)
Definition body16 (width height : Z) (pixels : list byte) (palette : list pixel)
    (i : Z) (img_data : list pixel) : result (flow (list pixel)) :=
  if i =? (width * height) `div` 2 then Ok (Break img_data)
  else
    byte_value ← getbyte pixels i;
    p0 ← getitem palette (Z.land byte_value 0xF);
    p1 ← getitem palette (Z.land (Z.shiftr byte_value 4) 0xF);
    mret (Next ((img_data ++ [p0]) ++ [p1])).

(** Lines 77-78: the direct-colour loop body. *)
Definition body0 (pixels : list byte)
    (i : Z) (img_data : list pixel) : result (flow (list pixel)) :=
  r ← getbyte pixels i;
  g ← getbyte pixels (i + 1);
  b ← getbyte pixels (i + 2);
  a ← getbyte pixels (i + 3);
  mret (Next (img_data ++ [(r, g, b, alpha a)])).

(** Lines 60-78. *)
Definition decode_pixels (cont width height pixel_data_size : Z)
    (pixels : list byte) (palette : list pixel) : result (list pixel) :=
  if cont =? 256 then
    for_loop (range pixel_data_size) (body256 width height pixels palette) []
  else if cont =? 16 then
    for_loop (range pixel_data_size) (body16 width height pixels palette) []
  else if cont =? 0 then
    for_loop (range3 0 pixel_data_size 4) (body0 pixels) []
  else Ok [].

(** What one call leaves behind: the lines printed and the PNG written. *)
Record outcome := Outcome {
  printed : list message;
  saved : option image
}.

(** Lines 6-87 ([data] is the content of the input file). *)
Definition process_tm2_file (data : list byte) : result outcome :=
  if len data <? 0x40 then Ok (Outcome [Msg_file_too_small] None)
  else
    width ← unpack_H (slice data 0x24 0x26);
    height ← unpack_H (slice data 0x26 0x28);
    pixel_data_size ← unpack_I (slice data 0x18 0x1C);
    let pixels := slice data 0x40 (0x40 + pixel_data_size) in
    let palette_data := slice_from data (0x40 + pixel_data_size) in
    cont ← unpack_H (slice data 0x1E 0x20);
    original_palette ← read_palette palette_data cont;
    let palette := resolve_palette cont original_palette in
    let img := Image_new width height in
    img_data ← decode_pixels cont width height pixel_data_size pixels palette;
    img ← putdata img img_data;
    _ ← save (im_width img) (im_height img);
    mret (Outcome [Msg_converted] (Some img)).

(** Lines 99-109: the batch loop over the [.tm2] files of a directory,
    given here by their contents. *)
Record batch := Batch {
  log : list message;
  written : list image;
  count : Z
}.

Definition main_step (st : batch) (data : list byte) : batch :=
  match process_tm2_file data with
  | Ok o =>
      Batch (log st ++ printed o)
            (written st ++ match saved o with Some i => [i] | None => [] end)
            (count st + 1)
  | Raise e => Batch (log st ++ [Msg_file_error e]) (written st) (count st)
  end.

Definition main (files : list (list byte)) : batch :=
  let st := foldl main_step (Batch [] [] 0) files in
  Batch (log st ++ [Msg_summary (count st)]) (written st) (count st).

End Legacy.

(* ================================================================== *)
(** * tim2_eva.py: the chained multi-picture decoder                  *)
(* ================================================================== *)

Module Eva.

(** Code that prints and may raise: the lines printed so far, and the
    value returned or the exception raised. *)
Definition io (A : Type) : Type := list message * result A.

#[global] Instance io_ret : MRet io := fun _ a => ([], Ok a).
#[global] Instance io_bind : MBind io := fun _ _ f m =>
  match m.2 with
  | Ok a => (m.1 ++ (f a).1, (f a).2)
  | Raise e => (m.1, Raise e)
  end.

Definition print (m : message) : io unit := ([m], Ok tt).
Definition lift {A} (r : result A) : io A := ([], r).

(** The dictionary built by [_parse_picture_header_at]. *)
Record picture_header := PictureHeader {
  total_size : Z;
  palette_size : Z;
  image_size_b : Z;
  header_size : Z;
  color_count : Z;
  format : Z;
  mipmap_count : Z;
  clut_format : Z;
  bpp : Z;
  width : Z;
  height : Z;
  image_offset : Z;
  palette_offset : Z
}.

(** The fields set by [_parse_header]. *)
Record container_header := ContainerHeader {
  magic : string;
  version : Z;
  picture_count : Z;
  total_width : Z;
  total_height : Z
}.

(** A constructed [TIM2Parser]. *)
Record parser := Parser {
  data : list byte;
  container : container_header;
  picture_headers : list (Z * picture_header)
}.

(** [bytes.decode('ascii', errors='ignore')]: bytes above 0x7F are dropped. *)
Definition decode_ascii_ignore (bs : list byte) : string :=
  string_of_list_byte (filter (fun b => byte_val b < 128) bs).

(** Lines 17-24. *)
Definition _parse_header (data : list byte) : result container_header :=
  let magic := decode_ascii_ignore (slice data 0 4) in
  if negb (String.eqb magic "TIM2") then Raise ValueError_not_tim2
  else
    version ← unpack_H (slice data 0x04 0x06);
    picture_count ← unpack_H (slice data 0x06 0x08);
    total_width ← unpack_H (slice data 0x08 0x0A);
    total_height ← unpack_H (slice data 0x0A 0x0C);
    mret (ContainerHeader magic version picture_count total_width total_height).

(** Lines 37-56. *)
Definition _parse_picture_header_at (data : list byte) (offset : Z)
  : result picture_header :=
  total_size ← unpack_I (slice data (offset + 0x00) (offset + 0x04));
  palette_size ← unpack_I (slice data (offset + 0x04) (offset + 0x08));
  image_size_b ← unpack_I (slice data (offset + 0x08) (offset + 0x0C));
  header_size ← unpack_H (slice data (offset + 0x0C) (offset + 0x0E));
  let header_size := if header_size =? 0 then 0x80 else header_size in
  color_count ← unpack_H (slice data (offset + 0x0E) (offset + 0x10));
  format ← getbyte data (offset + 0x10);
  mipmap_count ← getbyte data (offset + 0x11);
  clut_format ← getbyte data (offset + 0x12);
  bpp ← getbyte data (offset + 0x13);
  width ← unpack_H (slice data (offset + 0x14) (offset + 0x16));
  height ← unpack_H (slice data (offset + 0x16) (offset + 0x18));
  let image_offset := offset + header_size in
  let palette_offset := image_offset + image_size_b in
  mret (PictureHeader total_size palette_size image_size_b header_size
          color_count format mipmap_count clut_format bpp width height
          image_offset palette_offset).

(** Lines 30-35: one iteration; the state is [(picture_headers, offset)]. *)
Definition find_step (data : list byte) (_ : Z)
    (st : list (Z * picture_header) * Z)
  : result (flow (list (Z * picture_header) * Z)) :=
  let '(picture_headers, offset) := st in
  if len data <? offset + 0x28 then Ok (Break st)
  else
    header ← _parse_picture_header_at data offset;
    mret (Next (picture_headers ++ [(offset, header)],
                offset + total_size header)).

(** Lines 26-35. *)
Definition _find_picture_headers (data : list byte) (picture_count : Z)
  : result (list (Z * picture_header)) :=
  st ← for_loop (range picture_count) (find_step data) ([], 0x80);
  mret (st.1).

(** Lines 10-15 ([data] is the content of the file). *)
Definition TIM2Parser (data : list byte) : result parser :=
  hdr ← _parse_header data;
  headers ← _find_picture_headers data (picture_count hdr);
  mret (Parser data hdr headers).

(** Lines 82-84: [clip(minimum(a*2 - 1, 255), 0, 255)]. *)
Definition alpha (a : Z) : Z := Z.min (Z.max (Z.min (a * 2 - 1) 255) 0) 255.

(** Lines 77-85: [frombuffer(buf).reshape((hgt, w, 4))] as the row-major
    list of its 4-channel cells, then the alpha channel rewritten. *)
Fixpoint cells (buf : list byte) : list pixel :=
  match buf with
  | r :: g :: b :: a :: rest =>
      (byte_val r, byte_val g, byte_val b, byte_val a) :: cells rest
  | _ => []
  end.

Definition reshape (buf : list byte) (hgt w : Z) : result (list pixel) :=
  if len buf =? hgt * w * 4 then Ok (cells buf) else Raise ValueError_reshape.

Definition set_alpha (arr : list pixel) : list pixel :=
  (fun '(r, g, b, a) => (r, g, b, alpha a)) <$> arr.

(** Lines 58-87. *)
Definition extract_image (self : parser) (index : Z) : io (option image) :=
  if len (picture_headers self) <=? index then mret None
  else
    oh ← lift (getitem (picture_headers self) index);
    let h := oh.2 in
    let fmt := format h in
    let w := width h in
    let hgt := height h in
    let data_off := image_offset h in
    if negb ((fmt =? 0x00) || (fmt =? 0x03)) then
      _ ← print (Msg_skip_unsupported index fmt); mret None
    else
      let pixel_bytes := w * hgt * 4 in
      if len (data self) <? data_off + pixel_bytes then
        _ ← print (Msg_data_overflow index); mret None
      else
        let buf := slice (data self) data_off (data_off + pixel_bytes) in
        arr ← lift (reshape buf hgt w);
        mret (Some (Image w hgt (set_alpha arr))).

(** Lines 89-94. *)
Fixpoint extract_loop (self : parser) (indices : list Z)
    (imgs : list (option image)) : io (list (option image)) :=
  match indices with
  | [] => mret imgs
  | i :: rest =>
      img ← extract_image self i;
      extract_loop self rest (imgs ++ [img])
  end.

Definition extract_all_images (self : parser) : io (list (option image)) :=
  extract_loop self (range (len (picture_headers self))) [].

(** Line 98: [[im.height for im in images if im is not None]]. *)
Definition present_heights (images : list (option image)) : list Z :=
  omap (fun im => im_height <$> im) images.

(** Line 103. *)
Definition typical : list Z := [448; 480; 512; 384; 320; 256].

(** Lines 105-109: running sums of the first (at most six) heights. *)
Definition prefix_sums (heights : list Z) : list Z :=
  (foldl (fun '(s, prefix) h => let s := s + h in (s, prefix ++ [s]))
         (0, []) (slice heights 0 (Z.min 6 (len heights)))).2.

(** Lines 112-117: merge, keeping the first occurrence of each positive
    value; the state is [(cand, seen)]. *)
Definition add_candidate (st : list Z * gset Z) (v : Z) : list Z * gset Z :=
  let '(cand, seen) := st in
  if (0 <? v) && negb (bool_decide (v ∈ seen))
  then (cand ++ [v], {[v]} ∪ seen)
  else (cand, seen).

Definition candidates (heights : list Z) : list Z :=
  (foldl add_candidate ([], ∅) (typical ++ prefix_sums heights)).1.

(** Lines 119-127, with the accumulator made a parameter. *)
Fixpoint can_partition_from (H acc : Z) (heights : list Z) : bool :=
  match heights with
  | [] => acc =? 0
  | h :: rest =>
      let acc := acc + h in
      if acc =? H then can_partition_from H 0 rest
      else if H <? acc then false
      else can_partition_from H acc rest
  end.

Definition can_partition (heights : list Z) (H : Z) : bool :=
  can_partition_from H 0 heights.

(** Lines 96-134. *)
Definition _infer_column_height (images : list (option image)) : Z :=
  let heights := present_heights images in
  match heights with
  | [] => 0
  | _ =>
      match List.find (can_partition heights) (candidates heights) with
      | Some H => H
      | None => sum heights
      end
  end.

(** The local variables of the placement pass of [compose_columns]. *)
Record layout := Layout {
  positions : list (Z * Z);
  col_widths : list Z;
  x : Z;
  col_y : Z;
  col_w : Z
}.

(** Lines 162-165 and 173-176: settle the current column, open the next. *)
Definition close_column (st : layout) : layout :=
  Layout (positions st) (col_widths st ++ [col_w st]) (x st + col_w st) 0 0.

(** Lines 157-176: one iteration of the placement loop. *)
Definition place (col_target_h : Z) (st : layout) (im : option image) : layout :=
  match im with
  | None => st
  | Some im =>
      let st :=
        if (0 <? col_y st) && (col_target_h <? col_y st + im_height im)
        then close_column st else st in
      let st :=
        Layout (positions st ++ [(x st, col_y st)]) (col_widths st) (x st)
               (col_y st + im_height im) (Z.max (col_w st) (im_width im)) in
      if col_y st =? col_target_h then close_column st else st
  end.

(** Lines 151-181. *)
Definition place_all (col_target_h : Z) (images : list (option image)) : layout :=
  let st := foldl (place col_target_h) (Layout [] [] 0 0 0) images in
  if (0 <? col_y st) || ((0 <? col_w st) && bool_decide (col_widths st = []))
  then close_column st else st.

(** [max(...)] of a sequence. *)
Definition max_of (l : list Z) : result Z :=
  match l with
  | [] => Raise ValueError_max_empty
  | v :: rest => Ok (foldl Z.max v rest)
  end.

(** The canvas: its size and the pastes made onto the transparent
    background, in order. *)
Record canvas := Canvas {
  canvas_w : Z;
  canvas_h : Z;
  pastes : list (image * (Z * Z))
}.

(** The pixel of [im] at column [u], row [v], if inside the image. *)
Definition image_pixel (im : image) (u v : Z) : option pixel :=
  if (0 <=? u) && (u <? im_width im) && (0 <=? v) && (v <? im_height im)
  then im_pixels im !! Z.to_nat (v * im_width im + u)
  else None.

(** What the canvas shows at [(px, py)]: the last paste covering it, or
    the transparent background. *)
Definition canvas_pixel (c : canvas) (px py : Z) : pixel :=
  foldl (fun p '(im, (ox, oy)) => default p (image_pixel im (px - ox) (py - oy)))
        transparent (pastes c).

(** Lines 136-205. *)
Definition compose_columns (self : parser) (images : list (option image))
  : io canvas :=
  let total_width := total_width (container self) in
  let total_height := total_height (container self) in
  let col_target_h :=
    if 0 <? total_height then total_height else _infer_column_height images in
  let st := place_all col_target_h images in
  let computed_w :=
    if bool_decide (col_widths st = []) then 0 else sum (col_widths st) in
  size ← lift (
    if (0 <? total_width) && (0 <? total_height)
    then Ok (total_width, total_height)
    else
      canvas_w ← (if 0 <? computed_w then Ok computed_w
                  else max_of (omap (fun im => im_width <$> im) images));
      mret (canvas_w, col_target_h));
  let canvas :=
    Canvas size.1 size.2
      (omap (fun '(im, pos) => (fun i => (i, pos)) <$> im)
            (zip images (positions st))) in
  _ ← (if (0 <? total_width) && negb (canvas_w canvas =? total_width)
       then print (Msg_warn_width (canvas_w canvas) total_width) else mret tt);
  _ ← (if (0 <? total_height) && negb (canvas_h canvas =? total_height)
       then print (Msg_warn_height (canvas_h canvas) total_height) else mret tt);
  mret canvas.

(** What [process_tex_file] leaves behind. *)
Record tex_outcome := TexOutcome {
  tex_printed : list message;
  tex_parts : list image;
  tex_combined : option canvas
}.

(** Lines 214-219: the part files, written in order until one cannot
    be; [written] are the parts written so far, which stay on disk when
    a later one raises. *)
Fixpoint save_parts_loop (imgs : list (option image)) (written : list image)
  : list image * result unit :=
  match imgs with
  | [] => (written, Ok tt)
  | None :: rest => save_parts_loop rest written
  | Some im :: rest =>
      match save (im_width im) (im_height im) with
      | Ok _ => save_parts_loop rest (written ++ [im])
      | Raise e => (written, Raise e)
      end
  end.

(** Lines 208-227: everything runs under one [try]; any exception ends
    the file with an [ERR] line, and what was written before stays. *)
Definition process_tex_file (data : list byte) (save_parts : bool) : tex_outcome :=
  match TIM2Parser data with
  | Raise e => TexOutcome [Msg_err e] [] None
  | Ok parser =>
      let '(out1, r1) := extract_all_images parser in
      match r1 with
      | Raise e => TexOutcome (out1 ++ [Msg_err e]) [] None
      | Ok imgs =>
          let '(parts, r) :=
            if save_parts then save_parts_loop imgs [] else ([], Ok tt) in
          match r with
          | Raise e => TexOutcome (out1 ++ [Msg_err e]) parts None
          | Ok _ =>
              let '(out2, r2) := compose_columns parser imgs in
              match r2 with
              | Raise e => TexOutcome (out1 ++ out2 ++ [Msg_err e]) parts None
              | Ok combined =>
                  match save (canvas_w combined) (canvas_h combined) with
                  | Raise e =>
                      TexOutcome (out1 ++ out2 ++ [Msg_err e]) parts None
                  | Ok _ =>
                      TexOutcome (out1 ++ out2 ++ [Msg_ok]) parts (Some combined)
                  end
              end
          end
      end
  end.

End Eva.

(* ================================================================== *)
(** * Sample files                                                    *)
(* ================================================================== *)

Module Samples.

Definition byte_of (v : Z) : byte :=
  default x00 (Byte.of_N (Z.to_N (v `mod` 256))).

(** [v] on [n] bytes, least significant byte first. *)
Fixpoint le_bytes (n : nat) (v : Z) : list byte :=
  match n with
  | O => []
  | S n' => byte_of v :: le_bytes n' (v / 256)
  end.

Definition zeros (n : nat) : list byte := replicate n x00.

(** A legacy [.tm2] file: the 0x40-byte header, then pixel and palette
    bytes. *)
Definition legacy_file (w h pixel_data_size cont : Z)
    (pixels palette : list byte) : list byte :=
  zeros 0x18 ++ le_bytes 4 pixel_data_size ++ zeros 2 ++ le_bytes 2 cont
  ++ zeros 4 ++ le_bytes 2 w ++ le_bytes 2 h ++ zeros 0x18
  ++ pixels ++ palette.

(** The 0x80-byte head of a chained [.tex] file. *)
Definition tex_head (magic : list byte) (count total_w total_h : Z) : list byte :=
  magic ++ le_bytes 2 0 ++ le_bytes 2 count ++ le_bytes 2 total_w
  ++ le_bytes 2 total_h ++ zeros (0x80 - 12).

(** One picture block of a chained file with a 0x30-byte header. *)
Definition tex_picture (fmt w h : Z) (pixels : list byte) : list byte :=
  le_bytes 4 (0x30 + len pixels) ++ le_bytes 4 0 ++ le_bytes 4 (len pixels)
  ++ le_bytes 2 0x30 ++ le_bytes 2 0 ++ [byte_of fmt] ++ zeros 3
  ++ le_bytes 2 w ++ le_bytes 2 h ++ zeros 0x18 ++ pixels.

Definition TIM2_tag : list byte := ["T"; "I"; "M"; "2"]%byte.

(** A 16-entry palette whose entry [k] is [(k, k, k, 255)]. *)
Definition grey16 : list byte :=
  flat_map (fun k => [byte_of k; byte_of k; byte_of k; x80]) (seqZ 0 16).

(** 0x40 bytes announcing a 16-entry palette that is not there. *)
Definition legacy_no_palette : list byte := legacy_file 1 1 0 16 [] [].

(** A 3x1 picture with 16 colours: two index bytes, three pixels. *)
Definition legacy_odd16 : list byte :=
  legacy_file 3 1 2 16 [x21; x03] grey16.


(** A valid direct-colour picture (1x1), used as a batch neighbour. *)
Definition legacy_direct : list byte :=
  legacy_file 1 1 4 0 [x0a; x14; x1e; xc8] [].

(** A chained file with three pictures: an unsupported format, a good
    1x1 picture and one whose pixels are cut off. *)
Definition tex_mixed : list byte :=
  tex_head TIM2_tag 3 0 0
  ++ tex_picture 5 1 1 [x01; x02; x03; x04]
  ++ tex_picture 0 1 1 [x0a; x14; x1e; xc8]
  ++ tex_picture 3 2 2 [x01; x02; x03; x04].

(** A chained file with a 1x1 picture followed by a picture of width 0
    and height 3. *)
Definition tex_empty_second : list byte :=
  tex_head TIM2_tag 2 0 0
  ++ tex_picture 0 1 1 [x0a; x14; x1e; xc8]
  ++ tex_picture 0 0 3 [].

(** A chained file whose three picture blocks are 0x34, 0x38 and 0x34
    bytes long. *)
Definition tex_uneven : list byte :=
  tex_head TIM2_tag 3 0 0
  ++ tex_picture 0 1 1 [x0a; x14; x1e; xc8]
  ++ tex_picture 0 2 1 [x01; x02; x03; x04; x05; x06; x07; x08]
  ++ tex_picture 0 1 1 [x0b; x15; x1f; xc9].

(** A chained file announcing three pictures but holding only one. *)
Definition tex_truncated : list byte :=
  tex_head TIM2_tag 3 0 0
  ++ tex_picture 0 1 1 [x0a; x14; x1e; xc8].

(** A chained file announcing three pictures whose first block has a
    total size of 0. *)
Definition tex_zero_size : list byte :=
  tex_head TIM2_tag 3 0 0 ++ zeros 0x30.

(** A chained file whose only picture is unsupported. *)
Definition tex_all_skipped (total_w total_h : Z) : list byte :=
  tex_head TIM2_tag 1 total_w total_h
  ++ tex_picture 5 1 1 [x01; x02; x03; x04].

(** A 256-entry palette whose entry [k] is [(k, k, k, 255)]. *)
Definition grey256 : list byte :=
  flat_map (fun k => [byte_of k; byte_of k; byte_of k; x80]) (seqZ 0 256).

(** A 2x2 picture with 256 colours and one byte of trailing padding. *)
Definition legacy_256 : list byte :=
  legacy_file 2 2 5 256 [x00; x08; x10; xff; x07] grey256.

(** A 2x1 picture with 16 colours. *)
Definition legacy_16 : list byte :=
  legacy_file 2 1 1 16 [x21] grey16.

(** A 16-entry palette whose entry [k] is [(k, k, k)] with stored alpha 0. *)
Definition clear16 : list byte :=
  flat_map (fun k => [byte_of k; byte_of k; byte_of k; x00]) (seqZ 0 16).

(** A 2x1 picture with 16 colours, all of stored alpha 0. *)
Definition legacy_16_clear : list byte :=
  legacy_file 2 1 1 16 [x21] clear16.


(** A picture of width 0 and height 5 whose palette count is 2. *)
Definition legacy_empty : list byte :=
  legacy_file 0 5 0 2 [] (zeros 8).

(** A 2x1 direct-colour picture holding one pixel only. *)
Definition legacy_direct_short : list byte :=
  legacy_file 2 1 4 0 [x0a; x14; x1e; xc8] [].

(** A direct-colour picture whose block is five bytes long. *)
Definition legacy_direct_ragged : list byte :=
  legacy_file 2 1 5 0 [x0a; x14; x1e; xc8; x01] [].

(** Three decoded pictures of height 100 and widths 64, 32, 16. *)
Definition three_images : list (option image) :=
  [Some (Image 64 100 []); Some (Image 32 100 []); Some (Image 16 100 [])].

Definition no_size : Eva.parser :=
  Eva.Parser [] (Eva.ContainerHeader "TIM2" 0 3 0 0) [].

(** A parsed container that declares a width of 20 and no height. *)
Definition width_only : Eva.parser :=
  Eva.Parser [] (Eva.ContainerHeader "TIM2" 0 3 20 0) [].

(** Two pictures of height 100 behind one absent entry. *)
Definition absent_first : list image :=
  [Image 64 100 []; Image 32 100 []].

(** Three pictures that fill two columns of height 30, and one absent
    entry. *)
Definition two_columns : list (option image) :=
  [Some (Image 8 10 []); None; Some (Image 4 20 []); Some (Image 6 30 [])].

End Samples.

(* ================================================================== *)
(** * Notions used to state the properties                            *)
(* ================================================================== *)

Module Notions.
Import Eva.

(** The unsigned little-endian field of [n] bytes at offset [o]. *)
Definition field (data : list byte) (o n : Z) : Z :=
  le_value (slice data o (o + n)).

(** The picture header record of the file at offset [o], in the words of
    the specification: every field read at its fixed place, a stored
    header size of 0 taken as 0x80, and the two derived offsets. *)
Definition header_at (data : list byte) (o : Z) : picture_header :=
  let stored_header_size := field data (o + 0x0C) 2 in
  let header_size := if stored_header_size =? 0 then 0x80 else stored_header_size in
  PictureHeader (field data o 4) (field data (o + 0x04) 4) (field data (o + 0x08) 4)
    header_size (field data (o + 0x0E) 2)
    (field data (o + 0x10) 1) (field data (o + 0x11) 1)
    (field data (o + 0x12) 1) (field data (o + 0x13) 1)
    (field data (o + 0x14) 2) (field data (o + 0x16) 2)
    (o + header_size) (o + header_size + field data (o + 0x08) 4).

(** [hs] is a chain of picture headers starting at offset [o]: each one
    is what the header parser reads at its own offset, fits in the file
    with its 0x28 bytes, and is followed at [o + total_size]. *)
Fixpoint chained (data : list byte) (o : Z) (hs : list (Z * picture_header))
  : Prop :=
  match hs with
  | [] => True
  | (o', h) :: rest =>
      o' = o /\ o + 0x28 <= len data
      /\ _parse_picture_header_at data o = Ok h
      /\ chained data (o + total_size h) rest
  end.

(** Where the header after the chain [hs] would start. *)
Fixpoint end_offset (o : Z) (hs : list (Z * picture_header)) : Z :=
  match hs with
  | [] => o
  | (_, h) :: rest => end_offset (o + total_size h) rest
  end.

(** A picture's pixel format is one the chained decoder handles. *)
Definition supported (h : picture_header) : Prop :=
  format h = 0x00 \/ format h = 0x03.

(** The pixel range computed from a header runs past the buffer. *)
Definition overflows (data : list byte) (h : picture_header) : Prop :=
  len data < image_offset h + width h * height h * 4.

(** What slot [index] with header [h] contributes, as a function of the
    file and of that header alone: the lines printed and the image. *)
Definition decode_slot (data : list byte) (index : Z) (h : picture_header)
  : list message * option image :=
  if negb ((format h =? 0x00) || (format h =? 0x03))
  then ([Msg_skip_unsupported index (format h)], None)
  else if len data <? image_offset h + width h * height h * 4
  then ([Msg_data_overflow index], None)
  else ([], Some (Image (width h) (height h)
                    (set_alpha (cells (slice data (image_offset h)
                       (image_offset h + width h * height h * 4)))))).

(** The first [count] consecutive chunks of [size] elements of [l]. *)
Fixpoint chunks {A} (size count : nat) (l : list A) : list (list A) :=
  match count with
  | O => []
  | S c => take size l :: chunks size c (drop size l)
  end.

(** A group of 32 split into four sub-groups of 8 and put back together
    as sub1, sub3, sub2, sub4. *)
Definition swap_middle {A} (group : list A) : list A :=
  match chunks 8 4 group with
  | [sub1; sub2; sub3; sub4] => sub1 ++ sub3 ++ sub2 ++ sub4
  | _ => group
  end.

(** The reorder in the words of the specification: eight groups of 32 in
    original order, each with its two middle sub-groups exchanged. *)
Definition reorder_spec {A} (palette : list A) : list A :=
  concat (swap_middle <$> chunks 32 8 palette).


(** Entry [index] of a palette ((0,0,0,0) if there is none). *)
Definition colour (palette : list pixel) (index : Z) : pixel :=
  default transparent (palette !! Z.to_nat index).

(** What one index byte contributes to the output: one pixel with 256
    colours, two pixels (low nibble first) with 16 colours. *)
Definition emit256 (palette : list pixel) (c : byte) : list pixel :=
  [colour palette (byte_val c)].

Definition emit16 (palette : list pixel) (c : byte) : list pixel :=
  [colour palette (Z.land (byte_val c) 0xF);
   colour palette (Z.land (Z.shiftr (byte_val c) 4) 0xF)].

(** The running sums [s + h1], [s + h1 + h2], ... of a list. *)
Fixpoint running_sums (s : Z) (l : list Z) : list Z :=
  match l with
  | [] => []
  | h :: rest => (s + h) :: running_sums (s + h) rest
  end.

(** [l] without the values already in [seen] and without repetitions,
    each value kept at its first occurrence. *)
Fixpoint keep_first (seen : list Z) (l : list Z) : list Z :=
  match l with
  | [] => []
  | v :: rest =>
      if decide (v ∈ seen) then keep_first seen rest
      else v :: keep_first (v :: seen) rest
  end.

(** [H] is the first element of [cand] accepted by [accept]. *)
Definition first_accepted (accept : Z -> bool) (cand : list Z) (H : Z) : Prop :=
  exists before after,
    cand = before ++ H :: after
    /\ accept H = true
    /\ Forall (fun c => accept c = false) before.

(** Every entry of a decoded-image sequence is absent. *)
Definition all_absent (images : list (option image)) : Prop :=
  Forall (fun im => im = None) images.

(** Headers whose sizes and pixel offset are non-negative, as every
    parsed header is. *)
Definition sane (self : parser) : Prop :=
  forall o h, (o, h) ∈ picture_headers self ->
    0 <= width h /\ 0 <= height h /\ 0 <= image_offset h.

Definition slot (self : parser) (index : Z) : list message * option image :=
  match picture_headers self !! Z.to_nat index with
  | Some (_, h) => decode_slot (data self) index h
  | None => ([], None)
  end.

(** The 4-byte cells of a buffer as the legacy decoder turns them into
    palette entries and direct-colour pixels: R, G, B as stored, alpha
    through the legacy formula. *)
Definition legacy_cells (buf : list byte) : list pixel :=
  (fun '(r, g, b, a) => (r, g, b, Legacy.alpha a)) <$> cells buf.

(** Alpha correction in the words of the specification:
    [min(a * 2 - 1, 255)], clamped below at 0. *)
Definition correct (a : Z) : Z := Z.max (Z.min (a * 2 - 1) 255) 0.

(** The 4-byte cells of a buffer as pixels with corrected alpha: R, G, B
    as stored, alpha through [correct]. *)
Definition corrected_cells (buf : list byte) : list pixel :=
  (fun '(r, g, b, a) => (r, g, b, correct a)) <$> cells buf.

(** A picture that has pixels. *)
Definition nonempty (im : image) : Prop := 0 < im_width im /\ 0 < im_height im.

(** No picture of the file that the chained decoder reads is empty. *)
Definition pictures_nonempty (self : parser) : Prop :=
  forall (i : nat) o h,
    picture_headers self !! i = Some (o, h) ->
    supported h -> ~ overflows (data self) h ->
    0 < width h /\ 0 < height h.

(** The images of a decoded sequence that are there, in order. *)
Definition present (images : list (option image)) : list image :=
  omap id images.

(** A picture placed at [pos] lies inside a [w] x [h] rectangle. *)
Definition inside (w h : Z) (im : image) (pos : Z * Z) : Prop :=
  0 <= pos.1 /\ 0 <= pos.2
  /\ pos.1 + im_width im <= w /\ pos.2 + im_height im <= h.

(** The state of the placement loop after the pictures [placed]: their
    positions are recorded in order, [x] is the width of the closed
    columns, an empty column has no width yet, and every picture placed
    so far ends inside the closed columns plus the open one. *)
Definition layout_ok (H : Z) (st : layout) (placed : list image) : Prop :=
  sum (col_widths st) = x st /\ 0 <= x st /\ 0 <= col_w st /\ 0 <= col_y st
  /\ (col_y st = 0 -> col_w st = 0)
  /\ Forall2 (inside (x st + col_w st) H) placed (positions st).

(** A picture sequence whose present pictures have a positive height and
    a non-negative width. *)
Definition proper (images : list (option image)) : Prop :=
  Forall (fun im => 0 < im_height im /\ 0 <= im_width im) (present images).

(** The column height [compose_columns] works with. *)
Definition column_height (self : parser) (images : list (option image)) : Z :=
  if 0 <? total_height (container self) then total_height (container self)
  else _infer_column_height images.

(** Both canvas sizes are declared in the container header. *)
Definition declared (self : parser) : Prop :=
  0 < total_width (container self) /\ 0 < total_height (container self).

(** The pastes [compose_columns] makes: entry [j] of the sequence, when
    present, goes where entry [j] of the position list says. *)
Definition pasted (images : list (option image)) (positions : list (Z * Z))
  : list (image * (Z * Z)) :=
  omap (fun '(im, pos) => (fun i => (i, pos)) <$> im) (zip images positions).

(** Picture [b], placed after picture [a], starts to the right of [a] or,
    in the same column, below it: the two rectangles share no pixel. *)
Definition apart (a b : image * (Z * Z)) : Prop :=
  a.2.1 + im_width a.1 <= b.2.1
  \/ (a.2.1 = b.2.1 /\ a.2.2 + im_height a.1 <= b.2.2).

Definition placed_apart (ps : list (image * (Z * Z))) : Prop :=
  forall (i j : nat) a b,
    (i < j)%nat -> ps !! i = Some a -> ps !! j = Some b -> apart a b.

(** The state of the placement loop after the pictures of [ps] were put
    at the positions of [ps]: each one lies left of the open column or
    in it above [col_y], and they are pairwise apart. *)
Definition layout_sep (st : layout) (ps : list (image * (Z * Z))) : Prop :=
  positions st = ps.*2 /\ 0 <= col_w st /\ 0 <= col_y st
  /\ Forall (fun p => p.2.1 + im_width p.1 <= x st
                     \/ (p.2.1 = x st /\ p.2.2 + im_height p.1 <= col_y st
                         /\ im_width p.1 <= col_w st)) ps
  /\ placed_apart ps.

(** [runs] cuts [heights] into consecutive non-empty runs that each add
    up to [H]. *)
Definition tiles (H : Z) (heights : list Z) (runs : list (list Z)) : Prop :=
  concat runs = heights /\ Forall (fun r => r <> [] /\ sum r = H) runs.

(** Picture [i] of the file has a supported format and its pixels lie
    inside the file. *)
Definition decodable (self : parser) (i : nat) : Prop :=
  exists o h, picture_headers self !! i = Some (o, h)
              /\ supported h /\ ~ overflows (data self) h.

(** A pixel whose four channels are bytes. *)
Definition rgba_bytes (p : pixel) : Prop :=
  let '(r, g, b, a) := p in
  0 <= r <= 255 /\ 0 <= g <= 255 /\ 0 <= b <= 255 /\ 0 <= a <= 255.

(** The legacy decode of a file ends without an exception. *)
Definition converts (data : list byte) : bool :=
  match Legacy.process_tm2_file data with
  | Ok _ => true
  | Raise _ => false
  end.

(** What one file adds to the log and to the images of a batch. *)
Definition file_lines (data : list byte) : list message :=
  match Legacy.process_tm2_file data with
  | Ok o => Legacy.printed o
  | Raise e => [Msg_file_error e]
  end.

Definition file_images (data : list byte) : list image :=
  match Legacy.process_tm2_file data with
  | Ok o => match Legacy.saved o with Some i => [i] | None => [] end
  | Raise _ => []
  end.

(** The legacy decode of a file ends with a PNG written. *)
Definition writes (data : list byte) : bool :=
  converts data && (0x40 <=? len data).

(** A raster of [n] pixels after [putdata]: the decoded pixels first,
    the untouched (transparent) rest after them. *)
Definition padded (n : Z) (decoded : list pixel) : list pixel :=
  decoded ++ replicate (Z.to_nat n - length decoded) transparent.

End Notions.

(* ================================================================== *)
(** * Properties of the runtime fragments                              *)
(* ================================================================== *)

Section Runtime.
Context {A : Type}.
Implicit Types (l : list A) (a b i : Z).

Lemma byte_val_range (c : byte) : 0 <= byte_val c < 256.
Proof.
  unfold byte_val. pose proof (Byte.to_N_bounded c). lia.
Qed.

Lemma le_value_nonneg (bs : list byte) : 0 <= le_value bs.
Proof.
  induction bs as [|c bs IH]; simpl; [lia|].
  pose proof (byte_val_range c). lia.
Qed.

Lemma length_slice l a b :
  length (slice l a b) = (Z.to_nat (b - a) `min` (length l - Z.to_nat a))%nat.
Proof. unfold slice. by rewrite length_take, length_drop. Qed.

Lemma len_slice_inside l a b :
  0 <= a -> a <= b -> b <= len l -> len (slice l a b) = b - a.
Proof. unfold len. intros. rewrite length_slice. lia. Qed.

Lemma lookup_slice l a b (k : nat) :
  (k < Z.to_nat (b - a))%nat -> slice l a b !! k = l !! (Z.to_nat a + k)%nat.
Proof.
  intros Hk. unfold slice. rewrite lookup_take_lt by done. apply lookup_drop.
Qed.

Lemma getitem_inside l i :
  0 <= i < len l -> exists v, getitem l i = Ok v /\ l !! Z.to_nat i = Some v.
Proof.
  unfold len, getitem. intros Hi.
  destruct (Z.ltb_spec i 0); [lia|].
  destruct (Z.ltb_spec i 0); [lia|].
  destruct (l !! Z.to_nat i) as [v|] eqn:E; [by exists v|].
  apply lookup_ge_None in E. lia.
Qed.

Lemma getitem_outside l i : len l <= i -> getitem l i = Raise IndexError.
Proof.
  unfold len, getitem. intros Hi.
  destruct (Z.ltb_spec i 0); [lia|].
  destruct (Z.ltb_spec i 0); [lia|].
  destruct (l !! Z.to_nat i) as [v|] eqn:E; [|done].
  apply lookup_lt_Some in E. lia.
Qed.

Lemma getitem_only_IndexError l i e : getitem l i = Raise e -> e = IndexError.
Proof.
  unfold getitem. repeat case_match; congruence.
Qed.
End Runtime.

Lemma getbyte_inside (l : list byte) i :
  0 <= i < len l -> exists c, getbyte l i = Ok (byte_val c) /\ l !! Z.to_nat i = Some c.
Proof.
  intros Hi. destruct (getitem_inside l i Hi) as (c & E & Hc).
  exists c. unfold getbyte. by rewrite E.
Qed.

Lemma getbyte_outside (l : list byte) i : len l <= i -> getbyte l i = Raise IndexError.
Proof. intros Hi. unfold getbyte. by rewrite getitem_outside. Qed.

Lemma unpack_H_inside (l : list byte) a :
  0 <= a -> a + 2 <= len l ->
  unpack_H (slice l a (a + 2)) = Ok (le_value (slice l a (a + 2))).
Proof.
  intros Ha Hb. unfold unpack_H. case_decide as E; [done|].
  exfalso. apply E. rewrite length_slice. unfold len in Hb. lia.
Qed.

Lemma unpack_I_inside (l : list byte) a :
  0 <= a -> a + 4 <= len l ->
  unpack_I (slice l a (a + 4)) = Ok (le_value (slice l a (a + 4))).
Proof.
  intros Ha Hb. unfold unpack_I. case_decide as E; [done|].
  exfalso. apply E. rewrite length_slice. unfold len in Hb. lia.
Qed.

Lemma unpack_H_only_StructError bs e : unpack_H bs = Raise e -> e = StructError.
Proof. unfold unpack_H. case_decide; congruence. Qed.

Lemma unpack_I_only_StructError bs e : unpack_I bs = Raise e -> e = StructError.
Proof. unfold unpack_I. case_decide; congruence. Qed.

Lemma unpack_H_nonneg bs v : unpack_H bs = Ok v -> 0 <= v.
Proof.
  unfold unpack_H. case_decide; [|done]. intros [= <-]. apply le_value_nonneg.
Qed.

Lemma unpack_I_nonneg bs v : unpack_I bs = Ok v -> 0 <= v.
Proof.
  unfold unpack_I. case_decide; [|done]. intros [= <-]. apply le_value_nonneg.
Qed.

Lemma bind_raise_inv {A B} (m : result A) (f : A -> result B) e :
  m ≫= f = Raise e -> m = Raise e \/ exists a, m = Ok a /\ f a = Raise e.
Proof.
  destruct m as [a|e']; simpl; intros E.
  - right. by exists a.
  - left. congruence.
Qed.

Lemma bind_ok_inv {A B} (m : result A) (f : A -> result B) b :
  m ≫= f = Ok b -> exists a, m = Ok a /\ f a = Ok b.
Proof.
  destruct m as [a|e']; simpl; intros E.
  - by exists a.
  - done.
Qed.


(** A loop whose body never breaks raises as soon as one element makes
    the body raise from every state. *)
Lemma for_loop_raises {A S} (xs : list A) (body : A -> S -> result (flow S)) s e x :
  x ∈ xs ->
  (forall y s, y ∈ xs -> body y s = Raise e \/ exists s', body y s = Ok (Next s')) ->
  (forall s, body x s = Raise e) ->
  for_loop xs body s = Raise e.
Proof.
  revert s. induction xs as [|y xs IH]; intros s Hx Hbody Hbad.
  - by apply elem_of_nil in Hx.
  - simpl. apply elem_of_cons in Hx as [->|Hx]; [by rewrite Hbad|].
    destruct (Hbody y s) as [->|[s' ->]]; [left|done|].
    apply IH; [done| |done]. intros z t Hz. apply Hbody. by right.
Qed.

(* ================================================================== *)
(** * Alpha correction                                                *)
(* ================================================================== *)

Lemma eva_alpha_closed_form a : Eva.alpha a = Z.max 0 (Z.min (a * 2 - 1) 255).
Proof. unfold Eva.alpha. lia. Qed.

Lemma eva_alpha_values :
  Eva.alpha 0 = 0 /\ Eva.alpha 128 = 255 /\ Eva.alpha 255 = 255.
Proof. by vm_compute. Qed.

Lemma eva_alpha_monotone a b : a <= b -> Eva.alpha a <= Eva.alpha b.
Proof. unfold Eva.alpha. lia. Qed.

Lemma eva_alpha_is_byte a : 0 <= Eva.alpha a <= 255.
Proof. unfold Eva.alpha. lia. Qed.

Lemma legacy_alpha_monotone a b : a <= b -> Legacy.alpha a <= Legacy.alpha b.
Proof. unfold Legacy.alpha. lia. Qed.

(** From raw alpha 1 upwards the legacy formula and the chained one agree. *)
Lemma legacy_alpha_agrees a : 1 <= a -> Legacy.alpha a = Eva.alpha a.
Proof. unfold Legacy.alpha, Eva.alpha. lia. Qed.

(** Before the raster stores it, the value the legacy formula computes
    for a stored alpha of 0 is -1, both in a palette entry and in a
    direct-colour pixel; the chained formula gives 0. *)
Lemma legacy_alpha_zero_unclamped :
  Eva.alpha 0 = 0
  /\ Legacy.alpha 0 = -1
  /\ Legacy.read_palette [x01; x02; x03; x00] 1 = Ok [(1, 2, 3, -1)]
  /\ Legacy.decode_pixels 0 1 1 4 [x01; x02; x03; x00] [] = Ok [(1, 2, 3, -1)].
Proof. by vm_compute. Qed.

(* ================================================================== *)
(** * Picture headers of the chained shape                            *)
(* ================================================================== *)

Section PictureHeaders.
Import Eva Notions.
Variable data : list byte.

Lemma unpack_H_at a b :
  0 <= a -> b = a + 2 -> b <= len data ->
  unpack_H (slice data a b) = Ok (field data a 2).
Proof. intros ? -> ?. unfold field. by apply unpack_H_inside. Qed.

Lemma unpack_I_at a b :
  0 <= a -> b = a + 4 -> b <= len data ->
  unpack_I (slice data a b) = Ok (field data a 4).
Proof. intros ? -> ?. unfold field. by apply unpack_I_inside. Qed.

Lemma field_nonneg o n : 0 <= field data o n.
Proof. apply le_value_nonneg. Qed.

(** Inside the file the header parser returns, and its derived fields
    are as the code computes them. *)
Lemma parse_picture_header_at_inside o :
  0 <= o -> o + 0x28 <= len data ->
  exists h, _parse_picture_header_at data o = Ok h
    /\ total_size h = field data o 4
    /\ image_size_b h = field data (o + 8) 4
    /\ header_size h =
         (if field data (o + 0xC) 2 =? 0 then 0x80 else field data (o + 0xC) 2)
    /\ image_offset h = o + header_size h
    /\ palette_offset h = image_offset h + image_size_b h
    /\ width h = field data (o + 0x14) 2
    /\ height h = field data (o + 0x16) 2.
Proof.
  intros Ho Hlen. unfold _parse_picture_header_at.
  rewrite !unpack_I_at, !unpack_H_at by lia.
  destruct (getbyte_inside data (o + 0x10)) as (c0 & -> & _); [lia|].
  destruct (getbyte_inside data (o + 0x11)) as (c1 & -> & _); [lia|].
  destruct (getbyte_inside data (o + 0x12)) as (c2 & -> & _); [lia|].
  destruct (getbyte_inside data (o + 0x13)) as (c3 & -> & _); [lia|].
  eexists. split; [reflexivity|]. simpl.
  replace (o + 0) with o by lia. done.
Qed.

Lemma getbyte_at i :
  0 <= i < len data -> getbyte data i = Ok (field data i 1).
Proof.
  intros Hi. destruct (getbyte_inside data i Hi) as (c & -> & Hc).
  unfold field, slice, le_value.
  replace (Z.to_nat (i + 1 - i)) with 1%nat by lia.
  rewrite (drop_S data c (Z.to_nat i)) by done. simpl. do 2 f_equal. lia.
Qed.

(** Inside the file the header parser returns the record of the
    specification: every field is tied to the bytes of the file. *)
Lemma parse_picture_header_at_fields o :
  0 <= o -> o + 0x28 <= len data ->
  _parse_picture_header_at data o = Ok (header_at data o).
Proof.
  intros Ho Hlen. unfold _parse_picture_header_at.
  rewrite !unpack_I_at, !unpack_H_at, !getbyte_at by lia.
  unfold header_at. simpl. replace (o + 0) with o by lia. done.
Qed.

Lemma parsed_header_nonneg o h :
  0 <= o -> _parse_picture_header_at data o = Ok h ->
  0 <= total_size h /\ 0 <= width h /\ 0 <= height h /\ 0 < header_size h
  /\ 0 < image_offset h.
Proof.
  unfold _parse_picture_header_at. intros Ho E.
  repeat match type of E with
  | context [unpack_I ?bs] =>
      let v := fresh "v" in let Ev := fresh "Ev" in
      destruct (unpack_I bs) as [v|] eqn:Ev; [apply unpack_I_nonneg in Ev|done];
      simpl in E
  | context [unpack_H ?bs] =>
      let v := fresh "v" in let Ev := fresh "Ev" in
      destruct (unpack_H bs) as [v|] eqn:Ev; [apply unpack_H_nonneg in Ev|done];
      simpl in E
  | context [getbyte ?l ?i] =>
      destruct (getbyte l i); [|done]; simpl in E
  end.
  injection E as <-. simpl.
  destruct (Z.eqb_spec v2 0); lia.
Qed.

(** The header loop from state [(acc, o)]. *)
Lemma find_loop (xs : list Z) acc o :
  0 <= o ->
  exists hs,
    for_loop xs (find_step data) (acc, o) = Ok (acc ++ hs, end_offset o hs)
    /\ chained data o hs
    /\ (length hs <= length xs)%nat
    /\ ((length hs < length xs)%nat -> len data < end_offset o hs + 0x28).
Proof.
  revert acc o. induction xs as [|x xs IH]; intros acc o Ho.
  - exists []. simpl. rewrite app_nil_r. repeat split; lia.
  - simpl. destruct (Z.ltb_spec (len data) (o + 0x28)) as [Hshort|Hfit].
    + exists []. simpl. rewrite app_nil_r. repeat split; lia.
    + destruct (parse_picture_header_at_inside o) as (h & E & _); [lia..|].
      rewrite E. simpl.
      destruct (parsed_header_nonneg o h Ho E) as (Hts & _).
      destruct (IH (acc ++ [(o, h)]) (o + total_size h)) as (hs & -> & Hc & Hle & Hstop);
        [lia|].
      exists ((o, h) :: hs). simpl. rewrite <- app_assoc. simpl.
      repeat split; try done; lia.
Qed.
End PictureHeaders.

(** The header scan always returns, and what it returns is a chain
    starting at 0x80. *)
Lemma find_picture_headers_chained data n :
  exists hs, Eva._find_picture_headers data n = Ok hs
             /\ Notions.chained data 0x80 hs.
Proof.
  unfold Eva._find_picture_headers.
  destruct (find_loop data (range n) [] 0x80) as (hs & -> & Hc & _); [lia|].
  by exists hs.
Qed.

Lemma find_picture_headers_total data n :
  exists hs, Eva._find_picture_headers data n = Ok hs.
Proof. destruct (find_picture_headers_chained data n) as (hs & E & _). by exists hs. Qed.

Section Chains.
Import Eva Notions.
Variable data : list byte.

Lemma chained_members o hs :
  0 <= o -> chained data o hs ->
  forall o' h, (o', h) ∈ hs ->
    0 <= o' /\ o' + 0x28 <= len data /\ _parse_picture_header_at data o' = Ok h.
Proof.
  revert o. induction hs as [|[o1 h1] hs IH]; intros o Ho Hc o' h Hin.
  - by apply elem_of_nil in Hin.
  - destruct Hc as (-> & Hfit & E & Hc).
    apply elem_of_cons in Hin as [[= -> ->]|Hin]; [done|].
    eapply IH; [|exact Hc|exact Hin].
    destruct (parsed_header_nonneg data o h1 Ho E). lia.
Qed.

Lemma chained_first o hs o' h : chained data o hs -> hs !! 0%nat = Some (o', h) -> o' = o.
Proof. destruct hs as [|[o1 h1] hs]; [done|]. intros (-> & _) [= -> _]. done. Qed.

Lemma chained_next o hs (i : nat) oi hi oj hj :
  chained data o hs ->
  hs !! i = Some (oi, hi) -> hs !! S i = Some (oj, hj) ->
  oj = oi + total_size hi.
Proof.
  revert o i. induction hs as [|[o1 h1] hs IH]; intros o i Hc Hi Hj; [done|].
  destruct Hc as (-> & _ & _ & Hc). destruct i as [|i].
  - injection Hi as -> ->. simpl in Hj. eapply chained_first; eauto.
  - simpl in Hi, Hj. eapply IH; eauto.
Qed.
End Chains.

(** C6. The header scan of the chained shape always returns a list [hs] of
    at most [picture_count] headers that forms a chain from offset 0x80:
    the first header is at 0x80 and each header is the record the file
    holds at its own offset [o] (with at least 0x28 bytes left from
    [o]): total size, palette size and pixel byte size are the 32-bit
    fields at [o], [o+4], [o+8], colour count, width and height the
    16-bit fields at [o+0xE], [o+0x14], [o+0x16], the format the byte at
    [o+0x10]; a stored header size of 0 is replaced by 0x80,
    [image_offset = o + header_size] and
    [palette_offset = image_offset + pixel byte size].  The next header
    is at [o] plus the total size stored at [o], whatever that is: the
    stride is not fixed.  When fewer headers than [picture_count] were
    produced, fewer than 0x28 bytes remain at the offset where the next
    one would start. *)
Theorem find_picture_headers_chain (data : list byte) (picture_count : Z) :
  exists hs,
    Eva._find_picture_headers data picture_count = Ok hs
    /\ len hs <= Z.max 0 picture_count
    /\ (len hs < picture_count ->
          len data < Notions.end_offset 0x80 hs + 0x28)
    /\ Notions.chained data 0x80 hs
    /\ (forall o h, hs !! 0%nat = Some (o, h) -> o = 0x80)
    /\ (forall (i : nat) o h o' h',
          hs !! i = Some (o, h) -> hs !! S i = Some (o', h') ->
          o' = o + Eva.total_size h /\ o' = o + Notions.field data o 4)
    /\ (forall o h, (o, h) ∈ hs ->
          o + 0x28 <= len data
          /\ Eva._parse_picture_header_at data o = Ok h
          /\ h = Notions.header_at data o
          /\ Eva.total_size h = Notions.field data o 4
          /\ Eva.palette_size h = Notions.field data (o + 0x4) 4
          /\ Eva.image_size_b h = Notions.field data (o + 0x8) 4
          /\ Eva.header_size h =
               (if Notions.field data (o + 0xC) 2 =? 0 then 0x80
                else Notions.field data (o + 0xC) 2)
          /\ Eva.color_count h = Notions.field data (o + 0xE) 2
          /\ Eva.format h = Notions.field data (o + 0x10) 1
          /\ Eva.width h = Notions.field data (o + 0x14) 2
          /\ Eva.height h = Notions.field data (o + 0x16) 2
          /\ Eva.image_offset h = o + Eva.header_size h
          /\ Eva.palette_offset h = Eva.image_offset h + Eva.image_size_b h).
Proof.
  unfold Eva._find_picture_headers.
  destruct (find_loop data (range picture_count) [] 0x80)
    as (hs & -> & Hc & Hle & Hstop); [lia|].
  unfold range in Hle, Hstop. rewrite length_seqZ in Hle, Hstop.
  assert (forall o h, (o, h) ∈ hs ->
            o + 0x28 <= len data
            /\ Eva._parse_picture_header_at data o = Ok h
            /\ h = Notions.header_at data o) as Hmem.
  { intros o h Hin.
    destruct (chained_members data 0x80 hs ltac:(lia) Hc o h Hin) as (Ho & Hfit & E).
    split; [done|]. split; [done|].
    rewrite (parse_picture_header_at_fields data o Ho Hfit) in E. congruence. }
  exists hs. simpl. unfold len.
  split; [done|]. split; [lia|]. split; [intros; apply Hstop; lia|].
  split; [done|]. split; [intros o h; by apply (chained_first data 0x80 hs)|].
  split.
  - intros i o h o' h' Hi Hj.
    pose proof (chained_next data 0x80 hs i o h o' h' Hc Hi Hj) as Hnext.
    split; [done|].
    destruct (Hmem o h) as (_ & _ & ->); [by eapply list_elem_of_lookup_2|].
    exact Hnext.
  - intros o h Hin. destruct (Hmem o h Hin) as (Hfit & E & ->).
    split; [done|]. split; [done|]. by repeat split.
Qed.

Lemma find_picture_headers_chain_witness :
  (exists hs,
     Eva._find_picture_headers Samples.tex_truncated 3 = Ok hs
     /\ len Samples.tex_truncated < Notions.end_offset 0x80 hs + 0x28)
  /\ (exists hs,
        Eva._find_picture_headers Samples.tex_uneven 3 = Ok hs
        /\ hs.*1 = [0x80; 0xB4; 0xEC]
        /\ forall (i : nat) o h o' h',
             hs !! i = Some (o, h) -> hs !! S i = Some (o', h') ->
             o' = o + Notions.field Samples.tex_uneven o 4).
Proof.
  split.
  - destruct (find_picture_headers_chain Samples.tex_truncated 3)
      as (hs & E & _ & Hstop & _).
    exists hs. split; [exact E|]. apply Hstop.
    vm_compute in E. injection E as <-. reflexivity.
  - destruct (find_picture_headers_chain Samples.tex_uneven 3)
      as (hs & E & _ & _ & _ & _ & Hnext & _).
    exists hs. split; [exact E|]. split.
    + vm_compute in E. injection E as <-. reflexivity.
    + intros i o h o' h' Hi Hj. by destruct (Hnext i o h o' h' Hi Hj).
Defined.

(* ================================================================== *)
(** * The magic tag of the chained shape                              *)
(* ================================================================== *)

Lemma filter_full_length {A} (P : A -> Prop) `{!forall x, Decision (P x)} (l : list A) :
  length (filter P l) = length l -> filter P l = l.
Proof.
  induction l as [|x l IH]; [done|]. rewrite filter_cons.
  case_decide; simpl; intros Hlen.
  - f_equal. apply IH. lia.
  - pose proof (length_filter P l). lia.
Qed.

(** Decoding with [errors='ignore'] can only shorten the four bytes, so
    the decoded tag is "TIM2" exactly when the bytes themselves are. *)
Lemma decoded_magic_TIM2 (data : list byte) :
  Eva.decode_ascii_ignore (slice data 0 4) = "TIM2"%string
  <-> take 4 data = list_byte_of_string "TIM2".
Proof.
  unfold Eva.decode_ascii_ignore.
  change (slice data 0 4) with (take 4 data).
  split.
  - intros E. apply (f_equal list_byte_of_string) in E.
    rewrite list_byte_of_string_of_list_byte in E.
    rewrite <- E. symmetry. apply filter_full_length.
    rewrite E. simpl.
    pose proof (length_filter (fun c => byte_val c < 128) (take 4 data)) as Hle.
    rewrite E in Hle. simpl in Hle.
    rewrite length_take in *. lia.
  - intros ->. by vm_compute.
Qed.

(** C8. The chained-shape parser raises the bad-magic error exactly when
    the first four bytes of the buffer are not "TIM2".  With a wrong tag
    the constructor fails with that error whatever the rest of the file
    holds (so no picture header is read) and the file ends with one error
    line; with the right tag no bad-magic error is raised, neither by the
    header parser nor by the constructor. *)
Theorem bad_magic_iff (data : list byte) :
  (take 4 data <> list_byte_of_string "TIM2" ->
     Eva._parse_header data = Raise ValueError_not_tim2
     /\ Eva.TIM2Parser data = Raise ValueError_not_tim2
     /\ forall save_parts,
          Eva.process_tex_file data save_parts
          = Eva.TexOutcome [Msg_err ValueError_not_tim2] [] None)
  /\ (take 4 data = list_byte_of_string "TIM2" ->
        Eva._parse_header data <> Raise ValueError_not_tim2
        /\ Eva.TIM2Parser data <> Raise ValueError_not_tim2).
Proof.
  pose proof (decoded_magic_TIM2 data) as Hmagic.
  split; intros Htag.
  - assert (Eva._parse_header data = Raise ValueError_not_tim2) as E.
    { unfold Eva._parse_header.
      destruct (String.eqb_spec (Eva.decode_ascii_ignore (slice data 0 4)) "TIM2");
        [|done].
      exfalso. by apply Htag, Hmagic. }
    assert (Eva.TIM2Parser data = Raise ValueError_not_tim2) as E'.
    { unfold Eva.TIM2Parser. by rewrite E. }
    split; [done|]. split; [done|].
    intros save_parts. unfold Eva.process_tex_file. by rewrite E'.
  - assert (Eva._parse_header data <> Raise ValueError_not_tim2) as Hne.
    { unfold Eva._parse_header.
      apply Hmagic in Htag. rewrite Htag. simpl. intros E.
      do 4 (apply bind_raise_inv in E as [E|(? & _ & E)];
            [by apply unpack_H_only_StructError in E|]).
      done. }
    split; [done|].
    unfold Eva.TIM2Parser.
    destruct (Eva._parse_header data) as [hdr|e]; simpl;
      [|intros E; apply Hne; congruence].
    destruct (find_picture_headers_total data (Eva.picture_count hdr)) as [hs ->].
    done.
Qed.

Lemma bad_magic_iff_witness :
  Eva.TIM2Parser (Samples.tex_head [x54; x49; x4d; x33] 0 0 0)
    = Raise ValueError_not_tim2
  /\ Eva.TIM2Parser Samples.tex_truncated <> Raise ValueError_not_tim2.
Proof.
  split.
  - apply (bad_magic_iff (Samples.tex_head [x54; x49; x4d; x33] 0 0 0)).
    by vm_compute.
  - apply (bad_magic_iff Samples.tex_truncated). by vm_compute.
Defined.

(* ================================================================== *)
(** * Per-picture decoding in the chained shape                       *)
(* ================================================================== *)

Section Slots.
Import Eva Notions.

Lemma parser_sane data self : TIM2Parser data = Ok self -> sane self /\ Eva.data self = data.
Proof.
  unfold TIM2Parser. intros E.
  apply bind_ok_inv in E as (hdr & _ & E).
  destruct (find_picture_headers_chained data (picture_count hdr))
    as (hs & Ehs & Hc).
  rewrite Ehs in E. simpl in E. injection E as <-. simpl. split; [|done].
  intros o h Hin. simpl in Hin.
  destruct (chained_members data 0x80 hs ltac:(lia) Hc o h Hin) as (Ho & _ & Eh).
  destruct (parsed_header_nonneg data o h Ho Eh). lia.
Qed.

Variable self : parser.
Hypothesis Hsane : sane self.

Lemma extract_image_inside index :
  0 <= index < len (picture_headers self) ->
  extract_image self index = ((slot self index).1, Ok (slot self index).2).
Proof.
  intros Hi. unfold extract_image, slot.
  destruct (Z.leb_spec (len (picture_headers self)) index); [lia|].
  destruct (getitem_inside (picture_headers self) index Hi) as ([o h] & -> & Hl).
  rewrite Hl. simpl.
  destruct (Hsane o h) as (Hw & Hh & Hoff).
  { eapply list_elem_of_lookup_2, Hl. }
  unfold decode_slot, mbind, io_bind, lift, print, mret, io_ret. simpl.
  destruct (negb _); [done|].
  destruct (Z.ltb_spec (len (data self))
              (image_offset h + width h * height h * 4)); [done|].
  unfold reshape. rewrite len_slice_inside by nia.
  replace (image_offset h + width h * height h * 4 - image_offset h
           =? height h * width h * 4) with true by (symmetry; apply Z.eqb_eq; lia).
  done.
Qed.

Lemma extract_loop_inside (indices : list Z) acc :
  (forall i, i ∈ indices -> 0 <= i < len (picture_headers self)) ->
  extract_loop self indices acc
  = (flat_map (fun i => (slot self i).1) indices,
     Ok (acc ++ ((fun i => (slot self i).2) <$> indices))).
Proof.
  revert acc. induction indices as [|i indices IH]; intros acc Hin; simpl.
  - by rewrite app_nil_r.
  - rewrite extract_image_inside by (apply Hin; left).
    unfold mbind, io_bind. simpl.
    rewrite IH by (intros; apply Hin; by right). simpl.
    by rewrite <- app_assoc.
Qed.

Lemma extract_all_images_slots :
  extract_all_images self
  = (flat_map (fun i => (slot self i).1) (range (len (picture_headers self))),
     Ok ((fun i => (slot self i).2) <$> range (len (picture_headers self)))).
Proof.
  unfold extract_all_images. rewrite extract_loop_inside; [done|].
  intros i Hi. unfold range in Hi. apply elem_of_seqZ in Hi. lia.
Qed.
End Slots.

(** C5. For a chained file that the parser accepts, decoding all pictures
    returns (never raises) one entry per parsed header.  Entry [i] is the
    value [decode_slot] computes from the file and header [i] alone, so no
    other picture influences it: it is [None], with the unsupported-format
    line for index [i], when the format is neither 0x00 nor 0x03; it is
    [None], with the data-overflow line for index [i], when the format is
    supported and [image_offset + width*height*4] exceeds the buffer
    length; otherwise it is the decoded image.  Every printed line of the
    decode appears in the output of [process_tex_file], which itself ends
    with an outcome whatever happens. *)
Theorem skipped_pictures_are_absent (data : list byte) (self : Eva.parser) :
  Eva.TIM2Parser data = Ok self ->
  exists msgs imgs,
    Eva.extract_all_images self = (msgs, Ok imgs)
    /\ length imgs = length (Eva.picture_headers self)
    /\ (forall save_parts, exists rest,
          Eva.tex_printed (Eva.process_tex_file data save_parts) = msgs ++ rest)
    /\ forall (i : nat) o h,
         Eva.picture_headers self !! i = Some (o, h) ->
         imgs !! i = Some (Notions.decode_slot data (Z.of_nat i) h).2
         /\ (forall m, m ∈ (Notions.decode_slot data (Z.of_nat i) h).1 -> m ∈ msgs)
         /\ (~ Notions.supported h ->
               imgs !! i = Some None
               /\ Msg_skip_unsupported (Z.of_nat i) (Eva.format h) ∈ msgs)
         /\ (Notions.supported h -> Notions.overflows data h ->
               imgs !! i = Some None
               /\ Msg_data_overflow (Z.of_nat i) ∈ msgs)
         /\ (Notions.supported h -> ~ Notions.overflows data h ->
               imgs !! i = Some (Some
                 (Image (Eva.width h) (Eva.height h)
                    (Eva.set_alpha (Eva.cells
                       (slice data (Eva.image_offset h)
                          (Eva.image_offset h + Eva.width h * Eva.height h * 4))))))).
Proof.
  intros E. destruct (parser_sane data self E) as (Hsane & Hdata).
  pose proof (extract_all_images_slots self Hsane) as Hall.
  eexists _, _. split; [exact Hall|].
  split; [unfold range, len; by rewrite length_fmap, length_seqZ, Nat2Z.id|].
  split.
  { intros save_parts. unfold Eva.process_tex_file. rewrite E, Hall.
    destruct (if save_parts then _ else _) as [parts [[]|e]];
      [|by eexists].
    destruct (Eva.compose_columns _ _) as [out2 [c|e]]; simpl;
      [destruct (save _ _)|]; eexists; by rewrite <- ?app_assoc. }
  intros i o h Hi.
  assert (Z.of_nat i < len (Eva.picture_headers self)) as Hlt.
  { apply lookup_lt_Some in Hi. unfold len. lia. }
  assert (Notions.slot self (Z.of_nat i) = Notions.decode_slot data (Z.of_nat i) h) as Hslot.
  { unfold Notions.slot. by rewrite Nat2Z.id, Hi, Hdata. }
  assert (((fun j => (Notions.slot self j).2) <$> range (len (Eva.picture_headers self))) !! i
          = Some (Notions.decode_slot data (Z.of_nat i) h).2) as Himg.
  { rewrite list_lookup_fmap. unfold range. rewrite lookup_seqZ_lt by done.
    simpl. by rewrite Z.add_0_l, Hslot. }
  assert (forall m, m ∈ (Notions.decode_slot data (Z.of_nat i) h).1 ->
            m ∈ flat_map (fun j => (Notions.slot self j).1)
                  (range (len (Eva.picture_headers self)))) as Hmsg.
  { intros m Hm. apply list_elem_of_In, in_flat_map. exists (Z.of_nat i).
    rewrite <- !list_elem_of_In, Hslot. split; [|done].
    unfold range. apply elem_of_seqZ. lia. }
  split; [done|]. split; [done|].
  unfold Notions.supported, Notions.overflows.
  rewrite Himg. unfold Notions.decode_slot in *.
  destruct (Z.eqb_spec (Eva.format h) 0) as [H0|H0];
    destruct (Z.eqb_spec (Eva.format h) 3) as [H3|H3]; simpl in *;
    destruct (Z.ltb_spec (len data)
                (Eva.image_offset h + Eva.width h * Eva.height h * 4)) as [Hov|Hov];
    simpl in *;
    (split; [intros Hbad|split; [intros Hsup Hover|intros Hsup Hfit]]);
    try (split; [done|apply Hmsg; by left]);
    try done; try lia; try tauto.
Qed.

Lemma skipped_pictures_are_absent_witness :
  exists self msgs imgs,
    Eva.TIM2Parser Samples.tex_mixed = Ok self
    /\ Eva.extract_all_images self = (msgs, Ok imgs)
    /\ imgs !! 0%nat = Some None
    /\ Msg_skip_unsupported 0 5 ∈ msgs
    /\ imgs !! 1%nat = Some (Some (Image 1 1 [(10, 20, 30, 255)]))
    /\ imgs !! 2%nat = Some None
    /\ Msg_data_overflow 2 ∈ msgs.
Proof.
  destruct (Eva.TIM2Parser Samples.tex_mixed) as [self|] eqn:E;
    [|by vm_compute in E].
  destruct (skipped_pictures_are_absent _ _ E) as (msgs & imgs & Ea & _ & _ & Hslots).
  exists self, msgs, imgs. split; [done|]. split; [done|].
  vm_compute in E. injection E as <-.
  destruct (Hslots 0%nat _ _ eq_refl) as (_ & _ & Hbad & _).
  destruct (Hslots 1%nat _ _ eq_refl) as (_ & _ & _ & _ & Hgood).
  destruct (Hslots 2%nat _ _ eq_refl) as (_ & _ & _ & Hover & _).
  destruct Hbad as [-> ?]; [by vm_compute; intros [|]|].
  rewrite Hgood; [|by vm_compute; left|by vm_compute].
  destruct Hover as [-> ?]; [by vm_compute; right|by vm_compute|].
  done.
Defined.

(* ================================================================== *)
(** * The column compositor                                           *)
(* ================================================================== *)

Section NoImages.
Import Eva Notions.

Lemma omap_all_none {B} (f : image -> B) images :
  all_absent images -> omap (fun im => f <$> im) images = [].
Proof. induction 1 as [|im l -> _ IH]; [done|]. simpl. apply IH. Qed.

Lemma infer_all_none images :
  all_absent images -> _infer_column_height images = 0.
Proof.
  intros Hnone. unfold _infer_column_height, present_heights.
  by rewrite omap_all_none.
Qed.

Lemma place_all_none col_target_h images :
  all_absent images -> place_all col_target_h images = Layout [] [] 0 0 0.
Proof.
  intros Hnone. unfold place_all.
  assert (forall st, foldl (place col_target_h) st images = st) as ->; [|done].
  induction Hnone as [|im l -> _ IH]; intros st; [done|]. simpl. apply IH.
Qed.

Lemma compose_all_none_raises images self :
  all_absent images ->
  total_width (container self) = 0 \/ total_height (container self) = 0 ->
  compose_columns self images = ([], Raise ValueError_max_empty).
Proof.
  intros Hnone Hzero. unfold compose_columns.
  rewrite place_all_none, omap_all_none by done. simpl.
  assert ((0 <? total_width (container self))
          && (0 <? total_height (container self)) = false) as ->.
  { apply andb_false_iff. rewrite !Z.ltb_ge. lia. }
  done.
Qed.

Lemma compose_all_none_declared images self :
  all_absent images ->
  0 < total_width (container self) -> 0 < total_height (container self) ->
  compose_columns self images
  = ([], Ok (Canvas (total_width (container self))
                    (total_height (container self)) [])).
Proof.
  intros Hnone Hw Hh. unfold compose_columns.
  rewrite place_all_none by done. simpl.
  assert (zip images [] = []) as -> by (by destruct images).
  apply Z.ltb_lt in Hw as Hw', Hh as Hh'. rewrite Hw', Hh'.
  unfold mbind, io_bind, lift. simpl. by rewrite !Z.eqb_refl.
Qed.
End NoImages.

(** C10. When every entry of the decoded-image sequence is absent (the
    sequence may be empty): if the declared total width or the declared
    total height is zero, the compositor raises the empty-maximum error
    and returns no canvas, and the file ends with an error line and
    nothing written; if both declared sizes are positive, the compositor
    returns a canvas of the declared size on which every pixel is
    transparent, and the file is reported as converted. *)
Theorem compose_without_images (self : Eva.parser) (images : list (option image)) :
  Notions.all_absent images ->
  (Eva.total_width (Eva.container self) = 0
   \/ Eva.total_height (Eva.container self) = 0 ->
     Eva.compose_columns self images = ([], Raise ValueError_max_empty)
     /\ forall data msgs save_parts,
          Eva.TIM2Parser data = Ok self ->
          Eva.extract_all_images self = (msgs, Ok images) ->
          Eva.process_tex_file data save_parts
          = Eva.TexOutcome (msgs ++ [Msg_err ValueError_max_empty]) [] None)
  /\ (0 < Eva.total_width (Eva.container self) ->
      0 < Eva.total_height (Eva.container self) ->
      exists c,
        Eva.compose_columns self images = ([], Ok c)
        /\ Eva.canvas_w c = Eva.total_width (Eva.container self)
        /\ Eva.canvas_h c = Eva.total_height (Eva.container self)
        /\ (forall px py, Eva.canvas_pixel c px py = transparent)
        /\ forall data msgs save_parts,
             Eva.TIM2Parser data = Ok self ->
             Eva.extract_all_images self = (msgs, Ok images) ->
             Eva.process_tex_file data save_parts
             = Eva.TexOutcome (msgs ++ [Msg_ok]) [] (Some c)).
Proof.
  intros Hnone.
  assert (forall b : bool,
            (if b then Eva.save_parts_loop images [] else ([], Ok tt))
            = ([], Ok tt)) as Hparts.
  { intros [|]; [|done]. clear self.
    induction Hnone as [|im l -> _ IH]; [done|]. simpl. apply IH. }
  split.
  - intros Hzero.
    pose proof (compose_all_none_raises images self Hnone Hzero) as Hc.
    split; [done|]. intros data msgs save_parts Ep Ea.
    unfold Eva.process_tex_file. by rewrite Ep, Ea, Hparts, Hc.
  - intros Hw Hh.
    pose proof (compose_all_none_declared images self Hnone Hw Hh) as Hc.
    eexists. split; [exact Hc|]. repeat split.
    intros data msgs save_parts Ep Ea.
    unfold Eva.process_tex_file. rewrite Ep, Ea, Hparts, Hc.
    unfold save. simpl.
    apply Z.ltb_lt in Hw as ->. by apply Z.ltb_lt in Hh as ->.
Qed.

Lemma compose_without_images_witness :
  Eva.compose_columns Samples.no_size [None; None]
    = ([], Raise ValueError_max_empty)
  /\ Eva.process_tex_file (Samples.tex_all_skipped 4 0) false
     = Eva.TexOutcome [Msg_skip_unsupported 0 5; Msg_err ValueError_max_empty] [] None
  /\ Eva.process_tex_file (Samples.tex_all_skipped 4 4) false
     = Eva.TexOutcome [Msg_skip_unsupported 0 5; Msg_ok] [] (Some (Eva.Canvas 4 4 [])).
Proof.
  split; [|split].
  - apply (compose_without_images Samples.no_size [None; None]).
    + by repeat constructor.
    + by left.
  - destruct (Eva.TIM2Parser (Samples.tex_all_skipped 4 0)) as [self|] eqn:E;
      [|by vm_compute in E].
    destruct (compose_without_images self [None]) as [Hzero _];
      [by repeat constructor|].
    destruct Hzero as [_ Hfile];
      [vm_compute in E; injection E as <-; by right|].
    apply (Hfile _ [Msg_skip_unsupported 0 5] false E).
    vm_compute in E. injection E as <-. by vm_compute.
  - destruct (Eva.TIM2Parser (Samples.tex_all_skipped 4 4)) as [self|] eqn:E;
      [|by vm_compute in E].
    destruct (compose_without_images self [None]) as [_ Hdecl];
      [by repeat constructor|].
    destruct Hdecl as (c & Hc & _ & _ & _ & Hfile);
      [vm_compute in E; injection E as <-; by vm_compute..|].
    rewrite (Hfile _ [Msg_skip_unsupported 0 5] false E);
      [|vm_compute in E; injection E as <-; by vm_compute].
    vm_compute in E. injection E as <-. vm_compute in Hc. by injection Hc as <-.
Defined.

Section Candidates.
Import Eva Notions.

Lemma prefix_sums_running (heights : list Z) :
  prefix_sums heights = running_sums 0 (take 6 heights).
Proof.
  unfold prefix_sums, slice, len. rewrite drop_0.
  replace (Z.to_nat (Z.min 6 (Z.of_nat (length heights)) - 0))
    with (6 `min` length heights)%nat by lia.
  rewrite <- (take_take heights 6 (length heights)), firstn_all.
  generalize (take 6 heights). intros l.
  assert (forall s acc,
    (foldl (fun '(s, prefix) h => let s := s + h in (s, prefix ++ [s])) (s, acc) l).2
    = acc ++ running_sums s l) as Hgen.
  { induction l as [|h l IH]; intros s acc; simpl; [by rewrite app_nil_r|].
    rewrite IH, <- app_assoc. done. }
  apply (Hgen 0 []).
Qed.

Lemma candidates_from (l : list Z) cand (seen : gset Z) (S : list Z) :
  (forall v, v ∈ seen <-> v ∈ S) ->
  (foldl add_candidate (cand, seen) l).1
  = cand ++ keep_first S (filter (fun v => 0 < v) l).
Proof.
  revert cand seen S. induction l as [|v l IH]; intros cand seen S HS; simpl.
  - by rewrite app_nil_r.
  - rewrite filter_cons.
    destruct (Z.ltb_spec 0 v) as [Hpos|Hneg]; simpl.
    + destruct (decide (0 < v)) as [_|]; [|lia]. simpl.
      destruct (decide (v ∈ S)) as [Hin|Hout].
      * rewrite bool_decide_eq_true_2 by (by apply HS). simpl. by apply IH.
      * rewrite bool_decide_eq_false_2 by (by rewrite HS). simpl.
        rewrite (IH _ _ (v :: S)), <- app_assoc; [done|].
        intros u. rewrite elem_of_union, elem_of_singleton, elem_of_cons, HS. done.
    + destruct (decide (0 < v)); [lia|]. by apply IH.
Qed.

Lemma keep_first_ext S S' l :
  (forall v, v ∈ S <-> v ∈ S') -> keep_first S l = keep_first S' l.
Proof.
  revert S S'. induction l as [|v l IH]; intros S S' HS; simpl; [done|].
  destruct (decide (v ∈ S)) as [Hin|Hout];
    destruct (decide (v ∈ S')) as [Hin'|Hout'].
  - by apply IH.
  - exfalso. by apply Hout', HS.
  - exfalso. by apply Hout, HS.
  - f_equal. apply IH. intros u. rewrite !elem_of_cons, HS. done.
Qed.

Lemma keep_first_app S a b :
  keep_first S (a ++ b)
  = keep_first S a ++ keep_first (reverse (keep_first S a) ++ S) b.
Proof.
  revert S. induction a as [|v a IH]; intros S; simpl; [done|].
  destruct (decide (v ∈ S)); [apply IH|].
  rewrite IH, reverse_cons, <- app_assoc. done.
Qed.

(** The candidate list: the six typical heights, then the positive
    running sums of the first six heights that are new, in order. *)
Lemma candidates_order (heights : list Z) :
  candidates heights
  = typical
    ++ keep_first typical
         (filter (fun v => 0 < v) (running_sums 0 (take 6 heights))).
Proof.
  unfold candidates.
  rewrite (candidates_from _ [] ∅ []) by set_solver.
  rewrite prefix_sums_running, filter_app, keep_first_app, app_nil_l.
  change (keep_first [] (filter (fun v => 0 < v) typical)) with typical.
  f_equal. apply keep_first_ext. intros v.
  rewrite app_nil_r. apply elem_of_reverse.
Qed.

Lemma find_first_accepted (accept : Z -> bool) (cand : list Z) :
  match List.find accept cand with
  | Some H => first_accepted accept cand H
  | None => Forall (fun c => accept c = false) cand
  end.
Proof.
  induction cand as [|c cand IH]; simpl; [constructor|].
  destruct (accept c) eqn:Ec.
  - exists [], cand. by repeat split.
  - destruct (List.find accept cand) as [H|].
    + destruct IH as (before & after & -> & HH & Hb).
      exists (c :: before), after. repeat split; [done|]. by constructor.
    + by constructor.
Qed.

(** The inferred column height is the first candidate that partitions
    the heights, or their sum when no candidate does. *)
Lemma infer_first_accepted (images : list (option image)) :
  present_heights images <> [] ->
  let heights := present_heights images in
  first_accepted (can_partition heights) (candidates heights)
                 (_infer_column_height images)
  \/ (Forall (fun c => can_partition heights c = false) (candidates heights)
      /\ _infer_column_height images = sum heights).
Proof.
  intros Hne heights. unfold _infer_column_height. fold heights.
  destruct heights as [|h0 hs] eqn:E; [done|]. rewrite <- E.
  pose proof (find_first_accepted (can_partition heights) (candidates heights)) as Hf.
  destruct (List.find _ _); [by left|by right].
Qed.
End Candidates.

Section ThreeImages.
Import Eva Notions.
Variables (w0 w1 w2 : Z) (d0 d1 d2 : list pixel).
Hypotheses (Hw0 : 0 <= w0) (Hw1 : 0 <= w1) (Hw2 : 0 <= w2).

Let images : list (option image) :=
  [Some (Image w0 100 d0); Some (Image w1 100 d1); Some (Image w2 100 d2)].

Lemma three_images_height : _infer_column_height images = 100.
Proof. by vm_compute. Qed.

Lemma three_images_layout :
  place_all 100 images
  = Layout [(0, 0); (w0, 0); (w0 + w1, 0)] [w0; w1; w2] (w0 + w1 + w2) 0 0.
Proof.
  unfold place_all, images. simpl. unfold place, close_column. simpl.
  rewrite !Z.max_r by lia. simpl. by rewrite !Z.add_0_l.
Qed.

Lemma three_images_compose self :
  total_height (container self) = 0 ->
  exists msgs,
    compose_columns self images
    = (msgs, Ok (Canvas (w0 + w1 + w2) 100
                   [(Image w0 100 d0, (0, 0)); (Image w1 100 d1, (w0, 0));
                    (Image w2 100 d2, (w0 + w1, 0))])).
Proof.
  intros Hth. unfold compose_columns. rewrite Hth.
  change (0 <? 0) with false. cbv iota.
  rewrite three_images_height, three_images_layout.
  cbn [col_widths positions].
  rewrite bool_decide_eq_false_2 by done.
  rewrite andb_false_r.
  unfold images.
  assert (max_of (omap (fun im : option image => im_width <$> im)
            [Some (Image w0 100 d0); Some (Image w1 100 d1); Some (Image w2 100 d2)])
          = Ok (Z.max (Z.max w0 w1) w2)) as -> by reflexivity.
  assert ((if 0 <? sum [w0; w1; w2] then Ok (sum [w0; w1; w2])
           else Ok (Z.max (Z.max w0 w1) w2)) = Ok (w0 + w1 + w2)) as ->.
  { unfold sum. cbn [foldl]. destruct (Z.ltb_spec 0 (0 + w0 + w1 + w2)); f_equal; lia. }
  assert (omap (fun '(im, pos) => (fun i : image => (i, pos)) <$> im)
            (zip [Some (Image w0 100 d0); Some (Image w1 100 d1); Some (Image w2 100 d2)]
                 [(0, 0); (w0, 0); (w0 + w1, 0)])
          = [(Image w0 100 d0, (0, 0)); (Image w1 100 d1, (w0, 0));
             (Image w2 100 d2, (w0 + w1, 0))]) as -> by reflexivity.
  unfold mbind, result_bind, io_bind, lift, print, mret, io_ret, result_ret.
  cbn [fst snd canvas_w canvas_h app].
  rewrite !andb_false_l. cbn [fst snd app].
  destruct ((0 <? total_width (container self)) && _); cbn [fst snd app]; by eexists.
Qed.
End ThreeImages.

(** C1 (amended). For three decoded images of height 100 (any widths) and
    no declared total height, the inferred column height is 100, not 200:
    the candidates are tried in the order 448, 480, 512, 384, 320, 256,
    100, 200, 300, none of the six typical values partitions the heights,
    and 100, the first running sum, does.  Each image therefore fills a
    column of its own: image0 at (0,0), image1 at (w0,0), image2 at
    (w0+w1,0), on a canvas of width w0+w1+w2 and height 100.  In general
    the candidate list is the six typical heights followed by the
    positive running sums of the first (at most six) heights, each value
    kept at its first occurrence, and the inferred height is the first
    candidate that partitions the heights, or their sum when none does. *)
Theorem three_equal_heights_columns
    (self : Eva.parser) (w0 w1 w2 : Z) (d0 d1 d2 : list pixel) :
  0 <= w0 -> 0 <= w1 -> 0 <= w2 ->
  Eva.total_height (Eva.container self) = 0 ->
  let im0 := Image w0 100 d0 in
  let im1 := Image w1 100 d1 in
  let im2 := Image w2 100 d2 in
  let images := [Some im0; Some im1; Some im2] in
  Eva._infer_column_height images = 100
  /\ Eva.candidates [100; 100; 100]
     = [448; 480; 512; 384; 320; 256; 100; 200; 300]
  /\ Notions.first_accepted (Eva.can_partition [100; 100; 100])
       (Eva.candidates [100; 100; 100]) 100
  /\ Eva.positions (Eva.place_all 100 images)
     = [(0, 0); (w0, 0); (w0 + w1, 0)]
  /\ (exists msgs,
        Eva.compose_columns self images
        = (msgs, Ok (Eva.Canvas (w0 + w1 + w2) 100
                       [(im0, (0, 0)); (im1, (w0, 0)); (im2, (w0 + w1, 0))])))
  /\ (forall heights,
        Eva.candidates heights
        = Eva.typical
          ++ Notions.keep_first Eva.typical
               (filter (fun v => 0 < v) (Notions.running_sums 0 (take 6 heights))))
  /\ (forall imgs,
        Eva.present_heights imgs <> [] ->
        let heights := Eva.present_heights imgs in
        Notions.first_accepted (Eva.can_partition heights)
          (Eva.candidates heights) (Eva._infer_column_height imgs)
        \/ (Forall (fun c => Eva.can_partition heights c = false)
                   (Eva.candidates heights)
            /\ Eva._infer_column_height imgs = sum heights)).
Proof.
  intros Hw0 Hw1 Hw2 Hth im0 im1 im2 images.
  split; [by apply three_images_height|].
  split; [by vm_compute|].
  split.
  { exists [448; 480; 512; 384; 320; 256], [200; 300].
    split; [by vm_compute|]. split; [by vm_compute|].
    repeat constructor. }
  split; [unfold images, im0, im1, im2; by rewrite three_images_layout|].
  split; [by apply three_images_compose|].
  split; [apply candidates_order|apply infer_first_accepted].
Qed.

Lemma three_equal_heights_columns_witness :
  Eva._infer_column_height Samples.three_images = 100
  /\ Eva.positions (Eva.place_all 100 Samples.three_images)
     = [(0, 0); (64, 0); (96, 0)].
Proof.
  destruct (three_equal_heights_columns Samples.no_size 64 32 16 [] [] [])
    as (Hh & _ & _ & Hp & _); [lia..|reflexivity|].
  split; [exact Hh|exact Hp].
Defined.

(** C1 (as stated) fails: for three images of height 100 and widths 64,
    32, 16 the inferred height is 100, and the second image opens a new
    column at (64,0) instead of sitting at (0,100). *)
Lemma three_equal_heights_not_200 :
  ~ (Eva._infer_column_height Samples.three_images = 200
     /\ Eva.positions
          (Eva.place_all (Eva._infer_column_height Samples.three_images)
                         Samples.three_images)
        = [(0, 0); (0, 100); (64, 0)]).
Proof. vm_compute. intros [? _]. done. Qed.

(* ================================================================== *)
(** * The legacy decoder: header, palette and bounds                   *)
(* ================================================================== *)

Section LegacyFile.
Import Legacy Notions.
Variable data : list byte.
Hypothesis Hlen : 0x40 <= len data.

Let width := field data 0x24 2.
Let height := field data 0x26 2.
Let pixel_data_size := field data 0x18 4.
Let cont := field data 0x1E 2.
Let pixels := slice data 0x40 (0x40 + pixel_data_size).
Let palette_data := slice_from data (0x40 + pixel_data_size).

(** With the 0x40 header bytes present, the four header reads succeed and
    the rest of [process_tm2_file] is what decides the outcome. *)
Lemma process_tm2_file_body :
  process_tm2_file data
  = (original_palette ← read_palette palette_data cont;
     let palette := resolve_palette cont original_palette in
     img_data ← decode_pixels cont width height pixel_data_size pixels palette;
     img ← putdata (Image_new width height) img_data;
     _ ← save (im_width img) (im_height img);
     mret (Outcome [Msg_converted] (Some img))).
Proof.
  unfold process_tm2_file.
  destruct (Z.ltb_spec (len data) 0x40); [lia|].
  rewrite !(unpack_H_at data), !(unpack_I_at data) by lia. done.
Qed.

Lemma len_pixels : len pixels = Z.min pixel_data_size (len data - 0x40).
Proof.
  pose proof (field_nonneg data 0x18 4).
  unfold pixels, len. rewrite length_slice. fold pixel_data_size.
  unfold len in Hlen. lia.
Qed.

Lemma len_palette_data :
  len palette_data = Z.max 0 (len data - 0x40 - pixel_data_size).
Proof.
  pose proof (field_nonneg data 0x18 4).
  unfold palette_data, slice_from, len. rewrite length_drop.
  fold pixel_data_size. lia.
Qed.
End LegacyFile.

Lemma getbyte_cases (l : list byte) i :
  0 <= i ->
  (i < len l /\ exists c, getbyte l i = Ok (byte_val c))
  \/ (len l <= i /\ getbyte l i = Raise IndexError).
Proof.
  intros Hi. destruct (Z.lt_ge_cases i (len l)) as [Hlt|Hge].
  - left. split; [done|].
    destruct (getbyte_inside l i) as (c & E & _); [lia|]. by exists c.
  - right. split; [done|]. by apply getbyte_outside.
Qed.

(** Four consecutive byte reads at [pos .. pos+3], as in the palette loop
    and the direct-colour loop: all succeed when the bytes are there, and
    the first missing one raises [IndexError]. *)
Lemma four_bytes {B} (l : list byte) pos (k : Z -> Z -> Z -> Z -> result B) :
  0 <= pos ->
  (pos + 3 < len l /\
     exists r g b a,
       (r ← getbyte l pos; g ← getbyte l (pos + 1); b ← getbyte l (pos + 2);
        a ← getbyte l (pos + 3); k r g b a) = k r g b a)
  \/ (len l <= pos + 3 /\
      (r ← getbyte l pos; g ← getbyte l (pos + 1); b ← getbyte l (pos + 2);
       a ← getbyte l (pos + 3); k r g b a) = Raise IndexError).
Proof.
  intros Hpos.
  destruct (getbyte_cases l pos) as [[? [c0 ->]]|[? ->]]; [lia| |right; split; [lia|done]].
  destruct (getbyte_cases l (pos + 1)) as [[? [c1 ->]]|[? ->]];
    [lia| |right; split; [lia|done]].
  destruct (getbyte_cases l (pos + 2)) as [[? [c2 ->]]|[? ->]];
    [lia| |right; split; [lia|done]].
  destruct (getbyte_cases l (pos + 3)) as [[? [c3 ->]]|[? ->]];
    [lia| |right; split; [lia|done]].
  left. split; [done|]. by eexists _, _, _, _.
Qed.

Lemma palette_entry_cases palette_data i original_palette :
  0 <= i ->
  (i * 4 + 3 < len palette_data /\
     exists p, Legacy.palette_entry palette_data i original_palette
               = Ok (Next (original_palette ++ [p])))
  \/ (len palette_data <= i * 4 + 3 /\
      Legacy.palette_entry palette_data i original_palette = Raise IndexError).
Proof.
  intros Hi. unfold Legacy.palette_entry.
  destruct (four_bytes palette_data (i * 4)
              (fun r g b a => mret (Next (original_palette ++ [(r, g, b, Legacy.alpha a)]))))
    as [[? (r & g & b & a & ->)]|[? ->]]; [lia| |by right].
  left. split; [done|]. by eexists.
Qed.


Lemma read_palette_short palette_data cont :
  0 < cont -> len palette_data < 4 * cont ->
  Legacy.read_palette palette_data cont = Raise IndexError.
Proof.
  intros Hpos Hshort. unfold Legacy.read_palette.
  apply (for_loop_raises _ _ _ _ (cont - 1)).
  - unfold range. apply elem_of_seqZ. lia.
  - intros i s Hi. unfold range in Hi. apply elem_of_seqZ in Hi.
    destruct (palette_entry_cases palette_data i s) as [[_ [p ->]]|[_ ->]];
      [lia| |by left]. right. by eexists.
  - intros s.
    destruct (palette_entry_cases palette_data (cont - 1) s) as [[? _]|[_ ->]];
      [lia|lia|done].
Qed.

(** The direct-colour loop body either appends one pixel or raises. *)
Lemma body0_cases pixels i img_data :
  0 <= i ->
  (i + 3 < len pixels /\
     exists p, Legacy.body0 pixels i img_data = Ok (Next (img_data ++ [p])))
  \/ (len pixels <= i + 3 /\ Legacy.body0 pixels i img_data = Raise IndexError).
Proof.
  intros Hi. unfold Legacy.body0.
  destruct (four_bytes pixels i
              (fun r g b a => mret (Next (img_data ++ [(r, g, b, Legacy.alpha a)]))))
    as [[? (r & g & b & a & ->)]|[? ->]]; [lia| |by right].
  left. split; [done|]. by eexists.
Qed.

Lemma elem_of_range3 start stop i :
  i ∈ range3 start stop 4 <->
  exists k, i = start + k * 4 /\ 0 <= k /\ start + k * 4 < stop.
Proof.
  unfold range3. rewrite list_elem_of_fmap. split.
  - intros (k & -> & Hk). apply elem_of_seqZ in Hk. exists k.
    Z.div_mod_to_equations. lia.
  - intros (k & -> & Hk0 & Hk). exists k. split; [done|].
    apply elem_of_seqZ. Z.div_mod_to_equations. lia.
Qed.

(** When the pixel block is cut short, the direct-colour loop raises. *)
Lemma direct_loop_short pixels pixel_data_size img_data :
  len pixels < pixel_data_size ->
  for_loop (range3 0 pixel_data_size 4) (Legacy.body0 pixels) img_data
  = Raise IndexError.
Proof.
  intros Hshort. assert (0 <= len pixels) by (unfold len; lia).
  apply (for_loop_raises _ _ _ _ (0 + (pixel_data_size - 1) / 4 * 4)).
  - apply elem_of_range3. exists ((pixel_data_size - 1) / 4).
    Z.div_mod_to_equations. lia.
  - intros i s Hi. apply elem_of_range3 in Hi as (k & -> & Hk & _).
    destruct (body0_cases pixels (0 + k * 4) s) as [[_ [p ->]]|[_ ->]];
      [lia| |by left]. right. by eexists.
  - intros s.
    destruct (body0_cases pixels (0 + (pixel_data_size - 1) / 4 * 4) s)
      as [[? _]|[_ ->]]; [| |done]; Z.div_mod_to_equations; lia.
Qed.

(** Any announced palette or pixel block reaching past the end of the
    file makes [process_tm2_file] raise [IndexError]. *)
Lemma process_tm2_file_overrun (data : list byte) :
  0x40 <= len data ->
  len data < 0x40 + Notions.field data 0x18 4 + 4 * Notions.field data 0x1E 2 ->
  Legacy.process_tm2_file data = Raise IndexError.
Proof.
  intros Hlen Hover. rewrite process_tm2_file_body by done.
  pose proof (field_nonneg data 0x18 4) as Hpds.
  pose proof (field_nonneg data 0x1E 2) as Hcont.
  pose proof (len_palette_data data) as Hpal.
  pose proof (len_pixels data Hlen) as Hpix.
  destruct (Z.eq_dec (Notions.field data 0x1E 2) 0) as [E0|Hne].
  - rewrite E0 in *. change (Legacy.read_palette _ 0) with (Ok (@nil pixel)).
    unfold mbind at 1, result_bind at 1. cbv beta iota zeta.
    unfold Legacy.decode_pixels. cbn [Z.eqb].
    rewrite direct_loop_short; [done|lia].
  - rewrite read_palette_short; [done|lia|lia].
Qed.

(** C3 (amended). In the legacy decoder, for every buffer of at least 0x40
    bytes in which the pixel block and the palette announced by the header
    (pixel-data size at 0x18, palette entry count at 0x1E) reach past the
    end of the buffer, the per-picture decode raises [IndexError]: no
    image is written and nothing is printed by it.  The failure is not
    global: the batch loop catches the exception, logs one error line for
    that file, leaves the written images and the count as they were, and
    carries on with the remaining files. *)
Theorem overrun_raises_and_batch_continues (data : list byte) :
  0x40 <= len data ->
  len data < 0x40 + Notions.field data 0x18 4 + 4 * Notions.field data 0x1E 2 ->
  Legacy.process_tm2_file data = Raise IndexError
  /\ forall st rest,
       foldl Legacy.main_step st (data :: rest)
       = foldl Legacy.main_step
           (Legacy.Batch (Legacy.log st ++ [Msg_file_error IndexError])
                         (Legacy.written st) (Legacy.count st))
           rest.
Proof.
  intros Hlen Hover.
  pose proof (process_tm2_file_overrun data Hlen Hover) as E.
  split; [done|]. intros st rest. simpl. unfold Legacy.main_step at 2.
  by rewrite E.
Qed.

Lemma overrun_raises_and_batch_continues_witness :
  Legacy.process_tm2_file Samples.legacy_no_palette = Raise IndexError
  /\ Legacy.main [Samples.legacy_direct; Samples.legacy_no_palette; Samples.legacy_direct]
     = Legacy.Batch
         [Msg_converted; Msg_file_error IndexError; Msg_converted; Msg_summary 2]
         [Image 1 1 [(10, 20, 30, 255)]; Image 1 1 [(10, 20, 30, 255)]] 2.
Proof.
  destruct (overrun_raises_and_batch_continues Samples.legacy_no_palette)
    as [E Hbatch]; [by vm_compute..|].
  split; [exact E|].
  unfold Legacy.main.
  change (foldl Legacy.main_step (Legacy.Batch [] [] 0)
            [Samples.legacy_direct; Samples.legacy_no_palette; Samples.legacy_direct])
    with (foldl Legacy.main_step
            (Legacy.main_step (Legacy.Batch [] [] 0) Samples.legacy_direct)
            (Samples.legacy_no_palette :: [Samples.legacy_direct])).
  rewrite Hbatch. by vm_compute.
Defined.

(** C3 (as stated) fails: a 0x40-byte file announcing a 16-entry palette
    makes the per-picture decode raise instead of skipping quietly. *)
Lemma overrun_exception_escapes :
  0x40 <= len Samples.legacy_no_palette
  /\ len Samples.legacy_no_palette
     < 0x40 + Notions.field Samples.legacy_no_palette 0x18 4
       + 4 * Notions.field Samples.legacy_no_palette 0x1E 2
  /\ raises (Legacy.process_tm2_file Samples.legacy_no_palette).
Proof.
  split; [by vm_compute|]. split; [by vm_compute|].
  exists IndexError. by vm_compute.
Qed.




(* ================================================================== *)
(** * The palette reorder of the legacy decoder                       *)
(* ================================================================== *)

Section Reorder.
Import Legacy Notions.
Context {A : Type}.
Implicit Types (p mg : list A) (bs : list (list A)).

Lemma reorder_major_group_swap mg : reorder_major_group mg = swap_middle mg.
Proof.
  unfold reorder_major_group, swap_middle, slice. simpl.
  by rewrite !drop_drop.
Qed.

(** The loop of the source builds the same list as the specification's
    grouping, for every palette. *)
Lemma reorder_palette_spec p : reorder_palette p = reorder_spec p.
Proof.
  unfold reorder_palette, reorder_spec.
  change (range3 0 256 32) with [0; 32; 64; 96; 128; 160; 192; 224].
  unfold slice. simpl.
  rewrite !reorder_major_group_swap, !drop_drop, app_nil_r, <- !app_assoc.
  done.
Qed.

Lemma lookup_chunks size count p (j : nat) :
  (j < count)%nat ->
  chunks size count p !! j = Some (take size (drop (size * j) p)).
Proof.
  revert p j. induction count as [|c IH]; intros p j Hj; [lia|].
  destruct j as [|j]; simpl.
  - by rewrite Nat.mul_0_r.
  - rewrite IH by lia. rewrite drop_drop. do 3 f_equal. lia.
Qed.

Lemma length_chunks size count p : length (chunks size count p) = count.
Proof. revert p. induction count as [|c IH]; intros p; simpl; [done|]. by rewrite IH. Qed.



Lemma length_swap_middle mg : length mg = 32%nat -> length (swap_middle mg) = 32%nat.
Proof.
  intros Hmg. unfold swap_middle. simpl chunks. cbv iota.
  rewrite !length_app, !length_take, !length_drop. lia.
Qed.


Lemma length_reorder_palette p :
  length p = 256%nat -> length (reorder_palette p) = 256%nat.
Proof.
  intros Hp. rewrite reorder_palette_spec. unfold reorder_spec.
  cbn [chunks fmap list_fmap concat].
  rewrite !length_app, !length_swap_middle
    by (rewrite length_take, ?length_drop; lia).
  done.
Qed.
End Reorder.






(* ================================================================== *)
(** * The pixel plane of the legacy decoder                           *)
(* ================================================================== *)

Section IndexedPixels.
Import Legacy Notions.

Lemma slice_cons {A} (l : list A) i m c :
  0 <= i -> i < m -> l !! Z.to_nat i = Some c ->
  slice l i m = c :: slice l (i + 1) m.
Proof.
  intros Hi Hm Hc. unfold slice.
  replace (Z.to_nat (m - i)) with (S (Z.to_nat (m - (i + 1)))) by lia.
  replace (Z.to_nat (i + 1)) with (S (Z.to_nat i)) by lia.
  rewrite (drop_S l c (Z.to_nat i)) by done. done.
Qed.

Lemma slice_empty {A} (l : list A) i : slice l i i = [].
Proof. unfold slice. by rewrite Z.sub_diag. Qed.

(** A loop over [i, i+1, ...] that stops at index [stop] and otherwise
    reads byte [i] and appends what it stands for. *)
Lemma indexed_loop (pixels : list byte) (stop : Z) (emit : byte -> list pixel)
    (body : Z -> list pixel -> result (flow (list pixel))) :
  (forall acc, body stop acc = Ok (Break acc)) ->
  (forall i acc c, 0 <= i -> i <> stop -> pixels !! Z.to_nat i = Some c ->
     body i acc = Ok (Next (acc ++ emit c))) ->
  forall (k : nat) i acc,
    0 <= i <= stop ->
    Z.min (i + Z.of_nat k) stop <= len pixels ->
    for_loop (seqZ i (Z.of_nat k)) body acc
    = Ok (acc ++ (slice pixels i (Z.min (i + Z.of_nat k) stop) ≫= emit)).
Proof.
  intros Hstop Hstep. induction k as [|k IH]; intros i acc Hi Hfit.
  - simpl. replace (Z.min (i + Z.of_nat 0) stop) with i by lia.
    by rewrite slice_empty, app_nil_r.
  - rewrite seqZ_cons by lia. simpl for_loop.
    destruct (Z.eq_dec i stop) as [->|Hne].
    + rewrite Hstop. replace (Z.min (stop + Z.of_nat (S k)) stop) with stop by lia.
      by rewrite slice_empty, app_nil_r.
    + destruct (getitem_inside pixels i) as (c & _ & Hc); [lia|].
      rewrite (Hstep i acc c) by (done || lia).
      replace (Z.pred (Z.of_nat (S k))) with (Z.of_nat k) by lia.
      rewrite IH by lia.
      rewrite (slice_cons pixels i _ c) by (done || lia).
      replace (Z.succ i + Z.of_nat k) with (i + Z.of_nat (S k)) by lia.
      replace (Z.succ i) with (i + 1) by lia.
      simpl. by rewrite <- app_assoc.
Qed.

Lemma getitem_colour palette index :
  0 <= index < len palette -> getitem palette index = Ok (colour palette index).
Proof.
  intros Hi. destruct (getitem_inside palette index Hi) as (v & -> & Hv).
  unfold colour. by rewrite Hv.
Qed.

Lemma nibbles_range (c : byte) :
  0 <= Z.land (byte_val c) 0xF < 16
  /\ 0 <= Z.land (Z.shiftr (byte_val c) 4) 0xF < 16.
Proof.
  assert (forall v, 0 <= v -> 0 <= Z.land v 0xF < 16) as Hland.
  { intros v Hv. split; [apply Z.land_nonneg; lia|].
    change 0xF with (Z.ones 4). rewrite Z.land_ones by lia.
    apply Z.mod_pos_bound. lia. }
  pose proof (byte_val_range c). split; apply Hland; [lia|].
  apply Z.shiftr_nonneg. lia.
Qed.

Variables (width height pixel_data_size : Z) (pixels : list byte)
          (palette : list pixel).
Hypothesis Hsize : 0 <= width * height.
Hypothesis Hpds : 0 <= pixel_data_size.

(** 256 colours: one pixel per index byte, [palette[byte]], for the first
    [min(pixel_data_size, width*height)] bytes and no more. *)
Lemma decode_256 :
  len palette = 256 ->
  Z.min pixel_data_size (width * height) <= len pixels ->
  decode_pixels 256 width height pixel_data_size pixels palette
  = Ok (take (Z.to_nat (Z.min pixel_data_size (width * height))) pixels
        ≫= emit256 palette).
Proof.
  intros Hpal Hfit. unfold decode_pixels, range. simpl (256 =? 256).
  rewrite <- (Z2Nat.id pixel_data_size) at 1 by done.
  rewrite (indexed_loop pixels (width * height) (emit256 palette)).
  - simpl. unfold slice. rewrite drop_0. do 3 f_equal. lia.
  - intros acc. unfold body256. by rewrite Z.eqb_refl.
  - intros i acc c Hi Hne Hc. unfold body256.
    destruct (Z.eqb_spec i (width * height)); [done|].
    destruct (getbyte_inside pixels i) as (c' & -> & Hc').
    { apply lookup_lt_Some in Hc. unfold len. lia. }
    assert (c' = c) as -> by congruence. simpl.
    pose proof (byte_val_range c).
    rewrite getitem_colour by lia. done.
  - lia.
  - lia.
Qed.

(** 16 colours: two pixels per index byte, low nibble first, for the
    first [min(pixel_data_size, width*height // 2)] bytes and no more. *)
Lemma decode_16 :
  len palette = 16 ->
  Z.min pixel_data_size ((width * height) `div` 2) <= len pixels ->
  decode_pixels 16 width height pixel_data_size pixels palette
  = Ok (take (Z.to_nat (Z.min pixel_data_size ((width * height) `div` 2))) pixels
        ≫= emit16 palette).
Proof.
  intros Hpal Hfit. unfold decode_pixels, range.
  simpl (16 =? 256). simpl (16 =? 16). cbv iota.
  assert (0 <= (width * height) `div` 2) by (apply Z.div_pos; lia).
  rewrite <- (Z2Nat.id pixel_data_size) at 1 by done.
  rewrite (indexed_loop pixels ((width * height) `div` 2) (emit16 palette)).
  - simpl. unfold slice. rewrite drop_0. do 3 f_equal. lia.
  - intros acc. unfold body16. by rewrite Z.eqb_refl.
  - intros i acc c Hi Hne Hc. unfold body16.
    destruct (Z.eqb_spec i ((width * height) `div` 2)); [done|].
    destruct (getbyte_inside pixels i) as (c' & -> & Hc').
    { apply lookup_lt_Some in Hc. unfold len. lia. }
    assert (c' = c) as -> by congruence. simpl.
    destruct (nibbles_range c) as [Hlo Hhi].
    rewrite !getitem_colour by lia. simpl. by rewrite <- app_assoc.
  - lia.
  - lia.
Qed.
End IndexedPixels.

Lemma length_emit256 palette (l : list byte) :
  length (l ≫= Notions.emit256 palette) = length l.
Proof.
  induction l as [|c l IH]; [done|].
  change ((c :: l) ≫= Notions.emit256 palette)
    with (Notions.emit256 palette c ++ (l ≫= Notions.emit256 palette)).
  rewrite length_app, IH. done.
Qed.

Lemma length_emit16 palette (l : list byte) :
  length (l ≫= Notions.emit16 palette) = (2 * length l)%nat.
Proof.
  induction l as [|c l IH]; [done|].
  change ((c :: l) ≫= Notions.emit16 palette)
    with (Notions.emit16 palette c ++ (l ≫= Notions.emit16 palette)).
  rewrite length_app, IH. simpl. lia.
Qed.

(** With 256 colours exactly [width*height] pixels come out when the
    block holds at least that many index bytes. *)
Lemma decode_256_count width height pixel_data_size pixels palette :
  0 <= width * height -> width * height <= pixel_data_size ->
  width * height <= len pixels -> len palette = 256 ->
  exists img_data,
    Legacy.decode_pixels 256 width height pixel_data_size pixels palette
    = Ok img_data
    /\ len img_data = width * height.
Proof.
  intros Hsize Hpds Hfit Hpal. eexists. split.
  - apply decode_256; [done|lia|done|lia].
  - unfold len in *. rewrite length_emit256, length_take. lia.
Qed.

(** With 16 colours [2 * (width*height // 2)] pixels come out: all of
    them for an even pixel count, one short for an odd one. *)
Lemma decode_16_count width height pixel_data_size pixels palette :
  0 <= width * height -> (width * height) `div` 2 <= pixel_data_size ->
  (width * height) `div` 2 <= len pixels -> len palette = 16 ->
  exists img_data,
    Legacy.decode_pixels 16 width height pixel_data_size pixels palette
    = Ok img_data
    /\ len img_data = 2 * ((width * height) `div` 2)
    /\ len img_data = width * height - (width * height) `mod` 2.
Proof.
  intros Hsize Hpds Hfit Hpal.
  assert (0 <= (width * height) `div` 2) by (apply Z.div_pos; lia).
  eexists. split; [apply decode_16; [done|lia|done|lia]|].
  unfold len in *. rewrite length_emit16, length_take.
  split; [lia|]. Z.div_mod_to_equations. lia.
Qed.

(** The byte 0x21 stands for palette entry 1, then palette entry 2. *)
Lemma emit16_low_nibble_first palette :
  Notions.emit16 palette x21
  = [Notions.colour palette 1; Notions.colour palette 2].
Proof. reflexivity. Qed.

(** C7. The 256-colour and 16-colour loops map index bytes to palette
    entries as specified (see [decode_256], [decode_16] and
    [emit16_low_nibble_first]), but the 16-colour loop stops after
    [width*height // 2] bytes, so a picture with an odd number of pixels
    loses its last one.  Here a 3x1 picture with index bytes 0x21, 0x03
    and the palette [(k,k,k,255)]: three pixels are expected (entries 1,
    2, 3); two are decoded and the third stays transparent. *)
Theorem odd_16_colour_picture_loses_last_pixel :
  (exists palette,
     Legacy.read_palette Samples.grey16 16 = Ok palette
     /\ Legacy.decode_pixels 16 3 1 2 [x21; x03] palette
        = Ok [(1, 1, 1, 255); (2, 2, 2, 255)])
  /\ Legacy.process_tm2_file Samples.legacy_odd16
     = Ok (Legacy.Outcome [Msg_converted]
             (Some (Image 3 1 [(1, 1, 1, 255); (2, 2, 2, 255); transparent]))).
Proof.
  split; [|by vm_compute].
  eexists. split; by vm_compute.
Qed.

(* ================================================================== *)
(** * The legacy decoder: palettes and direct colour, cell by cell     *)
(* ================================================================== *)

Section LegacyCells.
Import Legacy Notions.

Lemma for_loop_fmap {A B S} (f : A -> B) (xs : list A)
    (body : B -> S -> result (flow S)) s :
  for_loop (f <$> xs) body s = for_loop xs (fun x => body (f x)) s.
Proof.
  revert s. induction xs as [|x xs IH]; intros s; simpl; [done|].
  destruct (body (f x) s) as [[s'|s']|e]; [apply IH|done|done].
Qed.

Lemma for_loop_ext {A S} (xs : list A) (body body' : A -> S -> result (flow S)) s :
  (forall x s, x ∈ xs -> body x s = body' x s) ->
  for_loop xs body s = for_loop xs body' s.
Proof.
  revert s. induction xs as [|x xs IH]; intros s Hext; simpl; [done|].
  rewrite <- Hext by left.
  destruct (body x s) as [[s'|s']|e]; [|done|done].
  apply IH. intros y t Hy. apply Hext. by right.
Qed.

Lemma slice_four (l : list byte) k m c0 c1 c2 c3 :
  0 <= k -> 4 * k + 3 < m ->
  l !! Z.to_nat (4 * k) = Some c0 -> l !! Z.to_nat (4 * k + 1) = Some c1 ->
  l !! Z.to_nat (4 * k + 2) = Some c2 -> l !! Z.to_nat (4 * k + 3) = Some c3 ->
  slice l (4 * k) m = c0 :: c1 :: c2 :: c3 :: slice l (4 * (k + 1)) m.
Proof.
  intros Hk Hm H0 H1 H2 H3.
  rewrite (slice_cons l (4 * k) m c0) by (done || lia).
  rewrite (slice_cons l (4 * k + 1) m c1) by (done || lia).
  replace (4 * k + 1 + 1) with (4 * k + 2) by lia.
  rewrite (slice_cons l (4 * k + 2) m c2) by (done || lia).
  replace (4 * k + 2 + 1) with (4 * k + 3) by lia.
  rewrite (slice_cons l (4 * k + 3) m c3) by (done || lia).
  do 4 f_equal. f_equal. lia.
Qed.

(** A loop over cell numbers [i, i+1, ...] whose body reads the four
    bytes of its cell and appends the pixel they stand for. *)
Lemma cell_loop (l : list byte)
    (body : Z -> list pixel -> result (flow (list pixel))) :
  (forall k acc, 0 <= k ->
     body k acc
     = (r ← getbyte l (4 * k); g ← getbyte l (4 * k + 1);
        b ← getbyte l (4 * k + 2); a ← getbyte l (4 * k + 3);
        mret (Next (acc ++ [(r, g, b, alpha a)])))) ->
  forall (n : nat) i acc,
    0 <= i -> 4 * (i + Z.of_nat n) <= len l ->
    for_loop (seqZ i (Z.of_nat n)) body acc
    = Ok (acc ++ legacy_cells (slice l (4 * i) (4 * (i + Z.of_nat n)))).
Proof.
  intros Hbody. induction n as [|n IH]; intros i acc Hi Hfit.
  - simpl. replace (4 * (i + Z.of_nat 0)) with (4 * i) by lia.
    by rewrite slice_empty, app_nil_r.
  - rewrite seqZ_cons by lia. simpl for_loop. rewrite Hbody by done.
    destruct (getbyte_inside l (4 * i)) as (c0 & -> & H0); [lia|].
    destruct (getbyte_inside l (4 * i + 1)) as (c1 & -> & H1); [lia|].
    destruct (getbyte_inside l (4 * i + 2)) as (c2 & -> & H2); [lia|].
    destruct (getbyte_inside l (4 * i + 3)) as (c3 & -> & H3); [lia|].
    simpl. replace (Z.pred (Z.of_nat (S n))) with (Z.of_nat n) by lia.
    rewrite IH by lia.
    rewrite (slice_four l i _ c0 c1 c2 c3) by (done || lia).
    replace (Z.succ i + Z.of_nat n) with (i + Z.of_nat (S n)) by lia.
    replace (Z.succ i) with (i + 1) by lia.
    unfold legacy_cells. simpl. by rewrite <- app_assoc.
Qed.

(** The palette loop: entry [k] is made of bytes [4k .. 4k+3] of the
    palette data. *)
Lemma read_palette_cells palette_data cont :
  0 <= cont -> 4 * cont <= len palette_data ->
  read_palette palette_data cont
  = Ok (legacy_cells (take (Z.to_nat (4 * cont)) palette_data)).
Proof.
  intros Hcont Hfit. unfold read_palette, range.
  rewrite <- (Z2Nat.id cont) at 1 by done.
  rewrite (cell_loop palette_data) by (done || lia || (intros; unfold palette_entry;
    by replace (k * 4) with (4 * k) by lia)).
  simpl. unfold slice. rewrite drop_0. do 3 f_equal. lia.
Qed.

(** The direct-colour loop: pixel [k] is made of bytes [4k .. 4k+3] of
    the pixel block. *)
Lemma direct_loop_cells pixels pixel_data_size :
  0 <= pixel_data_size -> pixel_data_size `mod` 4 = 0 ->
  pixel_data_size <= len pixels ->
  for_loop (range3 0 pixel_data_size 4) (body0 pixels) []
  = Ok (legacy_cells (take (Z.to_nat pixel_data_size) pixels)).
Proof.
  intros Hpds Hmod Hfit. unfold range3. rewrite for_loop_fmap.
  assert (0 <= (pixel_data_size - 0 + 4 - 1) / 4) by (Z.div_mod_to_equations; lia).
  rewrite <- (Z2Nat.id ((pixel_data_size - 0 + 4 - 1) / 4)) by done.
  rewrite (cell_loop pixels).
  - simpl. unfold slice. rewrite drop_0. do 3 f_equal.
    Z.div_mod_to_equations. lia.
  - intros k acc Hk. unfold body0.
    by replace (0 + k * 4) with (4 * k) by lia.
  - done.
  - Z.div_mod_to_equations. lia.
Qed.

Lemma length_cells (buf : list byte) :
  length (Eva.cells buf) = (length buf / 4)%nat.
Proof.
  assert (forall n (b : list byte), (length b <= n)%nat ->
            length (Eva.cells b) = (length b / 4)%nat) as Hgen.
  { induction n as [|n IH]; intros b Hb.
    - destruct b; [done|simpl in Hb; lia].
    - destruct b as [|c0 [|c1 [|c2 [|c3 b]]]]; try reflexivity.
      simpl Eva.cells. simpl length. rewrite IH by (simpl in Hb; lia).
      change (S (S (S (S (length b))))) with (4 + length b)%nat.
      symmetry. replace (4 + length b)%nat with (length b + 1 * 4)%nat by lia.
      rewrite Nat.div_add by lia. lia. }
  by apply (Hgen (length buf)).
Qed.

Lemma lookup_cells (buf : list byte) (k : nat) c0 c1 c2 c3 :
  buf !! (4 * k)%nat = Some c0 -> buf !! (4 * k + 1)%nat = Some c1 ->
  buf !! (4 * k + 2)%nat = Some c2 -> buf !! (4 * k + 3)%nat = Some c3 ->
  Eva.cells buf !! k = Some (byte_val c0, byte_val c1, byte_val c2, byte_val c3).
Proof.
  revert buf. induction k as [|k IH]; intros buf H0 H1 H2 H3.
  - destruct buf as [|b0 [|b1 [|b2 [|b3 buf]]]]; try done.
    simpl in *. by simplify_eq.
  - replace (4 * S k)%nat with (S (S (S (S (4 * k))))) in * by lia.
    destruct buf as [|b0 [|b1 [|b2 [|b3 buf]]]]; simpl in *; try done.
    by apply IH.
Qed.
End LegacyCells.

(* ================================================================== *)
(** * The legacy decoder: whole files                                 *)
(* ================================================================== *)

Lemma length_legacy_cells (buf : list byte) :
  length (Notions.legacy_cells buf) = (length buf / 4)%nat.
Proof. unfold Notions.legacy_cells. by rewrite length_fmap, length_cells. Qed.

Lemma len_legacy_palette palette_data cont :
  0 <= cont -> 4 * cont <= len palette_data ->
  len (Notions.legacy_cells (take (Z.to_nat (4 * cont)) palette_data)) = cont.
Proof.
  intros Hcont Hfit. unfold len in *.
  rewrite length_legacy_cells, length_take.
  replace (Z.to_nat (4 * cont) `min` length palette_data)%nat
    with (Z.to_nat cont * 4)%nat by lia.
  rewrite Nat.div_mul by lia. lia.
Qed.

(* ================================================================== *)
(** * What the raster keeps of a pixel                                *)
(* ================================================================== *)

Section StoredPixels.
Import Legacy Notions.

Lemma clip8_byte v : 0 <= v <= 255 -> clip8 v = v.
Proof.
  intros Hv. unfold clip8.
  destruct (Z.leb_spec v 0); [lia|]. destruct (Z.ltb_spec v 256); lia.
Qed.

Lemma clip8_range v : 0 <= clip8 v <= 255.
Proof.
  unfold clip8. destruct (Z.leb_spec v 0); [lia|].
  destruct (Z.ltb_spec v 256); lia.
Qed.

(** The byte stored for a legacy alpha value is the corrected alpha. *)
Lemma clip8_legacy_alpha a : clip8 (Legacy.alpha a) = correct a.
Proof.
  unfold clip8, Legacy.alpha, correct.
  destruct (Z.leb_spec (Z.min (a * 2 - 1) 255) 0); [lia|].
  destruct (Z.ltb_spec (Z.min (a * 2 - 1) 255) 256); lia.
Qed.



Lemma store_pixel_transparent : store_pixel transparent = transparent.
Proof. done. Qed.

(** Induction over a buffer four bytes at a time, as [cells] reads it. *)
Lemma cells_ind (P : list byte -> Prop) :
  (forall b, Eva.cells b = [] -> P b) ->
  (forall c0 c1 c2 c3 b, P b -> P (c0 :: c1 :: c2 :: c3 :: b)) ->
  forall b, P b.
Proof.
  intros Hshort Hstep b.
  assert (forall n (b : list byte), (length b <= n)%nat -> P b) as Hgen.
  { induction n as [|n IH]; intros b' Hb.
    - destruct b'; [by apply Hshort|simpl in Hb; lia].
    - destruct b' as [|c0 [|c1 [|c2 [|c3 b']]]]; try by apply Hshort.
      apply Hstep, IH. simpl in Hb. lia. }
  by apply (Hgen (length b)).
Qed.

Lemma store_legacy_cells (buf : list byte) :
  store_pixel <$> legacy_cells buf = corrected_cells buf.
Proof.
  induction buf as [b Hb|c0 c1 c2 c3 b IH] using cells_ind.
  - unfold legacy_cells, corrected_cells. by rewrite Hb.
  - unfold legacy_cells, corrected_cells in *.
    change (Eva.cells (c0 :: c1 :: c2 :: c3 :: b))
      with ((byte_val c0, byte_val c1, byte_val c2, byte_val c3) :: Eva.cells b).
    rewrite !fmap_cons, IH. f_equal. simpl.
    pose proof (byte_val_range c0). pose proof (byte_val_range c1).
    pose proof (byte_val_range c2).
    rewrite !clip8_byte by lia. by rewrite clip8_legacy_alpha.
Qed.


Lemma length_corrected_cells (buf : list byte) :
  length (corrected_cells buf) = (length buf / 4)%nat.
Proof. unfold corrected_cells. by rewrite length_fmap, length_cells. Qed.

Lemma colour_store palette i :
  colour (store_pixel <$> palette) i = store_pixel (colour palette i).
Proof.
  unfold colour. rewrite list_lookup_fmap.
  by destruct (palette !! Z.to_nat i).
Qed.

Lemma store_emit256 palette (l : list byte) :
  store_pixel <$> (l ≫= emit256 palette)
  = l ≫= emit256 (store_pixel <$> palette).
Proof.
  induction l as [|c l IH]; [done|].
  rewrite !bind_cons, fmap_app, IH. unfold emit256.
  by rewrite colour_store.
Qed.

Lemma store_emit16 palette (l : list byte) :
  store_pixel <$> (l ≫= emit16 palette)
  = l ≫= emit16 (store_pixel <$> palette).
Proof.
  induction l as [|c l IH]; [done|].
  rewrite !bind_cons, fmap_app, IH. unfold emit16.
  by rewrite !colour_store.
Qed.

Lemma reorder_palette_fmap {A B} (f : A -> B) (p : list A) :
  reorder_palette (f <$> p) = f <$> reorder_palette p.
Proof.
  unfold reorder_palette.
  change (range3 0 256 32) with [0; 32; 64; 96; 128; 160; 192; 224].
  unfold reorder_major_group, slice. simpl.
  repeat first [rewrite <- fmap_drop | rewrite <- fmap_take | rewrite <- fmap_app].
  done.
Qed.
End StoredPixels.

(** [putdata] with no more pixels than the raster holds: the decoded
    pixels as the raster keeps them, then the rest of the new image. *)
Lemma putdata_new width height (decoded : list pixel) :
  len decoded <= width * height ->
  putdata (Image_new width height) decoded
  = Ok (Image width height
          (Notions.padded (width * height) (store_pixel <$> decoded))).
Proof.
  intros Hfit. unfold putdata, Image_new, Notions.padded. simpl.
  unfold len in *. rewrite length_replicate, length_fmap.
  destruct (Z.ltb_spec (Z.of_nat (Z.to_nat (width * height)))
              (Z.of_nat (length decoded))); [lia|].
  by rewrite drop_replicate.
Qed.

Lemma save_positive w h : 0 < w -> 0 < h -> save w h = Ok tt.
Proof.
  intros Hw Hh. unfold save.
  apply Z.ltb_lt in Hw as ->. by apply Z.ltb_lt in Hh as ->.
Qed.

Lemma save_empty w h : ~ (0 < w /\ 0 < h) -> save w h = Raise SaveError_empty_image.
Proof.
  intros Hn. unfold save.
  destruct (Z.ltb_spec 0 w); destruct (Z.ltb_spec 0 h); simpl; try done; lia.
Qed.

Lemma len_padded n (decoded : list pixel) :
  len decoded <= n -> len (Notions.padded n decoded) = n.
Proof.
  intros Hfit. unfold Notions.padded, len in *.
  rewrite length_app, length_replicate. lia.
Qed.

Section LegacyIndexed.
Import Legacy Notions.
Variable data : list byte.
Hypothesis Hlen : 0x40 <= len data.

Let width := field data 0x24 2.
Let height := field data 0x26 2.
Let pixel_data_size := field data 0x18 4.
Let cont := field data 0x1E 2.
Let pixels := slice data 0x40 (0x40 + pixel_data_size).
Let palette_data := slice_from data (0x40 + pixel_data_size).
Let entries := legacy_cells (take (Z.to_nat (4 * cont)) palette_data).
Let stored := corrected_cells (take (Z.to_nat (4 * cont)) palette_data).

Hypothesis Hfit : 0x40 + pixel_data_size + 4 * cont <= len data.
Hypothesis Hwidth : 0 < width.
Hypothesis Hheight : 0 < height.

Lemma legacy_fields_nonneg :
  0 <= width /\ 0 <= height /\ 0 <= pixel_data_size /\ 0 <= cont.
Proof. repeat split; apply field_nonneg. Qed.

Lemma legacy_256_decodes :
  cont = 256 ->
  process_tm2_file data
  = Ok (Outcome [Msg_converted]
          (Some (Image width height
             (padded (width * height)
                (take (Z.to_nat (Z.min pixel_data_size (width * height))) pixels
                 ≫= emit256 (reorder_palette stored)))))).
Proof.
  intros Hc. destruct legacy_fields_nonneg as (Hw & Hh & Hpds & Hcont).
  pose proof (len_pixels data Hlen) as Hpix.
  pose proof (len_palette_data data) as Hpal.
  fold pixel_data_size pixels in Hpix. fold pixel_data_size palette_data in Hpal.
  rewrite process_tm2_file_body by done.
  fold pixel_data_size cont width height pixels palette_data.
  rewrite read_palette_cells by lia. fold entries.
  unfold mbind at 1, result_bind at 1. cbv beta iota zeta.
  unfold resolve_palette. rewrite Hc. simpl (256 =? 256). cbv iota.
  rewrite decode_256; [|nia|done| |lia].
  - unfold mbind at 1, result_bind at 1.
    rewrite putdata_new.
    + unfold mbind, result_bind. cbn [im_width im_height].
      rewrite save_positive by done.
      rewrite store_emit256, <- reorder_palette_fmap.
      unfold entries. by rewrite store_legacy_cells.
    + unfold len. rewrite length_emit256, length_take. lia.
  - unfold len. rewrite length_reorder_palette; [done|].
    pose proof (len_legacy_palette palette_data cont Hcont ltac:(lia)) as Hn.
    fold entries in Hn. unfold len in Hn. lia.
Qed.

Lemma legacy_16_decodes :
  cont = 16 ->
  process_tm2_file data
  = Ok (Outcome [Msg_converted]
          (Some (Image width height
             (padded (width * height)
                (take (Z.to_nat (Z.min pixel_data_size ((width * height) `div` 2)))
                      pixels
                 ≫= emit16 stored))))).
Proof.
  intros Hc. destruct legacy_fields_nonneg as (Hw & Hh & Hpds & Hcont).
  pose proof (len_pixels data Hlen) as Hpix.
  pose proof (len_palette_data data) as Hpal.
  fold pixel_data_size pixels in Hpix. fold pixel_data_size palette_data in Hpal.
  assert (0 <= width * height) by nia.
  assert (0 <= (width * height) `div` 2) by (apply Z.div_pos; lia).
  rewrite process_tm2_file_body by done.
  fold pixel_data_size cont width height pixels palette_data.
  rewrite read_palette_cells by lia. fold entries.
  unfold mbind at 1, result_bind at 1. cbv beta iota zeta.
  unfold resolve_palette. rewrite Hc. simpl (16 =? 256). cbv iota.
  rewrite decode_16; [|done|done| |lia].
  - unfold mbind at 1, result_bind at 1.
    rewrite putdata_new.
    + unfold mbind, result_bind. cbn [im_width im_height].
      rewrite save_positive by done.
      rewrite store_emit16. unfold entries. by rewrite store_legacy_cells.
    + unfold len. rewrite length_emit16, length_take.
      Z.div_mod_to_equations. lia.
  - pose proof (len_legacy_palette palette_data cont Hcont ltac:(lia)) as Hn.
    fold entries in Hn. lia.
Qed.
End LegacyIndexed.

(** X1. A legacy 256-colour file that announces a picture with pixels
    (width and height positive) and whose pixel block and 1024 palette
    bytes are all present is always converted: the image has the
    header's size, its first [min(pixel_data_size, width*height)] pixels
    are the entries of the reordered palette selected by the index bytes
    in order, each written with R, G, B as stored and the corrected
    alpha, and any further pixel stays transparent. *)
Theorem legacy_256_file_converts (data : list byte) :
  let width := Notions.field data 0x24 2 in
  let height := Notions.field data 0x26 2 in
  let pixel_data_size := Notions.field data 0x18 4 in
  let pixels := slice data 0x40 (0x40 + pixel_data_size) in
  let palette_data := slice_from data (0x40 + pixel_data_size) in
  let palette :=
    Legacy.reorder_palette (Notions.corrected_cells (take 1024 palette_data)) in
  0x40 <= len data ->
  0 < width -> 0 < height ->
  Notions.field data 0x1E 2 = 256 ->
  0x40 + pixel_data_size + 1024 <= len data ->
  Legacy.process_tm2_file data
  = Ok (Legacy.Outcome [Msg_converted]
          (Some (Image width height
             (Notions.padded (width * height)
                (take (Z.to_nat (Z.min pixel_data_size (width * height))) pixels
                 ≫= Notions.emit256 palette))))).
Proof.
  intros width height pixel_data_size pixels palette_data palette
    Hlen Hw Hh Hc Hfit.
  rewrite (legacy_256_decodes data Hlen);
    [|rewrite Hc; exact Hfit|exact Hw|exact Hh|exact Hc].
  by rewrite Hc.
Qed.

Lemma legacy_256_file_converts_witness :
  Legacy.process_tm2_file Samples.legacy_256
  = Ok (Legacy.Outcome [Msg_converted]
          (Some (Image 2 2 [(0, 0, 0, 255); (16, 16, 16, 255);
                            (8, 8, 8, 255); (255, 255, 255, 255)]))).
Proof.
  rewrite (legacy_256_file_converts Samples.legacy_256); by vm_compute.
Defined.

(** X2. A legacy 16-colour file that announces a picture with pixels
    (width and height positive) and whose pixel block and 64 palette
    bytes are all present is always converted: each of the first
    [min(pixel_data_size, width*height // 2)] index bytes gives two
    pixels, low nibble first, from the palette as read (no reorder),
    each written with R, G, B as stored and the corrected alpha, and any
    further pixel stays transparent. *)
Theorem legacy_16_file_converts (data : list byte) :
  let width := Notions.field data 0x24 2 in
  let height := Notions.field data 0x26 2 in
  let pixel_data_size := Notions.field data 0x18 4 in
  let pixels := slice data 0x40 (0x40 + pixel_data_size) in
  let palette_data := slice_from data (0x40 + pixel_data_size) in
  let palette := Notions.corrected_cells (take 64 palette_data) in
  0x40 <= len data ->
  0 < width -> 0 < height ->
  Notions.field data 0x1E 2 = 16 ->
  0x40 + pixel_data_size + 64 <= len data ->
  Legacy.process_tm2_file data
  = Ok (Legacy.Outcome [Msg_converted]
          (Some (Image width height
             (Notions.padded (width * height)
                (take (Z.to_nat (Z.min pixel_data_size ((width * height) `div` 2)))
                      pixels
                 ≫= Notions.emit16 palette))))).
Proof.
  intros width height pixel_data_size pixels palette_data palette
    Hlen Hw Hh Hc Hfit.
  rewrite (legacy_16_decodes data Hlen);
    [|rewrite Hc; exact Hfit|exact Hw|exact Hh|exact Hc].
  by rewrite Hc.
Qed.

Lemma legacy_16_file_converts_witness :
  Legacy.process_tm2_file Samples.legacy_16_clear
  = Ok (Legacy.Outcome [Msg_converted]
          (Some (Image 2 1 [(1, 1, 1, 0); (2, 2, 2, 0)]))).
Proof.
  rewrite (legacy_16_file_converts Samples.legacy_16_clear); by vm_compute.
Defined.

(** The direct-colour loop raises as soon as its last cell is not
    entirely inside the pixel block. *)
Lemma direct_loop_incomplete pixels pixel_data_size img_data :
  0 < pixel_data_size ->
  len pixels < 4 * ((pixel_data_size + 3) / 4) ->
  for_loop (range3 0 pixel_data_size 4) (Legacy.body0 pixels) img_data
  = Raise IndexError.
Proof.
  intros Hpos Hshort. assert (0 <= len pixels) by (unfold len; lia).
  apply (for_loop_raises _ _ _ _ (0 + (pixel_data_size - 1) / 4 * 4)).
  - apply elem_of_range3. exists ((pixel_data_size - 1) / 4).
    Z.div_mod_to_equations. lia.
  - intros i s Hi. apply elem_of_range3 in Hi as (k & -> & Hk & _).
    destruct (body0_cases pixels (0 + k * 4) s) as [[_ [p ->]]|[_ ->]];
      [lia| |by left]. right. by eexists.
  - intros s.
    destruct (body0_cases pixels (0 + (pixel_data_size - 1) / 4 * 4) s)
      as [[? _]|[_ ->]]; [| |done]; Z.div_mod_to_equations; lia.
Qed.

Section LegacyDirect.
Import Legacy Notions.
Variable data : list byte.
Hypothesis Hlen : 0x40 <= len data.
Hypothesis Hcont : field data 0x1E 2 = 0.

Let width := field data 0x24 2.
Let height := field data 0x26 2.
Let pixel_data_size := field data 0x18 4.
Let pixels := slice data 0x40 (0x40 + pixel_data_size).

Lemma legacy_direct_body :
  process_tm2_file data
  = (img_data ← for_loop (range3 0 pixel_data_size 4) (body0 pixels) [];
     img ← putdata (Image_new width height) img_data;
     _ ← save (im_width img) (im_height img);
     mret (Outcome [Msg_converted] (Some img))).
Proof.
  rewrite process_tm2_file_body by done. rewrite Hcont.
  change (read_palette _ 0) with (Ok (@nil pixel)).
  unfold mbind at 1, result_bind at 1. cbv beta iota zeta.
  unfold decode_pixels. cbn [Z.eqb]. done.
Qed.

Lemma legacy_direct_decodes :
  0 < width -> 0 < height ->
  0x40 + pixel_data_size <= len data ->
  pixel_data_size `mod` 4 = 0 ->
  pixel_data_size `div` 4 <= width * height ->
  process_tm2_file data
  = Ok (Outcome [Msg_converted]
          (Some (Image width height
             (padded (width * height) (corrected_cells pixels))))).
Proof.
  intros Hw Hh Hfit Hmod Hroom.
  pose proof (field_nonneg data 0x18 4) as Hpds. fold pixel_data_size in Hpds.
  pose proof (len_pixels data Hlen) as Hpix. fold pixel_data_size pixels in Hpix.
  rewrite legacy_direct_body, direct_loop_cells by lia.
  assert (take (Z.to_nat pixel_data_size) pixels = pixels) as ->.
  { apply take_ge. unfold len in Hpix. lia. }
  unfold mbind at 1, result_bind at 1.
  rewrite putdata_new.
  - unfold mbind, result_bind. cbn [im_width im_height].
    rewrite save_positive by done. by rewrite store_legacy_cells.
  - unfold len in *. rewrite length_legacy_cells.
    rewrite Nat2Z.inj_div. Z.div_mod_to_equations. lia.
Qed.

Lemma legacy_direct_raises :
  pixel_data_size `mod` 4 <> 0 ->
  process_tm2_file data = Raise IndexError.
Proof.
  intros Hmod.
  pose proof (field_nonneg data 0x18 4) as Hpds. fold pixel_data_size in Hpds.
  pose proof (len_pixels data Hlen) as Hpix. fold pixel_data_size pixels in Hpix.
  rewrite legacy_direct_body, direct_loop_incomplete; [done| |].
  - Z.div_mod_to_equations. lia.
  - Z.div_mod_to_equations. lia.
Qed.
End LegacyDirect.

(** X3. A legacy direct-colour file (palette count 0) that announces a
    picture with pixels (width and height positive) and whose pixel
    block is present, a multiple of 4 bytes long and no longer than the
    raster is converted: pixel [k] is written from bytes [4k .. 4k+3] of
    the block, R, G, B as stored and alpha corrected (a stored alpha of
    0 is written as 0), and the pixels the block does not reach stay
    transparent.  The number of pixels read is [pixel_data_size / 4],
    whatever width and height say. *)
Theorem legacy_direct_file_converts (data : list byte) :
  let width := Notions.field data 0x24 2 in
  let height := Notions.field data 0x26 2 in
  let pixel_data_size := Notions.field data 0x18 4 in
  let pixels := slice data 0x40 (0x40 + pixel_data_size) in
  0x40 <= len data ->
  0 < width -> 0 < height ->
  Notions.field data 0x1E 2 = 0 ->
  0x40 + pixel_data_size <= len data ->
  pixel_data_size `mod` 4 = 0 ->
  pixel_data_size `div` 4 <= width * height ->
  Legacy.process_tm2_file data
  = Ok (Legacy.Outcome [Msg_converted]
          (Some (Image width height
             (Notions.padded (width * height) (Notions.corrected_cells pixels)))))
  /\ len (Notions.corrected_cells pixels) = pixel_data_size `div` 4.
Proof.
  intros width height pixel_data_size pixels Hlen Hw Hh Hc Hfit Hmod Hroom.
  split; [by apply legacy_direct_decodes|].
  pose proof (field_nonneg data 0x18 4) as Hpds.
  pose proof (len_pixels data Hlen) as Hpix.
  fold pixel_data_size pixels in Hpds, Hpix.
  unfold len in *. rewrite length_corrected_cells, Nat2Z.inj_div.
  rewrite Hpix. f_equal. lia.
Qed.

Lemma legacy_direct_file_converts_witness :
  Legacy.process_tm2_file Samples.legacy_direct_short
  = Ok (Legacy.Outcome [Msg_converted]
          (Some (Image 2 1 [(10, 20, 30, 255); transparent]))).
Proof.
  destruct (legacy_direct_file_converts Samples.legacy_direct_short)
    as [E _]; [by vm_compute..|].
  rewrite E. by vm_compute.
Defined.

(** X4. A legacy direct-colour file (palette count 0) whose announced
    pixel block is not a multiple of 4 bytes long always fails with
    [IndexError]: the last pixel is read past the end of the block. *)
Theorem legacy_direct_ragged_block_raises (data : list byte) :
  0x40 <= len data ->
  Notions.field data 0x1E 2 = 0 ->
  Notions.field data 0x18 4 `mod` 4 <> 0 ->
  Legacy.process_tm2_file data = Raise IndexError.
Proof. intros Hlen Hc Hmod. by apply legacy_direct_raises. Qed.

Lemma legacy_direct_ragged_block_raises_witness :
  Legacy.process_tm2_file Samples.legacy_direct_ragged = Raise IndexError.
Proof.
  apply (legacy_direct_ragged_block_raises Samples.legacy_direct_ragged);
    by vm_compute.
Defined.

(* ================================================================== *)
(** * The legacy decoder: what a run leaves behind                     *)
(* ================================================================== *)

Lemma putdata_shape img seq img' :
  putdata img seq = Ok img' ->
  im_width img' = im_width img /\ im_height img' = im_height img
  /\ length (im_pixels img') = length (im_pixels img).
Proof.
  unfold putdata.
  destruct (Z.ltb_spec (len (im_pixels img)) (len seq)); [done|].
  intros [= <-]. simpl. unfold len in *.
  rewrite length_app, length_fmap, length_drop. lia.
Qed.

(** Whatever [process_tm2_file] returns without raising is either the
    too-small notice with nothing written, or one image of the header's
    size holding exactly [width*height] pixels. *)
Lemma process_tm2_file_outcome data o :
  Legacy.process_tm2_file data = Ok o ->
  (len data < 0x40 /\ o = Legacy.Outcome [Msg_file_too_small] None)
  \/ (0x40 <= len data /\
      exists img,
        o = Legacy.Outcome [Msg_converted] (Some img)
        /\ im_width img = Notions.field data 0x24 2
        /\ im_height img = Notions.field data 0x26 2
        /\ len (im_pixels img)
           = Notions.field data 0x24 2 * Notions.field data 0x26 2).
Proof.
  intros E. destruct (Z.lt_ge_cases (len data) 0x40) as [Hsmall|Hlen].
  - left. split; [done|]. unfold Legacy.process_tm2_file in E.
    destruct (Z.ltb_spec (len data) 0x40); [|lia]. congruence.
  - right. split; [done|].
    rewrite process_tm2_file_body in E by done.
    apply bind_ok_inv in E as (pal & _ & E). cbv zeta in E.
    apply bind_ok_inv in E as (img_data & _ & E).
    apply bind_ok_inv in E as (img & Hput & E).
    apply bind_ok_inv in E as ([] & _ & E).
    injection E as <-. exists img. split; [done|].
    apply putdata_shape in Hput as (Hw & Hh & Hn). simpl in *.
    pose proof (field_nonneg data 0x24 2). pose proof (field_nonneg data 0x26 2).
    unfold len. rewrite Hn, length_replicate. repeat split; [done..|]. nia.
Qed.

Section Batch.
Import Legacy Notions.

Lemma main_step_contribution st data :
  main_step st data
  = Batch (log st ++ file_lines data) (written st ++ file_images data)
          (count st + (if converts data then 1 else 0)).
Proof.
  unfold main_step, file_lines, file_images, converts.
  destruct (process_tm2_file data) as [o|e]; [done|].
  by rewrite app_nil_r, Z.add_0_r.
Qed.

(** The loop of [main] from any state adds, file by file, what each file
    contributes on its own. *)
Lemma batch_loop files st :
  foldl main_step st files
  = Batch (log st ++ flat_map file_lines files)
          (written st ++ flat_map file_images files)
          (count st + Z.of_nat (length (List.filter converts files))).
Proof.
  revert st. induction files as [|data files IH]; intros st; simpl.
  - rewrite !app_nil_r, Z.add_0_r. by destruct st.
  - rewrite IH, main_step_contribution. simpl. rewrite <- !app_assoc.
    f_equal. destruct (converts data); simpl; lia.
Qed.

Lemma length_file_lines data : length (file_lines data) = 1%nat.
Proof.
  unfold file_lines. destruct (process_tm2_file data) as [o|e] eqn:E; [|done].
  by destruct (process_tm2_file_outcome data o E) as [[_ ->]|[_ (img & -> & _)]].
Qed.

Lemma length_file_images data :
  length (file_images data) = if writes data then 1%nat else 0%nat.
Proof.
  unfold file_images, writes, converts.
  destruct (process_tm2_file data) as [o|e] eqn:E; [|done].
  destruct (process_tm2_file_outcome data o E)
    as [[Hsmall ->]|[Hlen (img & -> & _)]]; simpl.
  - by destruct (Z.leb_spec 0x40 (len data)); [lia|].
  - by destruct (Z.leb_spec 0x40 (len data)); [|lia].
Qed.

Lemma length_flat_map_const {A B} (f : A -> list B) (l : list A) (n : nat) :
  (forall x, length (f x) = n) -> length (flat_map f l) = (n * length l)%nat.
Proof.
  intros Hf. induction l as [|x l IH]; simpl; [lia|].
  rewrite length_app, Hf, IH. lia.
Qed.

Lemma length_flat_map_filter {A B} (f : A -> list B) (p : A -> bool) (l : list A) :
  (forall x, length (f x) = if p x then 1%nat else 0%nat) ->
  length (flat_map f l) = length (List.filter p l).
Proof.
  intros Hf. induction l as [|x l IH]; simpl; [done|].
  rewrite length_app, Hf, IH. by destruct (p x).
Qed.
End Batch.

(** X5. Whatever the legacy decode of a file returns without raising is
    either the too-small notice with nothing written (buffer shorter than
    0x40 bytes), or exactly one written image that has the width and the
    height of the header and holds exactly [width*height] pixels. *)
Theorem legacy_written_image_has_header_size (data : list byte) o :
  Legacy.process_tm2_file data = Ok o ->
  (len data < 0x40 /\ o = Legacy.Outcome [Msg_file_too_small] None)
  \/ (0x40 <= len data /\
      exists img,
        o = Legacy.Outcome [Msg_converted] (Some img)
        /\ im_width img = Notions.field data 0x24 2
        /\ im_height img = Notions.field data 0x26 2
        /\ len (im_pixels img)
           = Notions.field data 0x24 2 * Notions.field data 0x26 2).
Proof. apply process_tm2_file_outcome. Qed.

Lemma legacy_written_image_has_header_size_witness :
  exists img,
    Legacy.process_tm2_file Samples.legacy_odd16
    = Ok (Legacy.Outcome [Msg_converted] (Some img))
    /\ len (im_pixels img) = 3.
Proof.
  destruct (Legacy.process_tm2_file Samples.legacy_odd16) as [o|] eqn:E;
    [|by vm_compute in E].
  destruct (legacy_written_image_has_header_size _ o E)
    as [[Hsmall _]|[_ (img & -> & _ & _ & Hn)]]; [by vm_compute in Hsmall|].
  exists img. split; [done|]. rewrite Hn. by vm_compute.
Defined.

(** X6. The legacy batch over any list of files: every file leaves
    exactly one line in the log, which ends with the summary line; the
    count in the summary is the number of files whose decode did not
    raise (files shorter than 0x40 bytes included), and the number of
    images written is the number of files of at least 0x40 bytes whose
    decode did not raise. *)
Theorem legacy_batch_totals (files : list (list byte)) :
  let run := Legacy.main files in
  Legacy.count run = Z.of_nat (length (List.filter Notions.converts files))
  /\ length (Legacy.written run) = length (List.filter Notions.writes files)
  /\ length (Legacy.log run) = S (length files)
  /\ last (Legacy.log run) = Some (Msg_summary (Legacy.count run)).
Proof.
  unfold Legacy.main. rewrite batch_loop. simpl.
  split; [done|]. split; [apply length_flat_map_filter, length_file_images|].
  split; [|apply last_snoc].
  rewrite length_app, (length_flat_map_const _ _ 1 length_file_lines). simpl. lia.
Qed.

(** X7. The legacy batch keeps no state between files: the images written
    and the count for two lists of files processed in one run are those
    of the two lists processed separately, put together. *)
Theorem legacy_batch_concat (files1 files2 : list (list byte)) :
  Legacy.written (Legacy.main (files1 ++ files2))
  = Legacy.written (Legacy.main files1) ++ Legacy.written (Legacy.main files2)
  /\ Legacy.count (Legacy.main (files1 ++ files2))
     = Legacy.count (Legacy.main files1) + Legacy.count (Legacy.main files2).
Proof.
  unfold Legacy.main. rewrite !batch_loop. simpl.
  rewrite flat_map_app, List.filter_app, length_app. split; [done|]. lia.
Qed.

(* ================================================================== *)
(** * The palette reorder undoes itself                               *)
(* ================================================================== *)

Section ReorderTwice.
Import Legacy Notions.
Context {A : Type}.
Implicit Types (p mg : list A) (bs : list (list A)).

Lemma chunks_concat (n : nat) bs :
  Forall (fun b => length b = n) bs -> chunks n (length bs) (concat bs) = bs.
Proof.
  induction 1 as [|b bs Hb _ IH]; [done|]. simpl.
  replace (take n (b ++ concat bs)) with b
    by (rewrite <- Hb; by rewrite take_app_length).
  replace (drop n (b ++ concat bs)) with (concat bs)
    by (rewrite <- Hb; by rewrite drop_app_length).
  by rewrite IH.
Qed.

Lemma concat_chunks (n k : nat) p :
  length p = (n * k)%nat -> concat (chunks n k p) = p.
Proof.
  revert p. induction k as [|k IH]; intros p Hp; simpl.
  - destruct p; [done|]. simpl in Hp. lia.
  - rewrite IH by (rewrite length_drop; lia). apply take_drop.
Qed.

Lemma swap_middle_twice mg : length mg = 32%nat -> swap_middle (swap_middle mg) = mg.
Proof.
  intros Hmg.
  set (a := take 8 mg). set (b := take 8 (drop 8 mg)).
  set (c := take 8 (drop 8 (drop 8 mg))).
  set (d := take 8 (drop 8 (drop 8 (drop 8 mg)))).
  assert (chunks 8 4 mg = [a; b; c; d]) as Hch by reflexivity.
  assert (swap_middle mg = concat [a; c; b; d]) as ->.
  { unfold swap_middle. rewrite Hch. simpl. by rewrite app_nil_r. }
  assert (chunks 8 4 (concat [a; c; b; d]) = [a; c; b; d]) as Hch'.
  { apply (chunks_concat 8 [a; c; b; d]).
    unfold a, b, c, d. repeat constructor;
      rewrite length_take, ?length_drop; lia. }
  unfold swap_middle. rewrite Hch'.
  pose proof (concat_chunks 8 4 mg ltac:(lia)) as Hmg'.
  rewrite Hch in Hmg'. simpl in Hmg'. by rewrite app_nil_r in Hmg'.
Qed.

Lemma reorder_palette_twice p :
  length p = 256%nat -> reorder_palette (reorder_palette p) = p.
Proof.
  intros Hp. rewrite !reorder_palette_spec. unfold reorder_spec.
  assert (Forall (fun b : list A => length b = 32%nat) (chunks 32 8 p)) as Hall.
  { apply Forall_forall. intros b Hb.
    apply list_elem_of_lookup in Hb as (j & Hj).
    assert (j < 8)%nat as Hj8.
    { apply lookup_lt_Some in Hj. by rewrite length_chunks in Hj. }
    rewrite lookup_chunks in Hj by done. injection Hj as <-.
    rewrite length_take, length_drop. lia. }
  assert (Forall (fun b : list A => length b = 32%nat)
            (swap_middle <$> chunks 32 8 p)) as Hall'.
  { apply Forall_fmap. eapply Forall_impl; [exact Hall|].
    intros b Hb. by apply length_swap_middle. }
  pose proof (chunks_concat 32 _ Hall') as Hcc.
  rewrite length_fmap, length_chunks in Hcc. rewrite Hcc.
  rewrite <- list_fmap_compose.
  rewrite (Forall_fmap_ext_1 (swap_middle ∘ swap_middle) id).
  - rewrite list_fmap_id. by apply concat_chunks.
  - eapply Forall_impl; [exact Hall|]. intros b Hb. by apply swap_middle_twice.
Qed.
End ReorderTwice.

(** X8. Applying the legacy palette reorder twice to a 256-entry palette
    gives the palette back: the reorder is its own inverse. *)
Theorem reorder_palette_involutive {A} (p : list A) :
  length p = 256%nat ->
  Legacy.reorder_palette (Legacy.reorder_palette p) = p.
Proof. apply reorder_palette_twice. Qed.

Lemma reorder_palette_involutive_witness :
  Legacy.reorder_palette (Legacy.reorder_palette (seq 0 256)) = seq 0 256.
Proof. by apply (reorder_palette_involutive (seq 0 256)). Defined.

(* ================================================================== *)
(** * The chained shape: when the constructor succeeds                 *)
(* ================================================================== *)

Section Constructor.
Import Eva Notions.
Variable data : list byte.

Lemma unpack_H_short (a b : Z) :
  0 <= a -> b = a + 2 -> len data < b ->
  unpack_H (slice data a b) = Raise StructError.
Proof.
  intros Ha -> Hshort. unfold unpack_H. case_decide as E; [|done].
  rewrite length_slice in E. unfold len in Hshort. lia.
Qed.

Lemma unpack_H_cases bs :
  (exists v, unpack_H bs = Ok v) \/ unpack_H bs = Raise StructError.
Proof. unfold unpack_H. case_decide; [left; by eexists|by right]. Qed.

Lemma parse_header_inside :
  take 4 data = list_byte_of_string "TIM2" -> 12 <= len data ->
  _parse_header data
  = Ok (ContainerHeader "TIM2" (field data 4 2) (field data 6 2)
          (field data 8 2) (field data 10 2)).
Proof.
  intros Htag Hlen. unfold _parse_header.
  apply decoded_magic_TIM2 in Htag. rewrite Htag. simpl negb. cbv iota.
  rewrite !(unpack_H_at data) by lia. done.
Qed.

Lemma parse_header_truncated :
  take 4 data = list_byte_of_string "TIM2" -> len data < 12 ->
  _parse_header data = Raise StructError.
Proof.
  intros Htag Hlen. unfold _parse_header.
  apply decoded_magic_TIM2 in Htag. rewrite Htag. simpl negb. cbv iota.
  rewrite (unpack_H_short 10 12) by lia.
  destruct (unpack_H_cases (slice data 4 6)) as [[v0 ->]| ->]; [|done].
  destruct (unpack_H_cases (slice data 6 8)) as [[v1 ->]| ->]; [|done].
  destruct (unpack_H_cases (slice data 8 10)) as [[v2 ->]| ->]; [|done].
  done.
Qed.

Lemma parse_header_bad_magic :
  take 4 data <> list_byte_of_string "TIM2" ->
  _parse_header data = Raise ValueError_not_tim2.
Proof.
  intros Htag. unfold _parse_header.
  destruct (String.eqb_spec (decode_ascii_ignore (slice data 0 4)) "TIM2");
    [|done].
  exfalso. by apply Htag, decoded_magic_TIM2.
Qed.
End Constructor.

(** X9. The constructor of the chained parser succeeds exactly when the
    buffer starts with "TIM2" and is at least 12 bytes long; the parser
    then carries the buffer and the four container fields read at
    offsets 4, 6, 8 and 10.  With the right tag but fewer than 12 bytes
    it fails with the struct error, and the file ends with that error
    line and nothing written. *)
Theorem constructor_succeeds_iff (data : list byte) :
  ((exists self, Eva.TIM2Parser data = Ok self)
   <-> take 4 data = list_byte_of_string "TIM2" /\ 12 <= len data)
  /\ (forall self, Eva.TIM2Parser data = Ok self ->
        Eva.data self = data
        /\ Eva.container self
           = Eva.ContainerHeader "TIM2" (Notions.field data 4 2)
               (Notions.field data 6 2) (Notions.field data 8 2)
               (Notions.field data 10 2))
  /\ (take 4 data = list_byte_of_string "TIM2" -> len data < 12 ->
        Eva.TIM2Parser data = Raise StructError
        /\ forall save_parts,
             Eva.process_tex_file data save_parts
             = Eva.TexOutcome [Msg_err StructError] [] None).
Proof.
  assert (take 4 data = list_byte_of_string "TIM2" -> 12 <= len data ->
          exists hs, Eva.TIM2Parser data
            = Ok (Eva.Parser data
                    (Eva.ContainerHeader "TIM2" (Notions.field data 4 2)
                       (Notions.field data 6 2) (Notions.field data 8 2)
                       (Notions.field data 10 2)) hs)) as Hok.
  { intros Htag Hlen. unfold Eva.TIM2Parser.
    rewrite parse_header_inside by done. simpl.
    destruct (find_picture_headers_total data (Notions.field data 6 2)) as [hs ->].
    by exists hs. }
  assert (take 4 data = list_byte_of_string "TIM2" -> len data < 12 ->
          Eva.TIM2Parser data = Raise StructError) as Hshort.
  { intros Htag Hlen. unfold Eva.TIM2Parser.
    by rewrite parse_header_truncated. }
  assert (take 4 data <> list_byte_of_string "TIM2" ->
          Eva.TIM2Parser data = Raise ValueError_not_tim2) as Hbad.
  { intros Htag. unfold Eva.TIM2Parser. by rewrite parse_header_bad_magic. }
  assert (take 4 data = list_byte_of_string "TIM2"
          \/ take 4 data <> list_byte_of_string "TIM2") as Hdec.
  { destruct (String.eqb_spec (Eva.decode_ascii_ignore (slice data 0 4)) "TIM2")
      as [Hm|Hm]; [left; by apply decoded_magic_TIM2|].
    right. intros Htag. by apply Hm, decoded_magic_TIM2. }
  split; [split|split].
  - intros [self E].
    destruct Hdec as [Htag|Htag]; [|by rewrite Hbad in E].
    split; [done|].
    destruct (Z.lt_ge_cases (len data) 12) as [Hlt|Hge]; [|done].
    by rewrite Hshort in E.
  - intros [Htag Hlen]. destruct (Hok Htag Hlen) as [hs E]. by eexists.
  - intros self E.
    destruct Hdec as [Htag|Htag]; [|by rewrite Hbad in E].
    destruct (Z.lt_ge_cases (len data) 12) as [Hlt|Hge];
      [by rewrite Hshort in E|].
    destruct (Hok Htag Hge) as [hs E']. rewrite E' in E. by injection E as <-.
  - intros Htag Hlen. split; [by apply Hshort|].
    intros save_parts. unfold Eva.process_tex_file. by rewrite Hshort.
Qed.

Lemma constructor_succeeds_iff_witness :
  (exists self, Eva.TIM2Parser Samples.tex_truncated = Ok self)
  /\ Eva.TIM2Parser Samples.TIM2_tag = Raise StructError.
Proof.
  split.
  - apply (constructor_succeeds_iff Samples.tex_truncated). by vm_compute.
  - apply (constructor_succeeds_iff Samples.TIM2_tag); by vm_compute.
Defined.

(* ================================================================== *)
(** * The chained shape: where picture headers can lie                 *)
(* ================================================================== *)

Section Offsets.
Import Eva Notions.
Variable data : list byte.

Lemma chained_from o hs :
  0 <= o -> chained data o hs ->
  Forall (fun oh => o <= oh.1 /\ oh.1 + 0x28 <= len data
                    /\ oh.1 < image_offset oh.2) hs
  /\ (forall (i j : nat) oi hi oj hj,
        (i <= j)%nat -> hs !! i = Some (oi, hi) -> hs !! j = Some (oj, hj) ->
        oi <= oj).
Proof.
  revert o. induction hs as [|[o1 h1] hs IH]; intros o Ho Hc.
  - split; [constructor|done].
  - destruct Hc as (-> & Hfit & E & Hc).
    destruct (parsed_header_nonneg data o h1 Ho E) as (Hts & _ & _ & Hhs & _).
    destruct (parse_picture_header_at_inside data o Ho Hfit)
      as (h' & E' & _ & _ & _ & Hio & _).
    assert (h' = h1) as -> by congruence.
    destruct (IH (o + total_size h1) ltac:(lia) Hc) as (Hall & Hsorted).
    split.
    + constructor; [simpl; lia|].
      eapply Forall_impl; [exact Hall|]. simpl. intros oh. lia.
    + intros i j oi hi oj hj Hij Hi Hj.
      destruct i as [|i]; destruct j as [|j]; simpl in *.
      * by simplify_eq.
      * simplify_eq. rewrite Forall_lookup in Hall.
        specialize (Hall j _ Hj). simpl in Hall. lia.
      * lia.
      * eapply Hsorted; [|exact Hi|exact Hj]. lia.
Qed.

(** A block whose total size is 0 keeps the scan at the same offset. *)
Lemma find_loop_stuck (xs : list Z) acc o h :
  o + 0x28 <= len data ->
  _parse_picture_header_at data o = Ok h -> total_size h = 0 ->
  for_loop xs (find_step data) (acc, o)
  = Ok (acc ++ replicate (length xs) (o, h), o).
Proof.
  intros Hfit E Hzero. revert acc.
  induction xs as [|x xs IH]; intros acc; simpl.
  - by rewrite app_nil_r.
  - destruct (Z.ltb_spec (len data) (o + 0x28)); [lia|].
    rewrite E. simpl. rewrite Hzero, Z.add_0_r, IH, <- app_assoc. done.
Qed.
End Offsets.

(** X10. Every picture header found by the scan of a chained file lies
    inside the buffer: its offset is at least 0x80, its 0x28 bytes end
    within the buffer, and its pixel data starts after its own offset.
    Along the list the offsets never decrease. *)
Theorem picture_headers_inside_and_ordered (data : list byte) (picture_count : Z) :
  exists hs,
    Eva._find_picture_headers data picture_count = Ok hs
    /\ Forall (fun oh => 0x80 <= oh.1 /\ oh.1 + 0x28 <= len data
                         /\ oh.1 < Eva.image_offset oh.2) hs
    /\ (forall (i j : nat) oi hi oj hj,
          (i <= j)%nat -> hs !! i = Some (oi, hi) -> hs !! j = Some (oj, hj) ->
          oi <= oj).
Proof.
  destruct (find_picture_headers_chained data picture_count) as (hs & E & Hc).
  exists hs. split; [done|]. by apply chained_from.
Qed.

(** X11. When the first picture block of a chained file announces a total
    size of 0, the scan never moves on: it returns that same header, at
    offset 0x80, once for every announced picture. *)
Theorem zero_size_block_repeats (data : list byte) (picture_count : Z) h :
  0x80 + 0x28 <= len data ->
  Eva._parse_picture_header_at data 0x80 = Ok h ->
  Eva.total_size h = 0 ->
  Eva._find_picture_headers data picture_count
  = Ok (replicate (Z.to_nat picture_count) (0x80, h)).
Proof.
  intros Hfit E Hzero. unfold Eva._find_picture_headers.
  rewrite (find_loop_stuck data _ _ _ h) by done.
  unfold range. by rewrite length_seqZ.
Qed.

Lemma zero_size_block_repeats_witness :
  exists h,
    Eva._find_picture_headers Samples.tex_zero_size 3
    = Ok [(0x80, h); (0x80, h); (0x80, h)].
Proof.
  destruct (Eva._parse_picture_header_at Samples.tex_zero_size 0x80) as [h|] eqn:E;
    [|by vm_compute in E].
  exists h.
  rewrite (zero_size_block_repeats Samples.tex_zero_size 3 h);
    [done|by vm_compute|done|].
  vm_compute in E. by injection E as <-.
Defined.

(* ================================================================== *)
(** * The chained shape: what a decoded picture holds                  *)
(* ================================================================== *)

Section DecodedPicture.
Import Eva Notions.

Lemma extract_all_images_lookup self msgs imgs (i : nat) o h :
  sane self ->
  extract_all_images self = (msgs, Ok imgs) ->
  picture_headers self !! i = Some (o, h) ->
  imgs !! i = Some (decode_slot (data self) (Z.of_nat i) h).2.
Proof.
  intros Hsane E Hi. rewrite extract_all_images_slots in E by done.
  injection E as _ <-.
  rewrite list_lookup_fmap. unfold range. rewrite lookup_seqZ_lt.
  - simpl. unfold slot. by rewrite Z.add_0_l, Nat2Z.id, Hi.
  - apply lookup_lt_Some in Hi. unfold len. lia.
Qed.

Lemma decode_slot_image data index h im :
  (decode_slot data index h).2 = Some im ->
  supported h /\ ~ overflows data h
  /\ im = Image (width h) (height h)
            (set_alpha (cells (slice data (image_offset h)
                                 (image_offset h + width h * height h * 4)))).
Proof.
  unfold decode_slot, supported, overflows.
  destruct (Z.eqb_spec (format h) 0); destruct (Z.eqb_spec (format h) 3);
    simpl; try done;
    destruct (Z.ltb_spec (len data) (image_offset h + width h * height h * 4));
    simpl; try done; intros [= <-]; (split; [tauto|split; [lia|done]]).
Qed.

Lemma set_alpha_lookup (arr : list pixel) (k : nat) r g b a :
  arr !! k = Some (r, g, b, a) ->
  set_alpha arr !! k = Some (r, g, b, alpha a).
Proof.
  intros Hk. unfold set_alpha. rewrite list_lookup_fmap.
  unfold pixel in *. by rewrite Hk.
Qed.

(** Pixel [k] of a picture cut out of [data] at [off]. *)
Lemma picture_cell data off n (k : nat) :
  0 <= off -> 0 <= n -> off + n * 4 <= len data -> Z.of_nat k < n ->
  exists c0 c1 c2 c3,
    data !! Z.to_nat (off + 4 * Z.of_nat k) = Some c0
    /\ data !! Z.to_nat (off + 4 * Z.of_nat k + 1) = Some c1
    /\ data !! Z.to_nat (off + 4 * Z.of_nat k + 2) = Some c2
    /\ data !! Z.to_nat (off + 4 * Z.of_nat k + 3) = Some c3
    /\ set_alpha (cells (slice data off (off + n * 4))) !! k
       = Some (byte_val c0, byte_val c1, byte_val c2, alpha (byte_val c3)).
Proof.
  intros Hoff Hn Hfit Hk. unfold len in Hfit.
  destruct (lookup_lt_is_Some_2 data (Z.to_nat (off + 4 * Z.of_nat k))) as [c0 H0]; [lia|].
  destruct (lookup_lt_is_Some_2 data (Z.to_nat (off + 4 * Z.of_nat k + 1))) as [c1 H1]; [lia|].
  destruct (lookup_lt_is_Some_2 data (Z.to_nat (off + 4 * Z.of_nat k + 2))) as [c2 H2]; [lia|].
  destruct (lookup_lt_is_Some_2 data (Z.to_nat (off + 4 * Z.of_nat k + 3))) as [c3 H3]; [lia|].
  exists c0, c1, c2, c3. repeat split; try done.
  apply set_alpha_lookup, lookup_cells;
    rewrite lookup_slice by lia;
    [rewrite <- H0|rewrite <- H1|rewrite <- H2|rewrite <- H3]; f_equal; lia.
Qed.
End DecodedPicture.

(** X12. A picture returned by the chained decoder has the width and
    height of its header and exactly [width*height] pixels; pixel [k] is
    made of the four bytes at [image_offset + 4k] of the file, R, G, B as
    stored and alpha corrected, so every channel of every pixel is a
    value in 0..255. *)
Theorem decoded_picture_is_faithful
    (data : list byte) self msgs imgs (i : nat) o h im :
  Eva.TIM2Parser data = Ok self ->
  Eva.extract_all_images self = (msgs, Ok imgs) ->
  Eva.picture_headers self !! i = Some (o, h) ->
  imgs !! i = Some (Some im) ->
  im_width im = Eva.width h
  /\ im_height im = Eva.height h
  /\ len (im_pixels im) = Eva.width h * Eva.height h
  /\ (forall k : nat,
        Z.of_nat k < Eva.width h * Eva.height h ->
        exists c0 c1 c2 c3,
          data !! Z.to_nat (Eva.image_offset h + 4 * Z.of_nat k) = Some c0
          /\ data !! Z.to_nat (Eva.image_offset h + 4 * Z.of_nat k + 1) = Some c1
          /\ data !! Z.to_nat (Eva.image_offset h + 4 * Z.of_nat k + 2) = Some c2
          /\ data !! Z.to_nat (Eva.image_offset h + 4 * Z.of_nat k + 3) = Some c3
          /\ im_pixels im !! k
             = Some (byte_val c0, byte_val c1, byte_val c2,
                     Eva.alpha (byte_val c3)))
  /\ Forall Notions.rgba_bytes (im_pixels im).
Proof.
  intros Ep Ea Hi Him.
  destruct (parser_sane data self Ep) as (Hsane & Hdata).
  rewrite (extract_all_images_lookup self msgs imgs i o h Hsane Ea Hi) in Him.
  injection Him as Him. rewrite Hdata in Him.
  apply decode_slot_image in Him as (_ & Hfit & ->).
  unfold Notions.overflows in Hfit.
  destruct (Hsane o h) as (Hw & Hh & Hoff); [eapply list_elem_of_lookup_2, Hi|].
  assert (0 <= Eva.width h * Eva.height h) as Hn by nia.
  assert (len (Eva.set_alpha (Eva.cells
            (slice data (Eva.image_offset h)
               (Eva.image_offset h + Eva.width h * Eva.height h * 4))))
          = Eva.width h * Eva.height h) as Hcount.
  { unfold len, Eva.set_alpha. rewrite length_fmap, length_cells, length_slice.
    unfold len in Hfit. rewrite Nat2Z.inj_div.
    replace (Z.of_nat (Z.to_nat (Eva.image_offset h + Eva.width h * Eva.height h * 4
                                 - Eva.image_offset h)
                       `min` (length data - Z.to_nat (Eva.image_offset h))))
      with (Eva.width h * Eva.height h * 4) by lia.
    by rewrite Z.div_mul. }
  simpl. split; [done|]. split; [done|]. split; [done|].
  assert (forall k : nat,
            Z.of_nat k < Eva.width h * Eva.height h ->
            exists c0 c1 c2 c3,
              data !! Z.to_nat (Eva.image_offset h + 4 * Z.of_nat k) = Some c0
              /\ data !! Z.to_nat (Eva.image_offset h + 4 * Z.of_nat k + 1) = Some c1
              /\ data !! Z.to_nat (Eva.image_offset h + 4 * Z.of_nat k + 2) = Some c2
              /\ data !! Z.to_nat (Eva.image_offset h + 4 * Z.of_nat k + 3) = Some c3
              /\ Eva.set_alpha (Eva.cells
                   (slice data (Eva.image_offset h)
                      (Eva.image_offset h + Eva.width h * Eva.height h * 4))) !! k
                 = Some (byte_val c0, byte_val c1, byte_val c2,
                         Eva.alpha (byte_val c3))) as Hcell.
  { intros k Hk. apply picture_cell; lia. }
  split; [exact Hcell|].
  apply Forall_lookup. intros k p Hp.
  destruct (Hcell k) as (c0 & c1 & c2 & c3 & _ & _ & _ & _ & Hk).
  { apply lookup_lt_Some in Hp. unfold len in Hcount. lia. }
  pose proof (eq_trans (eq_sym Hp) Hk) as Heq. injection Heq as ->. simpl.
  pose proof (byte_val_range c0). pose proof (byte_val_range c1).
  pose proof (byte_val_range c2). pose proof (eva_alpha_is_byte (byte_val c3)).
  lia.
Qed.

Lemma decoded_picture_is_faithful_witness :
  exists self msgs imgs im,
    Eva.TIM2Parser Samples.tex_mixed = Ok self
    /\ Eva.extract_all_images self = (msgs, Ok imgs)
    /\ imgs !! 1%nat = Some (Some im)
    /\ len (im_pixels im) = 1
    /\ Forall Notions.rgba_bytes (im_pixels im).
Proof.
  destruct (Eva.TIM2Parser Samples.tex_mixed) as [self|] eqn:E;
    [|by vm_compute in E].
  destruct (Eva.extract_all_images self) as [msgs [imgs|]] eqn:Ea;
    [|vm_compute in E; injection E as <-; by vm_compute in Ea].
  destruct (imgs !! 1%nat) as [[im|]|] eqn:Him;
    [|vm_compute in E; injection E as <-; vm_compute in Ea;
      injection Ea as <- <-; by vm_compute in Him..].
  destruct (Eva.picture_headers self !! 1%nat) as [[o h]|] eqn:Hh;
    [|vm_compute in E; injection E as <-; by vm_compute in Hh].
  destruct (decoded_picture_is_faithful _ self msgs imgs 1 o h im E Ea Hh Him)
    as (_ & _ & Hn & _ & Hall).
  exists self, msgs, imgs, im. repeat split; try done.
  rewrite Hn. vm_compute in E. injection E as <-. vm_compute in Hh.
  by injection Hh as <- <-.
Defined.

(* ================================================================== *)
(** * Alpha correction as written by both decoders                    *)
(* ================================================================== *)



(* ================================================================== *)
(** * The column compositor: where pictures land                      *)
(* ================================================================== *)

Section Layout.
Import Eva Notions.

Lemma sum_from (a : Z) (l : list Z) : foldl Z.add a l = a + sum l.
Proof.
  unfold sum. revert a. induction l as [|v l IH]; intros a; simpl; [lia|].
  rewrite (IH (a + v)), (IH (0 + v)). lia.
Qed.

Lemma sum_cons v l : sum (v :: l) = v + sum l.
Proof. unfold sum at 1. simpl. apply sum_from. Qed.

Lemma sum_snoc l v : sum (l ++ [v]) = sum l + v.
Proof. unfold sum. by rewrite foldl_app. Qed.

Lemma sum_nonneg l : Forall (fun v => 0 <= v) l -> 0 <= sum l.
Proof. induction 1 as [|v l Hv _ IH]; [done|]. rewrite sum_cons. lia. Qed.

Lemma present_cons_some im images : present (Some im :: images) = im :: present images.
Proof. done. Qed.

Lemma present_cons_none images : present (None :: images) = present images.
Proof. done. Qed.

Lemma present_heights_present images :
  present_heights images = im_height <$> present images.
Proof.
  unfold present_heights, present.
  induction images as [|[im|] images IH]; [done| |exact IH].
  cbn. f_equal. exact IH.
Qed.

Variable H : Z.

Lemma layout_ok_close st placed :
  layout_ok H st placed -> layout_ok H (close_column st) placed.
Proof.
  intros (Hsum & Hx & Hw & Hy & Hempty & Hall). unfold layout_ok, close_column.
  simpl. rewrite sum_snoc, Z.add_0_r. repeat split; try done; lia.
Qed.

Lemma layout_ok_place st placed im :
  0 < im_height im <= H -> 0 <= im_width im ->
  layout_ok H st placed ->
  layout_ok H (place H st (Some im)) (placed ++ [im]).
Proof.
  intros Hh Hw Hok. unfold place.
  set (st1 := if (0 <? col_y st) && (H <? col_y st + im_height im)
              then close_column st else st).
  assert (layout_ok H st1 placed /\ col_y st1 + im_height im <= H) as [Hok1 Hroom].
  { unfold st1.
    destruct (Z.ltb_spec 0 (col_y st)); destruct (Z.ltb_spec H (col_y st + im_height im));
      simpl; try (split; [done|]); try (split; [by apply layout_ok_close|simpl; lia]);
      destruct Hok as (_ & _ & _ & ? & _); lia. }
  destruct Hok1 as (Hsum & Hx & Hcw & Hy & Hempty & Hall).
  set (st2 := Layout (positions st1 ++ [(x st1, col_y st1)]) (col_widths st1)
                (x st1) (col_y st1 + im_height im)
                (Z.max (col_w st1) (im_width im))).
  assert (layout_ok H st2 (placed ++ [im])) as Hok2.
  { unfold layout_ok, st2. simpl. repeat split; try done; try lia.
    apply Forall2_app.
    - eapply Forall2_impl; [exact Hall|]. unfold inside. intros ? ?. lia.
    - repeat constructor; simpl; lia. }
  change (layout_ok H (if col_y st2 =? H then close_column st2 else st2)
            (placed ++ [im])).
  destruct (col_y st2 =? H); [by apply layout_ok_close|done].
Qed.

Lemma layout_ok_loop images st placed :
  Forall (fun im => 0 < im_height im <= H /\ 0 <= im_width im) (present images) ->
  layout_ok H st placed ->
  layout_ok H (foldl (place H) st images) (placed ++ present images).
Proof.
  revert st placed. induction images as [|[im|] images IH]; intros st placed Hims Hok.
  - simpl. by rewrite app_nil_r.
  - rewrite present_cons_some in *. apply Forall_cons in Hims as [[Hh Hw] Hims].
    simpl foldl. replace (placed ++ im :: present images)
      with ((placed ++ [im]) ++ present images) by (by rewrite <- app_assoc).
    apply IH; [done|]. by apply layout_ok_place.
  - rewrite present_cons_none in *. simpl. by apply IH.
Qed.

(** After the whole placement, every present picture lies inside the
    columns: to the left of their total width and above the column
    height. *)
Lemma place_all_inside images :
  Forall (fun im => 0 < im_height im <= H /\ 0 <= im_width im) (present images) ->
  Forall2 (inside (sum (col_widths (place_all H images))) H)
          (present images) (positions (place_all H images))
  /\ 0 <= sum (col_widths (place_all H images)).
Proof.
  intros Hims.
  assert (layout_ok H (Layout [] [] 0 0 0) []) as Hinit.
  { unfold layout_ok. simpl. repeat split; try done; try constructor. }
  pose proof (layout_ok_loop images _ _ Hims Hinit) as Hok. simpl in Hok.
  unfold place_all.
  set (st := foldl (place H) (Layout [] [] 0 0 0) images) in *.
  destruct ((0 <? col_y st) || ((0 <? col_w st) && bool_decide (col_widths st = [])))
    eqn:Hclose.
  - apply layout_ok_close in Hok.
    destruct Hok as (Hsum & Hx & _ & _ & _ & Hall). simpl in *.
    rewrite Hsum. split; [|lia]. by rewrite Z.add_0_r in Hall.
  - destruct Hok as (Hsum & Hx & Hcw & Hy & Hempty & Hall).
    apply orb_false_iff in Hclose as [Hy0 _]. apply Z.ltb_ge in Hy0.
    rewrite Hsum. split; [|done].
    rewrite Hempty, Z.add_0_r in Hall by lia. done.
Qed.
End Layout.

(* ================================================================== *)
(** * The column compositor: the inferred column height               *)
(* ================================================================== *)

Section Inference.
Import Eva Notions.

Lemma can_partition_bound H acc hs :
  can_partition_from H acc hs = true ->
  0 <= acc -> Forall (fun h => 0 <= h) hs ->
  Forall (fun h => h <= H) hs.
Proof.
  revert acc. induction hs as [|h hs IH]; intros acc Hp Hacc Hpos; [constructor|].
  apply Forall_cons in Hpos as [Hh Hpos]. simpl in Hp.
  destruct (Z.eqb_spec (acc + h) H) as [E|E].
  - constructor; [lia|]. by apply (IH 0).
  - destruct (Z.ltb_spec H (acc + h)); [done|].
    constructor; [lia|]. apply (IH (acc + h)); [done|lia|done].
Qed.

Lemma can_partition_sum hs acc :
  Forall (fun h => 0 < h) hs -> hs <> [] -> 0 <= acc ->
  can_partition_from (acc + sum hs) acc hs = true.
Proof.
  intros Hpos. revert acc. induction Hpos as [|h hs Hh Hpos IH]; intros acc Hne Hacc;
    [done|].
  rewrite sum_cons. simpl.
  destruct hs as [|h' hs'].
  - change (sum []) with 0. rewrite (Z.add_0_r h), Z.eqb_refl. done.
  - assert (0 < sum (h' :: hs')) as Hs.
    { apply Forall_cons in Hpos as [Hh' Hpos']. rewrite sum_cons.
      pose proof (sum_nonneg hs'
        ltac:(eapply Forall_impl; [exact Hpos'|simpl; lia])). lia. }
    destruct (Z.eqb_spec (acc + h) (acc + (h + sum (h' :: hs')))); [lia|].
    destruct (Z.ltb_spec (acc + (h + sum (h' :: hs'))) (acc + h)); [lia|].
    replace (acc + (h + sum (h' :: hs'))) with ((acc + h) + sum (h' :: hs')) by lia.
    apply IH; [done|lia].
Qed.

(** For pictures of positive height the inferred column height always
    partitions the heights, is positive, and no picture is taller. *)
Lemma infer_partitions images :
  proper images -> present images <> [] ->
  can_partition (present_heights images) (_infer_column_height images) = true
  /\ Forall (fun h => h <= _infer_column_height images) (present_heights images)
  /\ 0 < _infer_column_height images.
Proof.
  intros Hproper Hne.
  assert (Forall (fun h => 0 < h) (present_heights images)) as Hpos.
  { rewrite present_heights_present. apply Forall_fmap.
    eapply Forall_impl; [exact Hproper|]. simpl. intros im. lia. }
  assert (present_heights images <> []) as Hne'.
  { rewrite present_heights_present. by destruct (present images). }
  assert (can_partition (present_heights images) (_infer_column_height images) = true)
    as Hp.
  { unfold _infer_column_height.
    destruct (present_heights images) as [|h0 hs] eqn:E; [done|].
    destruct (List.find _ _) as [H|] eqn:Hf.
    - by apply List.find_some in Hf as [_ Hf].
    - unfold can_partition. rewrite <- (Z.add_0_l (sum (h0 :: hs))).
      by apply can_partition_sum. }
  assert (Forall (fun h => h <= _infer_column_height images)
            (present_heights images)) as Hle.
  { apply (can_partition_bound _ 0); [done|lia|].
    eapply Forall_impl; [exact Hpos|]. simpl. lia. }
  split; [done|]. split; [done|].
  destruct (present_heights images) as [|h0 hs]; [done|].
  apply Forall_cons in Hpos as [? _]. apply Forall_cons in Hle as [? _]. lia.
Qed.

Lemma place_fills H st im :
  col_y st + im_height im = H ->
  place H st (Some im)
  = close_column (Layout (positions st ++ [(x st, col_y st)]) (col_widths st)
                    (x st) H (Z.max (col_w st) (im_width im))).
Proof.
  intros E. unfold place.
  assert ((0 <? col_y st) && (H <? col_y st + im_height im) = false) as ->.
  { apply andb_false_iff. right. apply Z.ltb_ge. lia. }
  simpl. by rewrite E, Z.eqb_refl.
Qed.

Lemma place_stacks H st im :
  col_y st + im_height im < H ->
  place H st (Some im)
  = Layout (positions st ++ [(x st, col_y st)]) (col_widths st)
      (x st) (col_y st + im_height im) (Z.max (col_w st) (im_width im)).
Proof.
  intros E. unfold place.
  assert ((0 <? col_y st) && (H <? col_y st + im_height im) = false) as ->.
  { apply andb_false_iff. right. apply Z.ltb_ge. lia. }
  simpl. destruct (Z.eqb_spec (col_y st + im_height im) H); [lia|done].
Qed.

(** When the column height partitions the heights, the placement closes
    a column exactly at each run and ends with no open column. *)
Lemma place_partition H images st :
  proper images ->
  can_partition_from H (col_y st) (present_heights images) = true ->
  0 <= col_y st -> (col_y st = 0 -> col_w st = 0) ->
  let st' := foldl (place H) st images in
  H * Z.of_nat (length (col_widths st'))
  = H * Z.of_nat (length (col_widths st)) + col_y st
    + sum (present_heights images)
  /\ col_y st' = 0 /\ col_w st' = 0.
Proof.
  revert st. induction images as [|[im|] images IH]; intros st Hproper Hp Hy Hw0;
    cbv zeta.
  - simpl in *. apply Z.eqb_eq in Hp. change (sum []) with 0.
    split; [lia|]. split; [done|by apply Hw0].
  - unfold proper in Hproper. rewrite present_cons_some in Hproper.
    apply Forall_cons in Hproper as [[Hh Hw] Hproper].
    change (present_heights (Some im :: images))
      with (im_height im :: present_heights images) in *.
    rewrite sum_cons. simpl in Hp.
    change (foldl (place H) st (Some im :: images))
      with (foldl (place H) (place H st (Some im)) images).
    destruct (Z.eqb_spec (col_y st + im_height im) H) as [E|E].
    + pose proof (IH (place H st (Some im)) Hproper) as IH'.
      rewrite place_fills in * by done.
      destruct (IH' Hp) as (Hn & Hy' & Hw'); [done..|].
      split; [|done].
      rewrite Hn. unfold close_column. cbn [col_widths col_y].
      rewrite length_app, Nat2Z.inj_add. cbn [length]. lia.
    + destruct (Z.ltb_spec H (col_y st + im_height im)) as [|Hle]; [done|].
      pose proof (IH (place H st (Some im)) Hproper) as IH'.
      rewrite place_stacks in * by lia.
      destruct (IH' Hp) as (Hn & Hy' & Hw'); [simpl; lia..|].
      split; [|done].
      rewrite Hn. cbn [col_widths col_y]. lia.
  - unfold proper in *. rewrite present_cons_none in *.
    change (present_heights (None :: images)) with (present_heights images) in *.
    simpl foldl. by apply IH.
Qed.
End Inference.

(* ================================================================== *)
(** * The column compositor: the canvas                               *)
(* ================================================================== *)

Section Canvas.
Import Eva Notions.

Lemma max_of_upper l m : max_of l = Ok m -> Forall (fun v => v <= m) l.
Proof.
  destruct l as [|v l]; [done|]. simpl. intros [= <-].
  assert (forall a, a <= foldl Z.max a l
                    /\ Forall (fun v => v <= foldl Z.max a l) l) as Hgen.
  { induction l as [|u l IH]; intros a; simpl; [split; [lia|constructor]|].
    destruct (IH (Z.max a u)) as [Hle Hall]. split; [lia|].
    constructor; [lia|done]. }
  destruct (Hgen v). by constructor.
Qed.

Lemma max_of_nonempty l : l <> [] -> exists m, max_of l = Ok m.
Proof. destruct l; [done|]. intros _. by eexists. Qed.

Lemma widths_present images :
  omap (fun im : option image => im_width <$> im) images
  = im_width <$> present images.
Proof.
  unfold present. induction images as [|[im|] images IH]; [done| |exact IH].
  cbn. f_equal. exact IH.
Qed.

Lemma length_positions_place H st im :
  length (positions (place H st (Some im))) = S (length (positions st)).
Proof.
  unfold place.
  destruct ((0 <? col_y st) && _); simpl;
    destruct (_ =? H); simpl; rewrite length_app; simpl; lia.
Qed.

Lemma length_positions_loop H images st :
  length (positions (foldl (place H) st images))
  = (length (positions st) + length (present images))%nat.
Proof.
  revert st. induction images as [|[im|] images IH]; intros st.
  - simpl. lia.
  - change (foldl (place H) st (Some im :: images))
      with (foldl (place H) (place H st (Some im)) images).
    rewrite IH, present_cons_some, length_positions_place.
    change (length (im :: present images)) with (S (length (present images))).
    lia.
  - change (foldl (place H) st (None :: images))
      with (foldl (place H) st images).
    rewrite IH, present_cons_none. done.
Qed.

(** One position is recorded per present picture. *)
Lemma length_positions H images :
  length (positions (place_all H images)) = length (present images).
Proof.
  unfold place_all.
  destruct (_ || _); simpl; by rewrite length_positions_loop.
Qed.

(** What [compose_columns] returns, in terms of the layout. *)
Lemma compose_columns_shape self images :
  let H := column_height self images in
  let st := place_all H images in
  let S := sum (col_widths st) in
  (0 < total_width (container self) /\ 0 < total_height (container self) ->
     exists msgs,
       compose_columns self images
       = (msgs, Ok (Canvas (total_width (container self))
                      (total_height (container self))
                      (pasted images (positions st)))))
  /\ (~ (0 < total_width (container self) /\ 0 < total_height (container self)) ->
      (0 < S ->
         exists msgs,
           compose_columns self images
           = (msgs, Ok (Canvas S H (pasted images (positions st)))))
      /\ (S <= 0 -> forall m,
            max_of (im_width <$> present images) = Ok m ->
            exists msgs,
              compose_columns self images
              = (msgs, Ok (Canvas m H (pasted images (positions st)))))
      /\ (S <= 0 -> present images = [] ->
            compose_columns self images = ([], Raise ValueError_max_empty))).
Proof.
  intros H st S. unfold compose_columns.
  change (if 0 <? total_height (container self)
          then total_height (container self)
          else _infer_column_height images) with H.
  change (place_all H images) with st.
  assert ((if bool_decide (col_widths st = []) then 0 else sum (col_widths st)) = S)
    as ->.
  { unfold S. case_bool_decide as E; [by rewrite E|done]. }
  fold (pasted images (positions st)).
  generalize (pasted images (positions st)). intros ps.
  rewrite widths_present.
  clearbody H st S. split.
  - intros [Hw Hh]. apply Z.ltb_lt in Hw as Hw', Hh as Hh'. rewrite Hw', Hh'.
    unfold mbind, io_bind, lift, print, mret, io_ret. simpl.
    rewrite !Z.eqb_refl. simpl. by eexists.
  - intros Hnot.
    assert ((0 <? total_width (container self))
            && (0 <? total_height (container self)) = false) as ->.
    { apply andb_false_iff. rewrite !Z.ltb_ge. lia. }
    split; [|split].
    + intros HS. apply Z.ltb_lt in HS as ->.
      unfold mbind, result_bind, io_bind, lift, print, mret, io_ret, result_ret.
      simpl.
      destruct ((0 <? total_width (container self)) && _); simpl;
        destruct ((0 <? total_height (container self)) && _); simpl; by eexists.
    + intros HS m Hm. apply Z.ltb_ge in HS as ->. rewrite Hm.
      unfold mbind, result_bind, io_bind, lift, print, mret, io_ret, result_ret.
      simpl.
      destruct ((0 <? total_width (container self)) && _); simpl;
        destruct ((0 <? total_height (container self)) && _); simpl; by eexists.
    + intros HS Hnone. apply Z.ltb_ge in HS as ->. rewrite Hnone. done.
Qed.
End Canvas.

(* ================================================================== *)
(** * The column compositor: pictures never overlap                   *)
(* ================================================================== *)

Section Separation.
Import Eva Notions.

Lemma layout_sep_close st ps : layout_sep st ps -> layout_sep (close_column st) ps.
Proof.
  intros (Hpos & Hw & Hy & Hall & Hap). unfold layout_sep. simpl.
  repeat split; [done|done|done| |done].
  eapply Forall_impl; [exact Hall|]. intros p [?|(? & ? & ?)]; left; lia.
Qed.

Lemma placed_apart_snoc ps p :
  placed_apart ps -> Forall (fun a => apart a p) ps -> placed_apart (ps ++ [p]).
Proof.
  intros Hap Hall i j a b Hij Hi Hj.
  destruct (decide (j < length ps)%nat) as [Hlt|Hge].
  - rewrite (lookup_app_l ps [p] i) in Hi by lia.
    rewrite (lookup_app_l ps [p] j) in Hj by lia. exact (Hap i j a b Hij Hi Hj).
  - rewrite (lookup_app_l ps [p] i) in Hi.
    2:{ apply lookup_lt_Some in Hj. rewrite length_app in Hj. simpl in Hj. lia. }
    rewrite (lookup_app_r ps [p] j) in Hj by lia.
    destruct (j - length ps)%nat; [|done]. simpl in Hj. injection Hj as <-.
    rewrite Forall_forall in Hall. apply Hall. by eapply list_elem_of_lookup_2.
Qed.

Lemma layout_sep_put st ps im :
  0 < im_height im -> 0 <= im_width im ->
  layout_sep st ps ->
  layout_sep
    (Layout (positions st ++ [(x st, col_y st)]) (col_widths st) (x st)
       (col_y st + im_height im) (Z.max (col_w st) (im_width im)))
    (ps ++ [(im, (x st, col_y st))]).
Proof.
  intros Hh Hwd (Hpos & Hw & Hy & Hall & Hap). unfold layout_sep. simpl.
  repeat split; [ |lia|lia| | ].
  - by rewrite fmap_app, Hpos.
  - apply Forall_app. split.
    + eapply Forall_impl; [exact Hall|]. intros p [?|(? & ? & ?)]; [by left|].
      right. lia.
    + constructor; [|constructor]. right. simpl. lia.
  - apply placed_apart_snoc; [done|].
    eapply Forall_impl; [exact Hall|]. intros p [?|(? & ? & ?)]; unfold apart; simpl.
    + by left.
    + by right.
Qed.

Lemma layout_sep_place H st ps im :
  0 < im_height im -> 0 <= im_width im ->
  layout_sep st ps ->
  exists pos, layout_sep (place H st (Some im)) (ps ++ [(im, pos)]).
Proof.
  intros Hh Hwd Hsep. unfold place.
  set (st1 := if (0 <? col_y st) && (H <? col_y st + im_height im)
              then close_column st else st).
  assert (layout_sep st1 ps) as Hsep1.
  { unfold st1. destruct (_ && _); [by apply layout_sep_close|done]. }
  clearbody st1. exists (x st1, col_y st1).
  pose proof (layout_sep_put st1 ps im Hh Hwd Hsep1) as Hput.
  cbv zeta.
  destruct (col_y _ =? H); [by apply layout_sep_close|done].
Qed.

Lemma layout_sep_loop H images : forall st ps,
  proper images -> layout_sep st ps ->
  exists ps', ps'.*1 = ps.*1 ++ present images
              /\ layout_sep (foldl (place H) st images) ps'.
Proof.
  induction images as [|[im|] images IH]; intros st ps Hproper Hsep.
  - exists ps. split; [by rewrite app_nil_r|done].
  - unfold proper in Hproper. rewrite present_cons_some in Hproper.
    apply Forall_cons in Hproper as [[Hh Hwd] Hproper].
    destruct (layout_sep_place H st ps im Hh Hwd Hsep) as (pos & Hsep').
    destruct (IH _ _ Hproper Hsep') as (ps' & E & Hfin).
    exists ps'. split; [|exact Hfin].
    rewrite E, fmap_app, present_cons_some, <- app_assoc. done.
  - unfold proper in Hproper. rewrite present_cons_none in Hproper.
    exact (IH st ps Hproper Hsep).
Qed.

Lemma place_all_apart H images :
  proper images ->
  placed_apart (zip (present images) (positions (place_all H images))).
Proof.
  intros Hproper.
  assert (layout_sep (Layout [] [] 0 0 0) []) as Hinit.
  { unfold layout_sep. simpl. repeat split; try done; try constructor. }
  destruct (layout_sep_loop H images _ _ Hproper Hinit) as (ps & E & Hsep).
  simpl in E.
  assert (layout_sep (place_all H images) ps) as (Hpos & _ & _ & _ & Hap).
  { unfold place_all. destruct (_ || _); [by apply layout_sep_close|done]. }
  rewrite <- E, Hpos, zip_fst_snd. exact Hap.
Qed.
End Separation.

(* ================================================================== *)
(** * The column compositor: when it returns, and what it pastes      *)
(* ================================================================== *)

Section Composition.
Import Eva Notions.

Lemma present_nil images : present images = [] <-> all_absent images.
Proof.
  unfold all_absent. induction images as [|[im|] images IH].
  - split; [constructor|done].
  - rewrite present_cons_some. split; [done|]. intros H. by inversion H.
  - rewrite present_cons_none, IH. split.
    + intros H. by constructor.
    + intros H. by inversion H.
Qed.

Lemma declared_dec self : declared self \/ ~ declared self.
Proof.
  unfold declared.
  destruct (Z.ltb_spec 0 (total_width (container self)));
    destruct (Z.ltb_spec 0 (total_height (container self))); lia.
Qed.

(** The compositor raises exactly when nothing fixes the canvas width. *)
Lemma compose_columns_cases self images :
  (declared self \/ present images <> [] ->
     exists msgs c, compose_columns self images = (msgs, Ok c))
  /\ (~ declared self -> present images = [] ->
        compose_columns self images = ([], Raise ValueError_max_empty)).
Proof.
  destruct (compose_columns_shape self images) as [Hd Hn]. split.
  - intros Hcase. destruct (declared_dec self) as [D|D].
    + destruct (Hd D) as (msgs & E). by eexists _, _.
    + destruct Hcase as [?|Hne]; [done|].
      destruct (Hn D) as (Hpos & Hmax & _).
      destruct (Z.ltb_spec 0 (sum (col_widths
                  (place_all (column_height self images) images)))) as [HS|HS].
      * destruct (Hpos HS) as (msgs & E). by eexists _, _.
      * destruct (max_of_nonempty (im_width <$> present images)) as (m & Hm).
        { by destruct (present images). }
        destruct (Hmax HS m Hm) as (msgs & E). by eexists _, _.
  - intros D Hnone. destruct (Hn D) as (_ & _ & Hraise). apply Hraise; [|done].
    rewrite place_all_none by by apply present_nil. done.
Qed.

(** The canvas of a composition that returned. *)
Lemma compose_columns_ok self images msgs c :
  compose_columns self images = (msgs, Ok c) ->
  let st := place_all (column_height self images) images in
  canvas_h c = column_height self images
  /\ pastes c = pasted images (positions st)
  /\ (declared self -> canvas_w c = total_width (container self))
  /\ (~ declared self ->
        present images <> []
        /\ (0 < sum (col_widths st) -> canvas_w c = sum (col_widths st))
        /\ (sum (col_widths st) <= 0 ->
              max_of (im_width <$> present images) = Ok (canvas_w c))).
Proof.
  intros E st. destruct (compose_columns_shape self images) as [Hd Hn].
  fold st in Hd, Hn.
  destruct (declared_dec self) as [D|D].
  - destruct (Hd D) as (msgs' & E'). rewrite E' in E. injection E as _ <-.
    simpl. split; [|split; [done|split; [done|done]]].
    unfold column_height. destruct D as [_ D]. by apply Z.ltb_lt in D as ->.
  - destruct (Hn D) as (Hpos & Hmax & Hraise).
    destruct (Z.ltb_spec 0 (sum (col_widths st))) as [HS|HS].
    + destruct (Hpos HS) as (msgs' & E'). rewrite E' in E. injection E as _ <-.
      simpl. split; [done|]. split; [done|]. split; [done|]. intros _.
      split; [|split; [done|lia]].
      intros Hnone. unfold st in HS.
      rewrite place_all_none in HS by by apply present_nil. simpl in HS.
      unfold sum in HS. simpl in HS. lia.
    + destruct (present images) as [|im ims] eqn:Epresent.
      { rewrite Hraise in E by done. done. }
      destruct (max_of_nonempty (im_width <$> im :: ims)) as (m & Hm); [done|].
      destruct (Hmax HS m Hm) as (msgs' & E'). rewrite E' in E. injection E as _ <-.
      simpl. split; [done|]. split; [done|]. split; [done|]. intros _.
      split; [done|]. split; [lia|done].
Qed.

Lemma pasted_present ims pos : pasted (Some <$> ims) pos = zip ims pos.
Proof.
  unfold pasted. revert pos. induction ims as [|im ims IH]; intros [|p pos]; try done.
  cbn. f_equal. apply IH.
Qed.

Lemma pasted_absent k images pos :
  pasted (replicate k None ++ images) pos = pasted images (drop k pos).
Proof.
  unfold pasted. revert pos. induction k as [|k IH]; intros pos; [done|].
  destruct pos as [|p pos]; simpl.
  - by destruct images.
  - apply IH.
Qed.

Lemma present_absent k images : present (replicate k None ++ images) = present images.
Proof. induction k as [|k IH]; [done|]. exact IH. Qed.

Lemma place_all_absent H k images :
  place_all H (replicate k None ++ images) = place_all H images.
Proof.
  unfold place_all. rewrite foldl_app.
  assert (forall st, foldl (place H) st (replicate k None) = st) as ->; [|done].
  induction k as [|k IH]; intros st; [done|]. simpl. apply IH.
Qed.

Lemma column_height_absent self k images :
  column_height self (replicate k None ++ images) = column_height self images.
Proof.
  unfold column_height, _infer_column_height.
  by rewrite !present_heights_present, present_absent.
Qed.

Lemma present_all ims : present (Some <$> ims) = ims.
Proof.
  induction ims as [|im ims IH]; [done|].
  rewrite fmap_cons, present_cons_some. by f_equal.
Qed.
End Composition.

(* ================================================================== *)
(** * The column-height test as a tiling                              *)
(* ================================================================== *)

Section Runs.
Import Eva Notions.

Lemma sum_positive l : Forall (fun v => 0 < v) l -> l <> [] -> 0 < sum l.
Proof.
  intros Hpos Hne. destruct Hpos as [|v l Hv Hpos]; [done|].
  rewrite sum_cons.
  assert (0 <= sum l); [|lia].
  apply sum_nonneg. eapply Forall_impl; [exact Hpos|]. simpl. lia.
Qed.

Lemma sum_app l1 l2 : sum (l1 ++ l2) = sum l1 + sum l2.
Proof.
  induction l1 as [|v l1 IH]; [done|].
  rewrite <- app_comm_cons, !sum_cons, IH. lia.
Qed.

Lemma sum_tiles H hs runs : tiles H hs runs -> sum hs = H * Z.of_nat (length runs).
Proof.
  intros [<- Hruns]. induction Hruns as [|r runs [_ Hr] _ IH];
    [unfold sum; simpl; lia|].
  simpl concat. rewrite sum_app, IH, Hr. simpl length. lia.
Qed.

(** A run that completes the open column is consumed by the test. *)
Lemma run_consumed H rest :
  can_partition_from H 0 rest = true ->
  forall r acc,
    Forall (fun v => 0 < v) r -> r <> [] -> 0 <= acc -> acc + sum r = H ->
    can_partition_from H acc (r ++ rest) = true.
Proof.
  intros Hrest r. induction r as [|h r IH]; intros acc Hpos Hne Hacc Hsum; [done|].
  apply Forall_cons in Hpos as [Hh Hpos]. rewrite sum_cons in Hsum.
  rewrite <- app_comm_cons. simpl.
  destruct r as [|h' r'].
  - change (sum []) with 0 in Hsum.
    replace (acc + h =? H) with true by (symmetry; apply Z.eqb_eq; lia). done.
  - pose proof (sum_positive (h' :: r') Hpos ltac:(done)) as Hrest_pos.
    destruct (Z.eqb_spec (acc + h) H); [lia|].
    destruct (Z.ltb_spec H (acc + h)); [lia|].
    apply IH; [done|done|lia|lia].
Qed.

Lemma tiles_accepted H hs runs :
  Forall (fun v => 0 < v) hs -> tiles H hs runs -> can_partition hs H = true.
Proof.
  intros Hpos [<- Hruns]. unfold can_partition.
  induction Hruns as [|r runs [Hne Hr] _ IH]; [done|].
  simpl concat in *. apply Forall_app in Hpos as [Hposr Hpos].
  apply run_consumed; [by apply IH|done|done|lia|lia].
Qed.

Lemma accepted_tiles H : forall hs acc,
  Forall (fun v => 0 < v) hs -> 0 <= acc ->
  can_partition_from H acc hs = true ->
  exists r runs,
    hs = r ++ concat runs
    /\ Forall (fun r => r <> [] /\ sum r = H) runs
    /\ ((r = [] /\ acc = 0) \/ (r <> [] /\ acc + sum r = H)).
Proof.
  induction hs as [|h hs IH]; intros acc Hpos Hacc Hp.
  - simpl in Hp. apply Z.eqb_eq in Hp. exists [], []. repeat split; [constructor|by left].
  - apply Forall_cons in Hpos as [Hh Hpos]. simpl in Hp.
    destruct (Z.eqb_spec (acc + h) H) as [E|E].
    + destruct (IH 0 Hpos ltac:(lia) Hp) as (r & runs & -> & Hruns & [[-> _]|[Hne Hr]]).
      * exists [h], runs. repeat split; [done|]. right. split; [done|].
        rewrite sum_cons. change (sum []) with 0. lia.
      * exists [h], (r :: runs). repeat split.
        -- constructor; [|done]. split; [done|lia].
        -- right. split; [done|]. rewrite sum_cons. change (sum []) with 0. lia.
    + destruct (Z.ltb_spec H (acc + h)); [done|].
      destruct (IH (acc + h) Hpos ltac:(lia) Hp)
        as (r & runs & -> & Hruns & [[_ ?]|[Hne Hr]]); [lia|].
      exists (h :: r), runs. repeat split; [done|]. right. split; [done|].
      rewrite sum_cons. lia.
Qed.

Lemma can_partition_tiles H hs :
  Forall (fun v => 0 < v) hs ->
  can_partition hs H = true <-> exists runs, tiles H hs runs.
Proof.
  intros Hpos. split.
  - intros Hp.
    destruct (accepted_tiles H hs 0 Hpos ltac:(lia) Hp)
      as (r & runs & -> & Hruns & [[-> _]|[Hne Hr]]).
    + by exists runs.
    + exists (r :: runs). split; [done|]. constructor; [|done]. split; [done|lia].
  - intros (runs & Ht). by eapply tiles_accepted.
Qed.

Lemma proper_heights images :
  proper images -> Forall (fun v => 0 < v) (present_heights images).
Proof.
  intros Hproper. rewrite present_heights_present. apply Forall_fmap.
  eapply Forall_impl; [exact Hproper|]. simpl. intros im [? _]. done.
Qed.
End Runs.

(** X13. [compose_columns] returns a canvas exactly when both canvas
    sizes are declared in the header or at least one picture of the
    sequence is present; in the remaining case it raises the
    empty-maximum error before printing anything. *)
Theorem compose_returns_iff (self : Eva.parser) (images : list (option image)) :
  ((exists msgs c, Eva.compose_columns self images = (msgs, Ok c))
   <-> Notions.declared self \/ Notions.present images <> [])
  /\ ((exists msgs e, Eva.compose_columns self images = (msgs, Raise e))
      <-> Eva.compose_columns self images = ([], Raise ValueError_max_empty)).
Proof.
  destruct (compose_columns_cases self images) as [Hok Hraise].
  split; split.
  - intros (msgs & c & E).
    destruct (declared_dec self) as [D|D]; [by left|right].
    intros Hnone. rewrite (Hraise D Hnone) in E. done.
  - exact Hok.
  - intros (msgs & e & E).
    destruct (declared_dec self) as [D|D].
    + destruct (Hok (or_introl D)) as (msgs' & c & E'). rewrite E' in E. done.
    + destruct (Notions.present images) as [|im ims] eqn:Ep; [by apply Hraise|].
      destruct Hok as (msgs' & c & E'); [by right|].
      rewrite E' in E. done.
  - intros E. by eexists _, _.
Qed.

(** X14. When the header does not declare both canvas sizes, the canvas
    [compose_columns] returns has the column height as its height and
    is wide enough for the whole layout: every present picture, put at
    the position computed for it, lies inside the canvas.  The pictures
    must have a positive height and, when the header declares a height,
    be no taller than it; with an inferred height nothing more is
    asked. *)
Theorem undeclared_canvas_holds_every_picture
    (self : Eva.parser) (images : list (option image)) msgs c :
  Eva.compose_columns self images = (msgs, Ok c) ->
  ~ Notions.declared self ->
  Notions.proper images ->
  (0 < Eva.total_height (Eva.container self) ->
     Forall (fun h => h <= Eva.total_height (Eva.container self))
            (Eva.present_heights images)) ->
  Eva.canvas_h c = Notions.column_height self images
  /\ Forall2 (Notions.inside (Eva.canvas_w c) (Eva.canvas_h c))
       (Notions.present images)
       (Eva.positions (Eva.place_all (Eva.canvas_h c) images)).
Proof.
  intros E Hnd Hproper Hfit.
  destruct (compose_columns_ok _ _ _ _ E) as (Hh & _ & _ & Hund). cbv zeta in Hund.
  destruct (Hund Hnd) as (Hne & Hpos & Hmax).
  assert (Forall (fun h => h <= Notions.column_height self images)
            (Eva.present_heights images)) as Hle.
  { unfold Notions.column_height.
    destruct (Z.ltb_spec 0 (Eva.total_height (Eva.container self))); [by apply Hfit|].
    by apply infer_partitions. }
  rewrite Hh. split; [done|]. unfold Notions.proper in Hproper.
  set (H := Notions.column_height self images) in *.
  destruct (place_all_inside H images) as [Hin HS].
  { rewrite present_heights_present, Forall_fmap in Hle.
    apply Forall_forall. intros im Him.
    rewrite Forall_forall in Hle. rewrite Forall_forall in Hproper.
    specialize (Hle im Him). specialize (Hproper im Him). simpl in Hle. lia. }
  assert (sum (Eva.col_widths (Eva.place_all H images)) <= Eva.canvas_w c) as Hwide.
  { destruct (Z.ltb_spec 0 (sum (Eva.col_widths (Eva.place_all H images)))) as [L|L].
    - rewrite (Hpos L). lia.
    - pose proof (max_of_upper _ _ (Hmax L)) as Hup.
      destruct (Notions.present images) as [|im ims]; [done|].
      apply Forall_cons in Hup as [Hup _]. apply Forall_cons in Hproper as [[_ Hw] _].
      lia. }
  eapply Forall2_impl; [exact Hin|].
  intros im [px py] (? & ? & ? & ?). unfold Notions.inside in *. simpl in *. lia.
Qed.

Lemma undeclared_canvas_holds_every_picture_witness :
  Forall2 (Notions.inside 14 30) (Notions.present Samples.two_columns)
    (Eva.positions (Eva.place_all 30 Samples.two_columns)).
Proof.
  refine (proj2 (undeclared_canvas_holds_every_picture Samples.no_size
            Samples.two_columns []
            (Eva.Canvas 14 30 [(Image 8 10 [], (0, 0)); (Image 4 20 [], (8, 0))])
            _ _ _ _)).
  - vm_compute. reflexivity.
  - unfold Notions.declared. simpl. lia.
  - unfold Notions.proper. cbn.
    repeat (apply Forall_cons; split; [simpl; lia|]). by apply Forall_nil.
  - simpl. lia.
Defined.

(** X15. For pictures of positive height, not all absent, the height
    [_infer_column_height] returns is positive, no picture is taller
    than it, and the heights split into consecutive runs that each add
    up to exactly that height; the placement pass then closes one column
    per run, so every column of the layout is filled to the bottom. *)
Theorem inferred_height_fills_columns (images : list (option image)) :
  Notions.proper images -> Notions.present images <> [] ->
  0 < Eva._infer_column_height images
  /\ Forall (fun h => h <= Eva._infer_column_height images)
       (Eva.present_heights images)
  /\ exists runs,
       Notions.tiles (Eva._infer_column_height images)
         (Eva.present_heights images) runs
       /\ length (Eva.col_widths
                    (Eva.place_all (Eva._infer_column_height images) images))
          = length runs.
Proof.
  intros Hproper Hne.
  destruct (infer_partitions images Hproper Hne) as (Hp & Hle & Hpos).
  split; [done|]. split; [done|].
  set (H := Eva._infer_column_height images) in *.
  destruct (proj1 (can_partition_tiles H _ (proper_heights _ Hproper)) Hp)
    as (runs & Ht).
  exists runs. split; [done|].
  pose proof (sum_tiles _ _ _ Ht) as Hsum.
  pose proof (place_partition H images (Eva.Layout [] [] 0 0 0) Hproper Hp
                ltac:(simpl; lia) ltac:(done)) as Hpl.
  cbv zeta in Hpl. destruct Hpl as (Hcols & Hy & Hw).
  unfold Eva.place_all. rewrite Hy, Hw. simpl in Hcols |- *.
  apply Nat2Z.inj. nia.
Qed.

Lemma inferred_height_fills_columns_witness :
  0 < Eva._infer_column_height Samples.two_columns
  /\ Forall (fun h => h <= Eva._infer_column_height Samples.two_columns)
       (Eva.present_heights Samples.two_columns)
  /\ exists runs,
       Notions.tiles (Eva._infer_column_height Samples.two_columns)
         (Eva.present_heights Samples.two_columns) runs
       /\ length (Eva.col_widths
                    (Eva.place_all (Eva._infer_column_height Samples.two_columns)
                       Samples.two_columns))
          = length runs.
Proof.
  apply (inferred_height_fills_columns Samples.two_columns).
  - unfold Notions.proper. cbn.
    repeat (apply Forall_cons; split; [simpl; lia|]). by apply Forall_nil.
  - cbn. discriminate.
Defined.

(** X16. Whatever the column height, the placement pass never lets two
    pictures overlap: of two present pictures of positive height, the
    later one is put in a column further right or, in the same column,
    fully below the earlier one.  When every picture of the sequence is
    present, these are the pastes made on the canvas. *)
Theorem placed_pictures_never_overlap (H : Z) (images : list (option image)) :
  Notions.proper images ->
  Notions.placed_apart
    (zip (Notions.present images) (Eva.positions (Eva.place_all H images)))
  /\ forall self msgs c,
       images = Some <$> Notions.present images ->
       Eva.compose_columns self images = (msgs, Ok c) ->
       Notions.placed_apart (Eva.pastes c).
Proof.
  intros Hproper. split; [by apply place_all_apart|].
  intros self msgs c Hall E.
  destruct (compose_columns_ok _ _ _ _ E) as (_ & -> & _).
  rewrite Hall at 1. rewrite pasted_present. by apply place_all_apart.
Qed.

Lemma placed_pictures_never_overlap_witness :
  Notions.placed_apart
    (zip (Notions.present Samples.three_images)
         (Eva.positions (Eva.place_all 200 Samples.three_images))).
Proof.
  refine (proj1 (placed_pictures_never_overlap 200 Samples.three_images _)).
  unfold Notions.proper. cbn.
  repeat (apply Forall_cons; split; [simpl; lia|]). by apply Forall_nil.
Defined.

(** X17. The pastes pair the sequence with the position list entry by
    entry, and the position list has one entry per present picture.
    For a sequence of [k] absent entries followed by present pictures,
    picture [j] is therefore pasted at the position computed for picture
    [j + k], and the last [k] pictures are not pasted at all; with
    [k = 0] every picture goes to its own position. *)
Theorem pastes_follow_sequence_index
    (self : Eva.parser) (k : nat) (ims : list image) msgs c :
  Eva.compose_columns self (replicate k None ++ (Some <$> ims)) = (msgs, Ok c) ->
  Eva.pastes c
  = zip ims (drop k (Eva.positions (Eva.place_all (Eva.canvas_h c) (Some <$> ims))))
  /\ length (Eva.positions (Eva.place_all (Eva.canvas_h c) (Some <$> ims)))
     = length ims
  /\ length (Eva.pastes c) = (length ims - k)%nat.
Proof.
  intros E.
  destruct (compose_columns_ok _ _ _ _ E) as (Hh & Hp & _). cbv zeta in Hp.
  rewrite <- Hh in Hp. rewrite place_all_absent, pasted_absent, pasted_present in Hp.
  pose proof (length_positions (Eva.canvas_h c) (Some <$> ims)) as Hlen.
  rewrite present_all in Hlen.
  split; [done|]. split; [done|].
  rewrite Hp, length_zip, length_drop, Hlen. lia.
Qed.

Lemma pastes_follow_sequence_index_witness :
  Eva.pastes (Eva.Canvas 96 100 [(Image 64 100 [], (64, 0))])
  = zip Samples.absent_first
      (drop 1 (Eva.positions (Eva.place_all 100 (Some <$> Samples.absent_first)))).
Proof.
  refine (proj1 (pastes_follow_sequence_index Samples.no_size 1
            Samples.absent_first []
            (Eva.Canvas 96 100 [(Image 64 100 [], (64, 0))]) _)).
  vm_compute. reflexivity.
Defined.

(** X18. For positive heights, the test [can_partition(H)] inside
    [_infer_column_height] accepts [H] exactly when the heights can be
    cut into consecutive non-empty runs that each add up to [H]. *)
Theorem column_height_test_is_tiling (H : Z) (heights : list Z) :
  Forall (fun h => 0 < h) heights ->
  Eva.can_partition heights H = true <-> exists runs, Notions.tiles H heights runs.
Proof. apply can_partition_tiles. Qed.

Lemma column_height_test_is_tiling_witness :
  Eva.can_partition [10; 20; 30] 30 = true
  <-> exists runs, Notions.tiles 30 [10; 20; 30] runs.
Proof.
  apply (column_height_test_is_tiling 30 [10; 20; 30]).
  repeat (apply Forall_cons; split; [lia|]). by apply Forall_nil.
Defined.

(* ================================================================== *)
(** * A chained file from bytes to canvas                             *)
(* ================================================================== *)

Section ChainedFile.
Import Eva Notions.

Lemma decode_slot_some data i h :
  is_Some (decode_slot data i h).2 <-> supported h /\ ~ overflows data h.
Proof.
  unfold decode_slot, supported, overflows.
  destruct (Z.eqb_spec (format h) 0x00); destruct (Z.eqb_spec (format h) 0x03);
    simpl;
    destruct (Z.ltb_spec (len data) (image_offset h + width h * height h * 4));
    simpl; split; try (intros [? [=]]); try (intros [? ?]); try lia; try done;
    try (split; [lia|lia]).
Qed.

Lemma present_elem images : present images <> [] <-> exists im, Some im ∈ images.
Proof.
  induction images as [|[im|] images IH].
  - split; [done|]. intros (im & Him). by apply elem_of_nil in Him.
  - rewrite present_cons_some. split; [|done]. intros _. exists im. by left.
  - rewrite present_cons_none, IH. split.
    + intros (im & Him). exists im. by right.
    + intros (im & Him). apply elem_of_cons in Him as [?|Him]; [done|]. by exists im.
Qed.

Lemma slots_present self :
  present ((fun i => (slot self i).2) <$> range (len (picture_headers self))) <> []
  <-> exists i, decodable self i.
Proof.
  rewrite present_elem. unfold decodable, slot, range. split.
  - intros (im & Him). apply list_elem_of_fmap in Him as (i & Ei & Hi).
    apply elem_of_seqZ in Hi.
    destruct (picture_headers self !! Z.to_nat i) as [[o h]|] eqn:Hl; [|done].
    exists (Z.to_nat i), o, h. split; [done|].
    apply (decode_slot_some (data self) i h). by rewrite <- Ei.
  - intros (i & o & h & Hl & Hs).
    apply (decode_slot_some (data self) (Z.of_nat i) h) in Hs as [im Him].
    exists im. apply list_elem_of_fmap. exists (Z.of_nat i). split.
    + by rewrite Nat2Z.id, Hl, Him.
    + apply elem_of_seqZ. apply lookup_lt_Some in Hl. unfold len. lia.
Qed.

Lemma slots_nonempty self :
  pictures_nonempty self ->
  Forall nonempty
    (present ((fun i => (slot self i).2) <$> range (len (picture_headers self)))).
Proof.
  intros Hne. apply Forall_forall. intros im Him.
  unfold present in Him. apply list_elem_of_omap in Him as (oim & Hin & Hsome).
  simpl in Hsome. subst oim.
  apply list_elem_of_fmap in Hin as (i & Ei & Hi).
  unfold slot in Ei.
  destruct (picture_headers self !! Z.to_nat i) as [[o h]|] eqn:Hl; [|done].
  symmetry in Ei. apply decode_slot_image in Ei as (Hs & Hfit & ->).
  exact (Hne _ o h Hl Hs Hfit).
Qed.

(** The part files: all of them when no picture is empty, otherwise
    those before the first empty picture. *)
Lemma save_parts_loop_all imgs written :
  Forall nonempty (present imgs) ->
  save_parts_loop imgs written = (written ++ present imgs, Ok tt).
Proof.
  revert written. induction imgs as [|[im|] imgs IH]; intros written Hall.
  - by rewrite app_nil_r.
  - rewrite present_cons_some in Hall. apply Forall_cons in Hall as [[Hw Hh] Hall].
    simpl save_parts_loop. rewrite save_positive by done.
    rewrite IH by done. by rewrite <- app_assoc.
  - rewrite present_cons_none in Hall. simpl save_parts_loop.
    by rewrite IH.
Qed.

Lemma save_parts_loop_app before after written :
  Forall nonempty (present before) ->
  save_parts_loop (before ++ after) written
  = save_parts_loop after (written ++ present before).
Proof.
  revert written. induction before as [|[im|] before IH]; intros written Hall.
  - by rewrite app_nil_r.
  - rewrite present_cons_some in Hall. apply Forall_cons in Hall as [[Hw Hh] Hall].
    rewrite <- app_comm_cons. simpl save_parts_loop. rewrite save_positive by done.
    rewrite IH by done. by rewrite <- app_assoc.
  - rewrite present_cons_none in Hall. rewrite <- app_comm_cons.
    simpl save_parts_loop. by rewrite IH.
Qed.

Lemma save_parts_loop_stops before im after written :
  Forall nonempty (present before) -> ~ nonempty im ->
  save_parts_loop (before ++ Some im :: after) written
  = (written ++ present before, Raise SaveError_empty_image).
Proof.
  intros Hall Hempty. rewrite save_parts_loop_app by done.
  simpl save_parts_loop. by rewrite save_empty.
Qed.

(** A canvas made from pictures that all have pixels has pixels. *)
Lemma compose_canvas_nonempty self images msgs c :
  compose_columns self images = (msgs, Ok c) ->
  Forall nonempty (present images) ->
  0 < canvas_w c /\ 0 < canvas_h c.
Proof.
  intros E Hall.
  destruct (compose_columns_ok _ _ _ _ E) as (Hh & _ & Hd & Hund). cbv zeta in Hund.
  destruct (declared_dec self) as [D|D].
  - rewrite (Hd D), Hh. unfold column_height. destruct D as [Dw Dh].
    apply Z.ltb_lt in Dh as Dh'. rewrite Dh'. done.
  - destruct (Hund D) as (Hne & Hpos & Hmax).
    assert (proper images) as Hproper.
    { unfold proper. eapply Forall_impl; [exact Hall|].
      intros im [Hw Hhh]. simpl. lia. }
    split.
    + destruct (Z.ltb_spec 0 (sum (col_widths
                 (place_all (column_height self images) images)))) as [L|L].
      * by rewrite (Hpos L).
      * pose proof (max_of_upper _ _ (Hmax L)) as Hup.
        destruct (present images) as [|im ims]; [done|].
        apply Forall_cons in Hup as [Hup _]. apply Forall_cons in Hall as [[Hw _] _].
        lia.
    + rewrite Hh. unfold column_height.
      destruct (Z.ltb_spec 0 (total_height (container self))); [done|].
      by apply infer_partitions.
Qed.

(** How a run over a file ends: with the [OK] line when an image was
    combined, with an [ERR] line otherwise. *)
Lemma process_tex_file_last data save_parts :
  let out := process_tex_file data save_parts in
  (is_Some (tex_combined out) -> last (tex_printed out) = Some Msg_ok)
  /\ (tex_combined out = None -> exists e, last (tex_printed out) = Some (Msg_err e)).
Proof.
  assert (forall (l : list message) parts e,
            (is_Some (tex_combined (TexOutcome (l ++ [Msg_err e]) parts None))
             -> last (tex_printed (TexOutcome (l ++ [Msg_err e]) parts None))
                = Some Msg_ok)
            /\ (tex_combined (TexOutcome (l ++ [Msg_err e]) parts None) = None
                -> exists e', last (tex_printed
                                     (TexOutcome (l ++ [Msg_err e]) parts None))
                              = Some (Msg_err e'))) as Herr.
  { intros l parts e. simpl. split; [by intros [? ?]|].
    intros _. exists e. by rewrite last_snoc. }
  unfold process_tex_file. cbv zeta.
  destruct (TIM2Parser data) as [self|e]; [|exact (Herr [] [] e)].
  destruct (extract_all_images self) as [out1 [imgs|e]]; [|apply Herr].
  destruct (if save_parts then _ else _) as [parts [[]|e]]; [|apply Herr].
  destruct (compose_columns self imgs) as [out2 [c|e]];
    [destruct (save _ _) as [[]|e]|].
  - simpl. split; [|done]. intros _. by rewrite app_assoc, last_snoc.
  - rewrite app_assoc. apply Herr.
  - rewrite app_assoc. apply Herr.
Qed.

(** The outcome of a file the parser accepts and whose decoded pictures
    all have pixels. *)
Lemma process_tex_file_parsed data self save_parts :
  TIM2Parser data = Ok self ->
  pictures_nonempty self ->
  is_Some (tex_combined (process_tex_file data save_parts))
  <-> declared self \/ exists i, decodable self i.
Proof.
  intros E Hne. destruct (parser_sane data self E) as [Hsane _].
  pose proof (slots_nonempty self Hne) as Hall.
  unfold process_tex_file. rewrite E, (extract_all_images_slots self Hsane).
  set (imgs := (fun i => (slot self i).2) <$> range (len (picture_headers self)))
    in *.
  set (out1 := flat_map _ _).
  assert ((if save_parts then save_parts_loop imgs [] else ([], Ok tt))
          = (if save_parts then present imgs else [], Ok tt)) as ->.
  { destruct save_parts; [|done]. by rewrite save_parts_loop_all. }
  destruct (compose_columns_cases self imgs) as [Hok Hraise].
  rewrite <- (slots_present self). fold imgs.
  destruct (declared_dec self) as [D|D].
  - destruct (Hok (or_introl D)) as (msgs & c & Ec). rewrite Ec.
    destruct (compose_canvas_nonempty _ _ _ _ Ec Hall) as [Hw Hh].
    rewrite save_positive by done. simpl. split; [by left|by eexists].
  - destruct (present imgs) as [|im ims] eqn:Ep.
    + rewrite (Hraise D eq_refl). simpl.
      split; [by intros [? ?]|]. intros [?|?]; done.
    + destruct Hok as (msgs & c & Ec); [by right|]. rewrite Ec.
      rewrite <- Ep in Hall.
      destruct (compose_canvas_nonempty _ _ _ _ Ec Hall) as [Hw Hh].
      rewrite save_positive by done. simpl. split; [by right|by eexists].
Qed.
End ChainedFile.

(** X19. For a chained file in which no readable picture is empty (every
    picture with a supported format and its pixels inside the file has a
    positive width and height), [process_tex_file] ends with a combined
    image exactly when the parser accepts the file and either both
    canvas sizes are declared or at least one picture is readable.
    Whatever the file, the last line printed is the [OK] line when an
    image was combined and an [ERR] line when none was. *)
Theorem chained_file_is_combined_iff (data : list byte) (save_parts : bool) :
  (forall self, Eva.TIM2Parser data = Ok self -> Notions.pictures_nonempty self) ->
  (is_Some (Eva.tex_combined (Eva.process_tex_file data save_parts))
   <-> exists self, Eva.TIM2Parser data = Ok self
         /\ (Notions.declared self \/ exists i, Notions.decodable self i))
  /\ (is_Some (Eva.tex_combined (Eva.process_tex_file data save_parts))
      -> last (Eva.tex_printed (Eva.process_tex_file data save_parts)) = Some Msg_ok)
  /\ (Eva.tex_combined (Eva.process_tex_file data save_parts) = None
      -> exists e, last (Eva.tex_printed (Eva.process_tex_file data save_parts))
                   = Some (Msg_err e)).
Proof.
  intros Hne.
  split; [|exact (process_tex_file_last data save_parts)].
  destruct (Eva.TIM2Parser data) as [self|e] eqn:E.
  - rewrite (process_tex_file_parsed data self save_parts E (Hne self eq_refl)).
    split.
    + intros H. by exists self.
    + intros (self' & [= <-] & H). done.
  - unfold Eva.process_tex_file. rewrite E. simpl.
    split; [by intros [? ?]|]. by intros (? & ? & _).
Qed.

Lemma chained_file_is_combined_iff_witness :
  is_Some (Eva.tex_combined (Eva.process_tex_file Samples.tex_mixed true))
  <-> exists self, Eva.TIM2Parser Samples.tex_mixed = Ok self
        /\ (Notions.declared self \/ exists i, Notions.decodable self i).
Proof.
  refine (proj1 (chained_file_is_combined_iff Samples.tex_mixed true _)).
  intros self E. vm_compute in E. injection E as <-.
  intros i o h Hi Hs Hfit.
  destruct i as [|[|[|i]]]; simpl in Hi; try done; injection Hi as <- <-.
  - destruct Hs as [Hs|Hs]; by vm_compute in Hs.
  - by vm_compute.
  - exfalso. apply Hfit. by vm_compute.
Defined.

(* ================================================================== *)
(** * The two decoders on the same 32-bit pixels                      *)
(* ================================================================== *)

Section BothDecoders.
Import Notions.

Lemma cells_agree (buf : list byte) :
  legacy_cells buf = Eva.set_alpha (Eva.cells buf)
  <-> Forall (fun p : pixel => p.2 <> 0) (Eva.cells buf).
Proof.
  assert (forall n (b : list byte), (length b <= n)%nat ->
            legacy_cells b = Eva.set_alpha (Eva.cells b)
            <-> Forall (fun p : pixel => p.2 <> 0) (Eva.cells b)) as Hgen.
  { induction n as [|n IH]; intros b Hb.
    - destruct b; [|simpl in Hb; lia]. split; [constructor|done].
    - destruct b as [|c0 [|c1 [|c2 [|c3 b]]]];
        try (split; [constructor|done]).
      unfold legacy_cells, Eva.set_alpha.
      change (Eva.cells (c0 :: c1 :: c2 :: c3 :: b))
        with ((byte_val c0, byte_val c1, byte_val c2, byte_val c3) :: Eva.cells b).
      rewrite !fmap_cons, Forall_cons.
      fold (legacy_cells b). fold (Eva.set_alpha (Eva.cells b)).
      rewrite <- (IH b) by (simpl in Hb; lia).
      pose proof (byte_val_range c3) as Hr. simpl.
      unfold Legacy.alpha, Eva.alpha. split.
      + intros [= Ha Hrest]. split; [lia|done].
      + intros [Ha ->]. do 2 f_equal. lia. }
  by apply (Hgen (length buf)).
Qed.
End BothDecoders.

(** X20. Given the same block of 32-bit pixels (exactly [w * h] of them),
    the direct-colour loop of the legacy decoder and the pixel decoding
    of the chained decoder both succeed, and they give the same pixels
    exactly when no pixel of the block has a stored alpha of 0. *)
Theorem decoders_agree_unless_alpha_zero
    (buf : list byte) (w h : Z) (palette : list pixel) :
  len buf = h * w * 4 ->
  exists ps arr,
    Legacy.decode_pixels 0 w h (len buf) buf palette = Ok ps
    /\ Eva.reshape buf h w = Ok arr
    /\ (ps = Eva.set_alpha arr
        <-> Forall (fun p : pixel => p.2 <> 0) (Eva.cells buf)).
Proof.
  intros Hlen.
  exists (Notions.legacy_cells buf), (Eva.cells buf). split; [|split].
  - unfold Legacy.decode_pixels. simpl.
    rewrite direct_loop_cells.
    + unfold len. by rewrite Nat2Z.id, firstn_all.
    + unfold len. lia.
    + rewrite Hlen. by rewrite Z.mod_mul.
    + lia.
  - unfold Eva.reshape. by rewrite Hlen, Z.eqb_refl.
  - apply cells_agree.
Qed.

Lemma decoders_agree_unless_alpha_zero_witness :
  exists ps arr,
    Legacy.decode_pixels 0 1 1 (len [x0a; x14; x1e; xc8]) [x0a; x14; x1e; xc8] []
    = Ok ps
    /\ Eva.reshape [x0a; x14; x1e; xc8] 1 1 = Ok arr
    /\ (ps = Eva.set_alpha arr
        <-> Forall (fun p : pixel => p.2 <> 0) (Eva.cells [x0a; x14; x1e; xc8])).
Proof.
  apply (decoders_agree_unless_alpha_zero [x0a; x14; x1e; xc8] 1 1 []).
  reflexivity.
Defined.

(** X21. [compose_columns] never prints the height warning: the canvas
    height is the declared height whenever one is declared.  The only
    line it can print is the width warning, and it prints it exactly
    when it returns a canvas whose width differs from a declared width,
    which happens only when no height is declared; the canvas then keeps
    the layout's width, not the declared one. *)
Theorem compose_prints_at_most_the_width_warning
    (self : Eva.parser) (images : list (option image)) msgs r :
  Eva.compose_columns self images = (msgs, r) ->
  (msgs = []
   \/ exists c,
        r = Ok c
        /\ msgs = [Msg_warn_width (Eva.canvas_w c)
                     (Eva.total_width (Eva.container self))]
        /\ 0 < Eva.total_width (Eva.container self)
        /\ Eva.total_height (Eva.container self) <= 0
        /\ Eva.canvas_w c <> Eva.total_width (Eva.container self))
  /\ (forall c, r = Ok c ->
        0 < Eva.total_width (Eva.container self) ->
        Eva.canvas_w c <> Eva.total_width (Eva.container self) ->
        msgs = [Msg_warn_width (Eva.canvas_w c)
                  (Eva.total_width (Eva.container self))]).
Proof.
  unfold Eva.compose_columns.
  generalize (Eva._infer_column_height images). intros H.
  generalize (omap (fun im : option image => im_width <$> im) images). intros widths.
  set (st := Eva.place_all _ images). clearbody st.
  generalize (if bool_decide (Eva.col_widths st = []) then 0
              else sum (Eva.col_widths st)). intros S.
  generalize (omap (fun '(im, pos) => (fun i : image => (i, pos)) <$> im)
                (zip images (Eva.positions st))). intros ps.
  destruct (Z.ltb_spec 0 (Eva.total_width (Eva.container self))) as [Hw|Hw];
    destruct (Z.ltb_spec 0 (Eva.total_height (Eva.container self))) as [Hh|Hh];
    unfold mbind, Eva.io_bind, Eva.lift, Eva.print, mret, Eva.io_ret; simpl.
  - rewrite !Z.eqb_refl. simpl. intros [= <- <-].
    split; [by left|]. intros c [= <-] _ Hne. done.
  - destruct (0 <? S); simpl.
    + destruct (Z.eqb_spec S (Eva.total_width (Eva.container self))); simpl;
        intros [= <- <-].
      * split; [by left|]. intros c [= <-] _ Hne. done.
      * split; [right; eexists; by repeat split|]. by intros c [= <-] _ _.
    + destruct (Eva.max_of widths) as [m|e]; simpl;
        [|intros [= <- <-]; split; [by left|done]].
      destruct (Z.eqb_spec m (Eva.total_width (Eva.container self))); simpl;
        intros [= <- <-].
      * split; [by left|]. intros c [= <-] _ Hne. done.
      * split; [right; eexists; by repeat split|]. by intros c [= <-] _ _.
  - destruct (0 <? S); simpl.
    + rewrite Z.eqb_refl. simpl. intros [= <- <-]. split; [by left|]. intros; lia.
    + destruct (Eva.max_of widths) as [m|e]; simpl;
        [|intros [= <- <-]; split; [by left|done]].
      rewrite Z.eqb_refl. simpl. intros [= <- <-]. split; [by left|]. intros; lia.
  - destruct (0 <? S); simpl.
    + intros [= <- <-]. split; [by left|]. intros; lia.
    + destruct (Eva.max_of widths) as [m|e]; simpl; intros [= <- <-];
        (split; [by left|]); intros; (done || lia).
Qed.

Lemma compose_prints_at_most_the_width_warning_witness :
  [Msg_warn_width 14 20] = []
  \/ exists c,
       Ok (Eva.Canvas 14 30 [(Image 8 10 [], (0, 0)); (Image 4 20 [], (8, 0))])
       = Ok c
       /\ [Msg_warn_width 14 20]
          = [Msg_warn_width (Eva.canvas_w c)
               (Eva.total_width (Eva.container Samples.width_only))]
       /\ 0 < Eva.total_width (Eva.container Samples.width_only)
       /\ Eva.total_height (Eva.container Samples.width_only) <= 0
       /\ Eva.canvas_w c <> Eva.total_width (Eva.container Samples.width_only).
Proof.
  refine (proj1 (compose_prints_at_most_the_width_warning Samples.width_only
                   Samples.two_columns _ _ _)).
  vm_compute. reflexivity.
Defined.

(** X22. The part files of [process_tex_file].  Without the option none
    is written.  With it, the decoded pictures are written in order:
    all of them when none is empty, and when one is empty (width or
    height 0) the run stops there with the save error as its [ERR]
    line and no combined image, the parts before that picture staying
    written. *)
Theorem part_files_stop_at_empty_picture
    (data : list byte) (self : Eva.parser) msgs imgs :
  Eva.TIM2Parser data = Ok self ->
  Eva.extract_all_images self = (msgs, Ok imgs) ->
  Eva.tex_parts (Eva.process_tex_file data false) = []
  /\ (Forall Notions.nonempty (Notions.present imgs) ->
        Eva.tex_parts (Eva.process_tex_file data true) = Notions.present imgs)
  /\ (forall before im after,
        imgs = before ++ Some im :: after ->
        Forall Notions.nonempty (Notions.present before) ->
        ~ Notions.nonempty im ->
        Eva.process_tex_file data true
        = Eva.TexOutcome (msgs ++ [Msg_err SaveError_empty_image])
            (Notions.present before) None).
Proof.
  intros E Ea. unfold Eva.process_tex_file. rewrite E, Ea.
  split; [|split].
  - destruct (Eva.compose_columns self imgs) as [out2 [c|e]]; [|done].
    by destruct (save _ _).
  - intros Hall. rewrite save_parts_loop_all by done.
    destruct (Eva.compose_columns self imgs) as [out2 [c|e]]; [|done].
    by destruct (save _ _).
  - intros before im after -> Hall Hempty.
    by rewrite save_parts_loop_stops.
Qed.

Lemma part_files_stop_at_empty_picture_witness :
  Eva.process_tex_file Samples.tex_empty_second true
  = Eva.TexOutcome [Msg_err SaveError_empty_image]
      [Image 1 1 [(10, 20, 30, 255)]] None.
Proof.
  destruct (Eva.TIM2Parser Samples.tex_empty_second) as [self|] eqn:E;
    [|by vm_compute in E].
  destruct (part_files_stop_at_empty_picture Samples.tex_empty_second self []
              [Some (Image 1 1 [(10, 20, 30, 255)]); Some (Image 0 3 [])] E)
    as (_ & _ & Hstop).
  { vm_compute in E. injection E as <-. by vm_compute. }
  apply (Hstop [Some (Image 1 1 [(10, 20, 30, 255)])] (Image 0 3 []) []).
  - done.
  - apply Forall_cons. split; [|by apply Forall_nil].
    unfold Notions.nonempty. simpl. lia.
  - unfold Notions.nonempty. simpl. lia.
Defined.

(** X23. A legacy file of at least 0x40 bytes whose header gives a width
    or a height of 0 is never converted: if nothing fails before, the
    save of the empty image raises.  No image is written for it, and the
    batch logs one error line for the file and does not count it. *)
Theorem empty_picture_is_never_converted (data : list byte) :
  0x40 <= len data ->
  Notions.field data 0x24 2 = 0 \/ Notions.field data 0x26 2 = 0 ->
  raises (Legacy.process_tm2_file data)
  /\ forall st,
       Legacy.written (Legacy.main_step st data) = Legacy.written st
       /\ Legacy.count (Legacy.main_step st data) = Legacy.count st
       /\ exists e,
            Legacy.log (Legacy.main_step st data)
            = Legacy.log st ++ [Msg_file_error e].
Proof.
  intros Hlen Hzero.
  assert (raises (Legacy.process_tm2_file data)) as [e He].
  { rewrite process_tm2_file_body by done.
    destruct (Legacy.read_palette _ _) as [pal|e]; [|by exists e].
    unfold mbind at 1, result_bind at 1. cbv beta iota zeta.
    destruct (Legacy.decode_pixels _ _ _ _ _ _) as [img_data|e]; [|by exists e].
    unfold mbind at 1, result_bind at 1.
    destruct (putdata _ img_data) as [img|e] eqn:Hput; [|by exists e].
    apply putdata_shape in Hput as (Hw & Hh & _). simpl in Hw, Hh.
    unfold mbind, result_bind. rewrite Hw, Hh, save_empty by lia.
    by eexists. }
  split; [by exists e|].
  intros st. unfold Legacy.main_step. rewrite He. simpl.
  split; [done|]. split; [done|]. by exists e.
Qed.

Lemma empty_picture_is_never_converted_witness :
  raises (Legacy.process_tm2_file Samples.legacy_empty).
Proof.
  refine (proj1 (empty_picture_is_never_converted Samples.legacy_empty _ _)).
  - by vm_compute.
  - left. by vm_compute.
Defined.
